(** * Foosball ELO system: a shallow embedding of [foosball.py]

    The development follows the source file: the Python built-ins the
    program relies on (module [Py]), the rank catalogue, the player
    registry, record merging, snapshot loading, the rating update, and the
    two state-changing commands (match processing and consolidation).

    Modelling conventions.
    - Python [int] is [Z].  Python [float] is modelled by the real
      numbers [R]: arithmetic is exact, without rounding error or
      overflow.  [round(a / b)] on two ints is given in executable form
      ([Py.round_div]) and shown equal to [Py.round] of the real quotient.
      The win-percentage expressions [round((a / b) * c)], where the
      rounding of the doubles decides the result at everyday magnitudes,
      are computed on doubles ([Py.round_ratio_times]).
    - Python [str] is [string], read as ASCII text.
    - The global dict [players] is a [gmap string PlayerRecord]; a player
      record (a dict with a fixed set of keys) is a Rocq record.  The
      reference returned by [get_or_create_player] is modelled by the key
      under which the record is stored.
    - [print] appends an event to a log.  An uncaught exception ends the
      command and leaves the registry as mutated so far.
    - The snapshot file is outside the modelled state: [load_data] takes
      the lines read from it, and [save_data] is modelled by its effect on
      the registry. *)

From Stdlib Require Import ZArith Reals Lra Lia Ascii.
From stdpp Require Import base gmap strings list.

Local Open Scope Z_scope.

Abbreviation ascii_eqb := Stdlib.Strings.Ascii.eqb.

(** ** Python built-ins *)

Module Py.

Inductive exn : Type := KeyError | TypeError.

Inductive outcome (A : Type) : Type :=
| Ok (a : A)
| Raise (e : exn).
Global Arguments Ok {A} a.
Global Arguments Raise {A} e.

(** *** Numbers *)

(** [a < b] on floats. *)
Definition ltb (a b : R) : bool := if Rlt_dec a b then true else false.

(** [round(x)] for a float [x]: the nearest integer, ties to even. *)
Definition round (x : R) : Z :=
  let f := Zfloor x in
  let d := (x - IZR f)%R in
  if ltb d (1 / 2) then f
  else if ltb (1 / 2) d then f + 1
  else if Z.even f then f else f + 1.

(** [round(n / d)] for ints [n] and [d > 0], computed on the exact
    quotient. *)
Definition round_div (n d : Z) : Z :=
  let q := n / d in
  let r := n mod d in
  if 2 * r <? d then q
  else if d <? 2 * r then q + 1
  else if Z.even q then q else q + 1.

(** *** Doubles

    The two win-percentage expressions, [round((a / b) * c)] on ints, round
    twice before [round], and the effect shows at everyday magnitudes; they
    are computed on doubles.  A finite double is [m * 2^e] with a mantissa
    [m] of at most 53 bits, here the pair [(m, e)].  An operation rounds
    its exact result to the nearest double, ties to even.  The exponent is
    not bounded: there is no overflow and no underflow. *)
Definition double : Type := Z * Z.

(** The double nearest to [n / d] for [n > 0] and [d > 0]: the exponent is
    the [e] for which the quotient scaled by [2^-e] lies in [2^52, 2^53). *)
Definition nearest_pos (n d : Z) : double :=
  let e := Z.log2 n - Z.log2 d - 53 in
  let '(n', d') := if 0 <=? e then (n, d * 2 ^ e) else (n * 2 ^ (- e), d) in
  if n' <? d' * 2 ^ 53 then (round_div n' d', e)
  else (round_div n' (2 * d'), e + 1).

(** The double nearest to [n / d], for [d > 0]. *)
Definition nearest (n d : Z) : double :=
  if n =? 0 then (0, 0)
  else if 0 <? n then nearest_pos n d
  else let '(m, e) := nearest_pos (- n) d in (- m, e).

(** [float(k)] for an int. *)
Definition float_of_int (k : Z) : double := nearest k 1.

(** [a / b] on ints, [b] not zero. *)
Definition true_div (a b : Z) : double :=
  if 0 <? b then nearest a b else nearest (- a) (- b).

(** [x * y] on floats. *)
Definition fmul (x y : double) : double :=
  let m := x.1 * y.1 in
  let e := x.2 + y.2 in
  if 0 <=? e then nearest (m * 2 ^ e) 1 else nearest m (2 ^ (- e)).

(** [round(x)] for a float [x], as an int. *)
Definition round_double (x : double) : Z :=
  if 0 <=? x.2 then x.1 * 2 ^ x.2 else round_div x.1 (2 ^ (- x.2)).

(** [round((a / b) * c)] on ints. *)
Definition round_ratio_times (a b c : Z) : Z :=
  round_double (fmul (true_div a b) (float_of_int c)).

(** [min(a, b)] returns [b] only when [b < a]. *)
Definition min (a b : R) : R := if ltb b a then b else a.

(** [sum(xs)] on floats. *)
Definition sum (xs : list R) : R := fold_left Rplus xs 0%R.

(** *** Characters and strings (ASCII) *)

Definition code (c : ascii) : N := N_of_ascii c.

Definition in_range (lo hi : N) (c : ascii) : bool :=
  ((lo <=? code c) && (code c <=? hi))%N.

Definition isupper (c : ascii) : bool := in_range 65 90 c.
Definition islower (c : ascii) : bool := in_range 97 122 c.
Definition isdigit (c : ascii) : bool := in_range 48 57 c.
Definition isalnum (c : ascii) : bool := isupper c || islower c || isdigit c.

(** [str.isspace] and the regex class [\s] on ASCII: tab, newline,
    vertical tab, form feed, carriage return, the four separators
    28..31, and space. *)
Definition isspace (c : ascii) : bool :=
  in_range 9 13 c || in_range 28 32 c.

Definition lower_char (c : ascii) : ascii :=
  if isupper c then ascii_of_N (code c + 32) else c.

Fixpoint lower (s : string) : string :=
  match s with
  | EmptyString => EmptyString
  | String c s' => String (lower_char c) (lower s')
  end.

Fixpoint filter (p : ascii → bool) (s : string) : string :=
  match s with
  | EmptyString => EmptyString
  | String c s' => if p c then String c (filter p s') else filter p s'
  end.

Fixpoint lstrip (s : string) : string :=
  match s with
  | EmptyString => EmptyString
  | String c s' => if isspace c then lstrip s' else s
  end.

Definition rstrip (s : string) : string := String.rev (lstrip (String.rev s)).

(** [s.strip()] *)
Definition strip (s : string) : string := rstrip (lstrip s).

(** [s.split(sep)] for a one-character separator. *)
Fixpoint split (sep : ascii) (s : string) : list string :=
  match s with
  | EmptyString => [EmptyString]
  | String c s' =>
      if ascii_eqb c sep then EmptyString :: split sep s'
      else match split sep s' with
           | h :: t => String c h :: t
           | [] => [String c EmptyString]
           end
  end.

(** [s.split(sep, 1)] when [sep in s]: the text before and after the
    first separator; [None] when the separator does not occur. *)
Fixpoint split_once (sep : ascii) (s : string) : option (string * string) :=
  match s with
  | EmptyString => None
  | String c s' =>
      if ascii_eqb c sep then Some (EmptyString, s')
      else match split_once sep s' with
           | Some (a, b) => Some (String c a, b)
           | None => None
           end
  end.

Fixpoint startswith (p s : string) : bool :=
  match p, s with
  | EmptyString, _ => true
  | String a p', String b s' => ascii_eqb a b && startswith p' s'
  | String _ _, EmptyString => false
  end.

(** [sub in s] *)
Fixpoint contains (sub s : string) : bool :=
  startswith sub s ||
  match s with
  | EmptyString => false
  | String _ s' => contains sub s'
  end.

(** [sep.join(xs)] *)
Fixpoint join (sep : string) (xs : list string) : string :=
  match xs with
  | [] => EmptyString
  | [x] => x
  | x :: rest => x +:+ sep +:+ join sep rest
  end.

(** [s.rstrip(chars)] for a single character. *)
Fixpoint lstrip_char (ch : ascii) (s : string) : string :=
  match s with
  | EmptyString => EmptyString
  | String c s' => if ascii_eqb c ch then lstrip_char ch s' else s
  end.

Definition rstrip_char (ch : ascii) (s : string) : string :=
  String.rev (lstrip_char ch (String.rev s)).

(** [s.isdigit()]: not empty, and digits only. *)
Fixpoint all_digits (s : string) : bool :=
  match s with
  | EmptyString => true
  | String c s' => isdigit c && all_digits s'
  end.

Definition str_isdigit (s : string) : bool :=
  match s with
  | EmptyString => false
  | _ => all_digits s
  end.

(** The digits of an integer literal: at least one digit, with single
    underscores allowed between digits. *)
Fixpoint int_digits (s : string) (acc : Z) (after_digit : bool) : option Z :=
  match s with
  | EmptyString => if after_digit then Some acc else None
  | String c s' =>
      if isdigit c then
        int_digits s' (10 * acc + Z.of_N (code c - 48)) true
      else if ascii_eqb c "_"%char && after_digit then int_digits s' acc false
      else None
  end.

(** [int(s)]: surrounding white space, an optional sign, digits; [None]
    stands for [ValueError]. *)
Definition int (s : string) : option Z :=
  match strip s with
  | String "-"%char s' => Z.opp <$> int_digits s' 0 false
  | String "+"%char s' => int_digits s' 0 false
  | s' => int_digits s' 0 false
  end.

(** *** The two regular expressions, as backtracking matchers

    Each combinator takes the continuation that matches the rest of the
    pattern, and tries its alternatives in the order of [re]'s
    backtracking search; captures are passed to the continuation. *)

Section Regex.
Context {A : Type}.

(** [.] matches anything but a newline. *)
Definition dot (c : ascii) : bool := negb (ascii_eqb c "010"%char).

(** [$] matches at the end and before a final newline. *)
Definition at_end (s : string) : bool :=
  match s with
  | EmptyString => true
  | String c EmptyString => ascii_eqb c "010"%char
  | _ => false
  end.

(** [(cls*?)]: shortest first.  [acc] is the capture so far, reversed. *)
Fixpoint lazy_star (cls : ascii → bool) (k : string → string → option A)
    (acc s : string) : option A :=
  match k (String.rev acc) s with
  | Some r => Some r
  | None =>
      match s with
      | String c s' =>
          if cls c then lazy_star cls k (String c acc) s' else None
      | EmptyString => None
      end
  end.

(** [cls*]: longest first. *)
Fixpoint greedy_star (cls : ascii → bool) (k : string → option A)
    (s : string) : option A :=
  match s with
  | String c s' =>
      if cls c then
        match greedy_star cls k s' with
        | Some r => Some r
        | None => k s
        end
      else k s
  | EmptyString => k s
  end.

(** [cls+] *)
Definition greedy_plus (cls : ascii → bool) (k : string → option A)
    (s : string) : option A :=
  match s with
  | String c s' => if cls c then greedy_star cls k s' else None
  | EmptyString => None
  end.

(** A literal under [re.IGNORECASE]; returns the text matched and the
    rest. *)
Fixpoint literal (p s : string) : option (string * string) :=
  match p, s with
  | EmptyString, _ => Some (EmptyString, s)
  | String a p', String b s' =>
      if ascii_eqb (lower_char a) (lower_char b) then
        match literal p' s' with
        | Some (m, rest) => Some (String b m, rest)
        | None => None
        end
      else None
  | String _ _, EmptyString => None
  end.

Definition lit (p : string) (k : string → string → option A)
    (s : string) : option A :=
  match literal p s with
  | Some (m, rest) => k m rest
  | None => None
  end.

(** [(p1|p2|...)]: the alternatives in order. *)
Fixpoint alt (ps : list string) (k : string → string → option A)
    (s : string) : option A :=
  match ps with
  | [] => None
  | p :: rest =>
      match lit p k s with
      | Some r => Some r
      | None => alt rest k s
      end
  end.

(** [c?]: with the character first, then without. *)
Definition opt_char (c : ascii) (k : string → option A)
    (s : string) : option A :=
  match s with
  | String b s' =>
      if ascii_eqb b c then
        match k s' with
        | Some r => Some r
        | None => k s
        end
      else k s
  | EmptyString => k s
  end.
End Regex.

End Py.

Import Py.

(** ** Global constants *)

Definition K_FACTOR : Z := 32.
Definition RATING_MIN : Z := 100.
Definition RATING_MAX : Z := 2999.

Definition WIN_TYPE_MULTIPLIERS : gmap string R :=
  list_to_map
    [ ("win", 1%R); ("smallwin", 0.75%R); ("closewin", 0.5%R);
      ("bigwin", 1.25%R); ("perfectwin", 1.5%R) ].

Definition RANK_THRESHOLDS : list (Z * string) :=
  [ (2999, "ultra"); (2900, "grand-master"); (2666, "super-master");
    (2468, "master"); (2222, "diamond"); (1650, "emerald"); (1234, "jade");
    (850, "plat"); (450, "gold"); (250, "silver"); (200, "copper");
    (150, "bronze"); (125, "steel"); (99, "iron") ].

Definition HIDDEN_RANK : string := "lz".
Definition SPECIAL_IM : string := "im".

Definition RANK_ORDER : gmap string Z :=
  list_to_map
    [ ("iron", 0); ("steel", 1); ("bronze", 2); ("copper", 3); ("silver", 4);
      ("gold", 5); ("plat", 6); ("jade", 7); ("emerald", 8); ("diamond", 9);
      ("master", 10); ("super-master", 11); ("grand-master", 12);
      ("ultra", 13); (HIDDEN_RANK, 13); (SPECIAL_IM, 13) ].

(** [RANK_ORDER.get(rank, dflt)] *)
Definition rank_order_get (rank : string) (dflt : Z) : Z :=
  default dflt (RANK_ORDER !! rank).

(** ** Player records and the registry *)

Record PlayerRecord : Type := mkPlayer {
  display : string;
  offense : Z;
  defense : Z;
  played : Z;
  wins : Z;
  avg : Z;
  rank_d : string;
  rank_o : string;
  rank_a : string
}.

Definition set_offense (v : Z) (r : PlayerRecord) : PlayerRecord :=
  mkPlayer (display r) v (defense r) (played r) (wins r) (avg r)
           (rank_d r) (rank_o r) (rank_a r).
Definition set_defense (v : Z) (r : PlayerRecord) : PlayerRecord :=
  mkPlayer (display r) (offense r) v (played r) (wins r) (avg r)
           (rank_d r) (rank_o r) (rank_a r).
Definition set_played (v : Z) (r : PlayerRecord) : PlayerRecord :=
  mkPlayer (display r) (offense r) (defense r) v (wins r) (avg r)
           (rank_d r) (rank_o r) (rank_a r).
Definition set_wins (v : Z) (r : PlayerRecord) : PlayerRecord :=
  mkPlayer (display r) (offense r) (defense r) (played r) v (avg r)
           (rank_d r) (rank_o r) (rank_a r).
Definition set_avg (v : Z) (r : PlayerRecord) : PlayerRecord :=
  mkPlayer (display r) (offense r) (defense r) (played r) (wins r) v
           (rank_d r) (rank_o r) (rank_a r).
Definition set_ranks (d o a : string) (r : PlayerRecord) : PlayerRecord :=
  mkPlayer (display r) (offense r) (defense r) (played r) (wins r) (avg r)
           d o a.

(** What a command prints.  Lines built with a float format carry the
    values they are built from. *)
Inductive event : Type :=
| Print (line : string)
| PrintRate (display role : string) (rate : R)
| PrintTeams (team1_names : string) (avg_team1 : R)
             (team2_names : string) (avg_team2 : R)
| PrintChange (display role : string) (old new : Z) (change : R).

Record world : Type := World {
  players : gmap string PlayerRecord;
  stdout : list event
}.

(** Commands: the registry and the output are threaded through, and an
    exception keeps the state reached when it was raised. *)
Definition M (A : Type) : Type := world → outcome A * world.

Global Instance M_ret : MRet M := λ A a w, (Ok a, w).
Global Instance M_bind : MBind M := λ A B f m w,
  match m w with
  | (Ok a, w') => f a w'
  | (Raise e, w') => (Raise e, w')
  end.
Global Instance M_throw : MThrow exn M := λ A e w, (Raise e, w).

Definition lift {A} (o : outcome A) : M A := λ w, (o, w).
Definition get_players : M (gmap string PlayerRecord) :=
  λ w, (Ok (players w), w).
Definition put_players (ps : gmap string PlayerRecord) : M unit :=
  λ w, (Ok (), World ps (stdout w)).
Definition print (e : event) : M unit :=
  λ w, (Ok (), World (players w) (stdout w ++ [e])).

Fixpoint for_each {A} (xs : list A) (body : A → M unit) : M unit :=
  match xs with
  | [] => mret ()
  | x :: rest => body x;; for_each rest body
  end.

Fixpoint map_M {A B} (xs : list A) (body : A → M B) : M (list B) :=
  match xs with
  | [] => mret []
  | x :: rest => y ← body x; ys ← map_M rest body; mret (y :: ys)
  end.

(** [players[key]] *)
Definition lookup_player (key : string) : M PlayerRecord :=
  ps ← get_players;
  match ps !! key with
  | Some r => mret r
  | None => mthrow KeyError
  end.

(** An in-place update of the record stored under [key]. *)
Definition modify_player (key : string) (f : PlayerRecord → PlayerRecord)
    : M unit :=
  r ← lookup_player key;
  ps ← get_players;
  put_players (<[key := f r]> ps).

(** [del players[key]] *)
Definition delete_player (key : string) : M unit :=
  _ ← lookup_player key;
  ps ← get_players;
  put_players (delete key ps).

Definition canonicalize (name : string) : string :=
  Py.filter isalnum (lower name).

(** ** Ranks *)

Fixpoint first_rank (table : list (Z * string)) (score : Z) : string :=
  match table with
  | [] => "iron"
  | (threshold, rank) :: rest =>
      if threshold <=? score then rank else first_rank rest score
  end.

Definition get_computed_rank (score : Z) : string :=
  first_rank RANK_THRESHOLDS score.

Definition recompute_avg (data : PlayerRecord) : PlayerRecord :=
  set_avg (round_div (offense data + defense data) 2) data.

Definition update_player_avg (key : string) : M unit :=
  modify_player key recompute_avg.

Definition is_sentinel (rank : string) : bool :=
  String.eqb rank HIDDEN_RANK || String.eqb rank SPECIAL_IM.

(** One turn of the loop of [update_player_ranks].  [RANK_ORDER[new_val]]
    is a total lookup: [new_val] is a computed rank, and every computed
    rank is a key of [RANK_ORDER] (lemma [computed_rank_in_order]). *)
Definition updated_rank (current new_val : string) : string :=
  if is_sentinel current then current
  else if rank_order_get current 1 <? RANK_ORDER !!! new_val then new_val
  else current.

Definition recompute_ranks (rec : PlayerRecord) : PlayerRecord :=
  let new_o := get_computed_rank (offense rec) in
  let new_d := get_computed_rank (defense rec) in
  let new_a := get_computed_rank (avg rec) in
  set_ranks (updated_rank (rank_d rec) new_d)
            (updated_rank (rank_o rec) new_o)
            (updated_rank (rank_a rec) new_a) rec.

Definition update_player_ranks (key : string) : M unit :=
  modify_player key recompute_ranks.

(** ** Merging *)

Definition choose_rank (old_rank new_rank : string) : string :=
  if rank_order_get old_rank 0 <? rank_order_get new_rank 0 then new_rank
  else old_rank.

(** [x if x else dflt] for an optional string: [None] and the empty string
    are false. *)
Definition or_else (x : option string) (dflt : string) : string :=
  match x with
  | Some (String c s) => String c s
  | _ => dflt
  end.

(** The record that [merge_record] stores under [key]. *)
Definition merged_record (old : PlayerRecord) (off deff played' wins' : Z)
    (rank_d' rank_o' rank_a' : option string) : PlayerRecord :=
  let total_played := played old + played' in
  let '(new_off, new_def) :=
    if 0 <? total_played then
      (round_div (offense old * played old + off * played') total_played,
       round_div (defense old * played old + deff * played') total_played)
    else (off, deff) in
  let new_wins := wins old + wins' in
  {| display := display old;
     offense := new_off;
     defense := new_def;
     played := total_played;
     wins := new_wins;
     avg := round_div (new_off + new_def) 2;
     rank_d := choose_rank (rank_d old)
                 (or_else rank_d' (get_computed_rank new_def));
     rank_o := choose_rank (rank_o old)
                 (or_else rank_o' (get_computed_rank new_off));
     rank_a := choose_rank (rank_a old)
                 (or_else rank_a'
                    (get_computed_rank (round_div (new_off + new_def) 2))) |}.

Definition merge_record (key new_display : string) (off deff played wins : Z)
    (rank_d rank_o rank_a : option string) : M unit :=
  old ← lookup_player key;
  ps ← get_players;
  put_players
    (<[key := merged_record old off deff played wins rank_d rank_o rank_a]> ps).

(** ** Creation *)

Definition new_player (name key : string) : PlayerRecord :=
  let r := get_computed_rank RATING_MIN in
  let fresh := mkPlayer name RATING_MIN RATING_MIN 0 0 RATING_MIN r r r in
  if contains "zhong" key
  then set_ranks HIDDEN_RANK HIDDEN_RANK HIDDEN_RANK fresh
  else fresh.

(** Returns the key of the record; the source returns the record itself,
    which its callers read and mutate in place. *)
Definition get_or_create_player (name : string) : M string :=
  let key := canonicalize name in
  ps ← get_players;
  match ps !! key with
  | Some _ => mret key
  | None => put_players (<[key := new_player name key]> ps);; mret key
  end.

(** ** Loading a snapshot *)

(** The local variables of [load_data] for a line that is not skipped:
    the five required fields, the average when the sixth field is all
    digits, and the rank tokens that are present. *)
Record Line : Type := mkLine {
  l_disp : string;
  l_off : Z;
  l_deff : Z;
  l_played : Z;
  l_win_rate : Z;
  l_avg : option Z;
  l_rank_d : option string;
  l_rank_o : option string;
  l_rank_a : option string
}.

(** The tokenising part of the loop body; [None] when the line is skipped
    (empty, fewer than five fields, or a required number that [int]
    rejects). *)
Definition parse_line (line : string) : option Line :=
  let line := rstrip_char "." (strip line) in
  if String.eqb line "" then None
  else
    match strip <$> split "," line with
    | disp :: p1 :: p2 :: p3 :: p4 :: optional =>
        off ← Py.int p1;
        deff ← Py.int p2;
        played ← Py.int p3;
        win_rate ← Py.int p4;
        let avg :=
          match optional with
          | p5 :: _ => if str_isdigit p5 then Py.int p5 else None
          | [] => None
          end in
        Some (mkLine disp off deff played win_rate avg
                     (optional !! 1%nat) (optional !! 2%nat)
                     (optional !! 3%nat))
    | _ => None
    end.

Definition load_line (l : Line) : M unit :=
  let disp := l_disp l in
  let canon := canonicalize disp in
  let off := l_off l in
  let deff := l_deff l in
  let played := l_played l in
  let wins :=
    if 0 <? played then round_ratio_times (l_win_rate l) 100 played else 0 in
  let avg := default (round_div (off + deff) 2) (l_avg l) in
  ps ← get_players;
  match ps !! canon with
  | Some _ =>
      merge_record canon disp off deff played wins
                   (l_rank_d l) (l_rank_o l) (l_rank_a l)
  | None =>
      let rec :=
        {| display := disp; offense := off; defense := deff;
           played := played; wins := wins; avg := avg;
           rank_d := or_else (l_rank_d l) (get_computed_rank deff);
           rank_o := or_else (l_rank_o l) (get_computed_rank off);
           rank_a := or_else (l_rank_a l) (get_computed_rank avg) |} in
      put_players
        (<[canon := if contains "zhong" canon
                    then set_ranks HIDDEN_RANK HIDDEN_RANK HIDDEN_RANK rec
                    else rec]> ps)
  end.

(** [load_data] over the lines of the snapshot file (none when the file
    does not exist). *)
Definition load_data (file : list string) : M unit :=
  for_each file (λ line,
    match parse_line line with
    | Some l => load_line l
    | None => mret ()
    end).

(** The loop of [save_data] over the keys of the registry: every record
    gets its average and then its ranks recomputed.  The file that is
    written afterwards is outside the modelled state. *)
Definition save_data : M unit :=
  ps ← get_players;
  for_each (map_to_list ps).*1 (λ key,
    update_player_avg key;; update_player_ranks key).

(** ** Rating update *)

(** The protection table; the threshold [None] stands for [float('inf')]. *)
Definition RATING_PROTECTION_THRESHOLDS : list (option Z * Z) :=
  [ (Some 150, 34); (Some 200, 21); (Some 400, 13); (Some 850, 8);
    (Some 1234, 5); (Some 1650, 3); (Some 2222, 2); (Some 2468, 1);
    (Some 2666, 0); (Some 2900, -1); (None, -2) ].

Definition le_threshold (curr_rating : Z) (threshold : option Z) : bool :=
  match threshold with
  | Some t => curr_rating <=? t
  | None => true
  end.

(** The [for ... break] loop of [update_rating]: the adjustment of the
    first band with [curr_rating <= threshold], and 0 when no band
    applies. *)
Fixpoint first_band (table : list (option Z * Z)) (curr_rating : Z) : Z :=
  match table with
  | [] => 0
  | (threshold, adj) :: rest =>
      if le_threshold curr_rating threshold then adj
      else first_band rest curr_rating
  end.

Definition protection_adjustment (curr_rating : Z) : Z :=
  first_band RATING_PROTECTION_THRESHOLDS curr_rating.

Definition adjust_opponent_rating (opposition_rating : option R)
    (curr_rating : Z) : option R :=
  opposition_rating.

(** [1 / (1 + math.pow(10, (opponent - player) / 400))] *)
Definition expected_score (player_rating : Z) (opponent_rating : R) : R :=
  (1 / (1 + Rpower 10 ((opponent_rating - IZR player_rating) / 400)))%R.

(** [multiplier * K_FACTOR * (score - expected)] *)
Definition raw_change (multiplier : R) (score : Z) (expected : R) : R :=
  (multiplier * IZR K_FACTOR * (IZR score - expected))%R.

(** The value of [change] when control reaches the floor test: the raw
    change, plus the protection adjustment when [score in (0, 1)], capped
    at 0 when [score == 0]. *)
Definition adjusted_change (curr_rating score : Z) (opposition_rating : R)
    (multiplier : R) : R :=
  let expected := expected_score curr_rating opposition_rating in
  let change := raw_change multiplier score expected in
  let adjustment := protection_adjustment curr_rating in
  if (score =? 0) || (score =? 1) then
    let change := (change + IZR adjustment)%R in
    if score =? 0 then Py.min change 0 else change
  else change.

Definition clamp_rating (new_rating : Z) : Z :=
  Z.max (Z.min new_rating RATING_MAX) RATING_MIN.

(** Subtracting the current rating from an absent opponent rating raises
    [TypeError]. *)
Definition update_rating (curr_rating score : Z) (opposition_rating : option R)
    (multiplier : R) : outcome (Z * R) :=
  match adjust_opponent_rating opposition_rating curr_rating with
  | None => Raise TypeError
  | Some opp =>
      let change := adjusted_change curr_rating score opp multiplier in
      if Py.ltb change 0 && (curr_rating <=? RATING_MIN) then
        Ok (RATING_MIN, 0%R)
      else
        let new_rating := Py.round (IZR curr_rating + change) in
        Ok (clamp_rating new_rating, change)
  end.

Definition calculate_expected_win_rate (player_rating : Z)
    (opponent_rating : option R) : outcome R :=
  match opponent_rating with
  | None => Raise TypeError
  | Some opp => Ok (expected_score player_rating opp * 100)%R
  end.

(** ** Match processing *)

Definition names_of (part : string) : list string :=
  List.filter (λ p, negb (String.eqb p "")) (strip <$> split "," part).

Definition parse_team (team_str : string) : list string * list string :=
  match split_once ";" team_str with
  | Some (offense_part, defense_part) =>
      (names_of offense_part, names_of defense_part)
  | None => (names_of team_str, [])
  end.

Definition WIN_TYPES : list string :=
  ["win"; "smallwin"; "closewin"; "bigwin"; "perfectwin"].

(** [re.match(r"^(.*?)\s*(win|smallwin|closewin|bigwin|perfectwin)\s*(.*?)$",
    command, re.IGNORECASE)] and its three groups. *)
Definition match_game (command : string) : option (string * string * string) :=
  lazy_star dot (λ team1_str s1,
    greedy_star isspace (λ s2,
      alt WIN_TYPES (λ win_type s3,
        greedy_star isspace (λ s4,
          lazy_star dot (λ team2_str s5,
            if at_end s5 then Some (team1_str, win_type, team2_str) else None)
            "" s4) s3) s2) s1) "" command.

(** [re.match(r"^combine\s+(.*?)\s+to\s+(.*?)\.?$", command, re.IGNORECASE)]
    and its two groups. *)
Definition match_combine (command : string) : option (string * string) :=
  lit "combine" (λ _ s1,
    greedy_plus isspace (λ s2,
      lazy_star dot (λ g1 s3,
        greedy_plus isspace (λ s4,
          lit "to" (λ _ s5,
            greedy_plus isspace (λ s6,
              lazy_star dot (λ g2 s7,
                opt_char "." (λ s8,
                  if at_end s8 then Some (g1, g2) else None) s7)
                "" s6) s5) s4) s3) "" s2) s1) command.

Inductive role : Type := Offense | Defense.

Definition role_get (ro : role) : PlayerRecord → Z :=
  match ro with Offense => offense | Defense => defense end.
Definition role_set (ro : role) : Z → PlayerRecord → PlayerRecord :=
  match ro with Offense => set_offense | Defense => set_defense end.
Definition role_letter (ro : role) : string :=
  match ro with Offense => "O" | Defense => "D" end.
Definition role_name (ro : role) : string :=
  match ro with Offense => "Offense" | Defense => "Defense" end.

Definition sum_Z (xs : list Z) : Z := fold_left Z.add xs 0.

(** The local function [get_average_rating] of [process_game]. *)
Definition get_average_rating (names : list string) (ro : role)
    : M (option R) :=
  match names with
  | [] => mret None
  | _ =>
      vals ← map_M names (λ name,
        key ← get_or_create_player name;
        player ← lookup_player key;
        mret (role_get ro player));
      mret (Some (IZR (sum_Z vals) / IZR (Z.of_nat (length names)))%R)
  end.

(** An opponent reference rating: the average over the first roster if it
    is not empty, else over the second. *)
Definition opponent_reference (first : list string) (first_role : role)
    (second : list string) (second_role : role) : M (option R) :=
  match first with
  | _ :: _ => get_average_rating first first_role
  | [] => get_average_rating second second_role
  end.

(** One of the four loops that print the expected win rates. *)
Definition expected_rates (names : list string) (ro : role) (opp : option R)
    : M (list R) :=
  map_M names (λ name,
    key ← get_or_create_player name;
    player ← lookup_player key;
    rate ← lift (calculate_expected_win_rate (role_get ro player) opp);
    print (PrintRate (display player) (role_letter ro) rate);;
    mret rate).

(** One of the four loops that update the ratings: the winners' loops pass
    score 1 and count a win, the losers' loops pass score 0. *)
Definition rate_players (names : list string) (ro : role) (winner : bool)
    (opp : option R) (base_multiplier : R) : M unit :=
  for_each names (λ name,
    key ← get_or_create_player name;
    player ← lookup_player key;
    '(new_rating, change) ←
      lift (update_rating (role_get ro player) (if winner then 1 else 0)
                          opp base_multiplier);
    print (PrintChange (display player) (role_name ro)
                       (role_get ro player) new_rating change);;
    modify_player key (role_set ro new_rating);;
    modify_player key (λ p, set_played (played p + 1) p);;
    if winner then modify_player key (λ p, set_wins (wins p + 1) p)
    else mret ()).

Definition mean_rate (rates : list R) : R :=
  match rates with
  | [] => 0%R
  | _ => (Py.sum rates / IZR (Z.of_nat (length rates)))%R
  end.

Definition display_names (names : list string) : M string :=
  ds ← map_M names (λ name,
    key ← get_or_create_player name;
    player ← lookup_player key;
    mret (display player));
  mret (join " + " ds).

Definition rule : string :=
  "--------------------------------------------------------------------------------".

Definition process_game (command : string) : M unit :=
  match match_game command with
  | None => print (Print "Command format not recognized.")
  | Some (team1_str, win_type, team2_str) =>
      let win_type := lower win_type in
      match WIN_TYPE_MULTIPLIERS !! win_type with
      | None => print (Print "Invalid win type.")
      | Some base_multiplier =>
          let '(team1_off, team1_def) := parse_team team1_str in
          let '(team2_off, team2_def) := parse_team team2_str in
          for_each (team1_off ++ team1_def ++ team2_off ++ team2_def)
                   (λ name, get_or_create_player name;; mret ());;
          opp_for_team1 ←
            opponent_reference team2_def Defense team2_off Offense;
          opp_off_team1 ←
            opponent_reference team2_off Offense team2_def Defense;
          opp_for_team2 ←
            opponent_reference team1_def Defense team1_off Offense;
          opp_off_team2 ←
            opponent_reference team1_off Offense team1_def Defense;
          print (Print rule);;
          print (Print "Expected win rates:");;
          rates1_off ← expected_rates team1_off Offense opp_for_team1;
          rates1_def ← expected_rates team1_def Defense opp_off_team1;
          rates2_off ← expected_rates team2_off Offense opp_for_team2;
          rates2_def ← expected_rates team2_def Defense opp_off_team2;
          let avg_team1 := mean_rate (rates1_off ++ rates1_def) in
          let avg_team2 := mean_rate (rates2_off ++ rates2_def) in
          team1_names ← display_names (team1_off ++ team1_def);
          team2_names ← display_names (team2_off ++ team2_def);
          print (PrintTeams team1_names avg_team1 team2_names avg_team2);;
          print (Print rule);;
          rate_players team1_off Offense true opp_for_team1 base_multiplier;;
          rate_players team1_def Defense true opp_off_team1 base_multiplier;;
          rate_players team2_off Offense false opp_for_team2 base_multiplier;;
          rate_players team2_def Defense false opp_off_team2 base_multiplier;;
          save_data
      end
  end.

(** ** Consolidation *)

Definition process_combine_command (command : string) : M unit :=
  match match_combine command with
  | None => print (Print "Invalid format. Use: combine a to b.")
  | Some (g1, g2) =>
      let src_name := strip g1 in
      let dest_name := strip g2 in
      let src_key := canonicalize src_name in
      let dest_key := canonicalize dest_name in
      ps ← get_players;
      match ps !! src_key with
      | None => print (Print ("Player '" +:+ src_name +:+ "' not found."))
      | Some src =>
          match ps !! dest_key with
          | None => print (Print ("Player '" +:+ dest_name +:+ "' not found."))
          | Some dest =>
              merge_record dest_key (display dest) (offense src) (defense src)
                           (played src) (wins src) None None None;;
              delete_player src_key;;
              print (Print ("Combined '" +:+ src_name +:+ "' into '" +:+
                            dest_name +:+ "' (main record remains as '" +:+
                            dest_name +:+ "')."))
          end
      end
  end.

(** ** The main loop *)

(** The world a command leaves behind, whether it returns or raises. *)
Definition exec {A} (m : M A) (w : world) : world := (m w).2.

(** One turn of the loop of [main] on a line typed in; returns whether the
    loop goes on.  The listing commands ([pp], [best], [name]) only read
    the registry; what they print, and an exception that would end the
    session inside one of them, are not modelled. *)
Definition handle (line : string) : M bool :=
  let cmd := strip line in
  if String.eqb (lower cmd) "exit" then save_data;; mret false
  else if startswith "pp" (lower cmd) then mret true
  else if String.eqb (lower cmd) "best" then mret true
  else if startswith "combine" (lower cmd) then
    process_combine_command cmd;; mret true
  else if String.eqb (lower cmd) "name" then mret true
  else process_game cmd;; mret true.

Fixpoint main_loop (inputs : list string) : M unit :=
  match inputs with
  | [] => mret ()
  | line :: rest =>
      go_on ← handle line;
      if go_on : bool then main_loop rest else mret ()
  end.

(** A session: the snapshot is loaded into the registry, then the main
    loop runs on the lines typed in so far. *)
Definition session (file : list string) (inputs : list string) : M unit :=
  load_data file;; main_loop inputs.

(** ** Vocabulary of the properties *)

(** A sequence of rank recomputations on one record: before each
    recomputation the three ratings take arbitrary new values. *)
Fixpoint recompute_seq (ratings : list (Z * Z * Z)) (rec : PlayerRecord)
    : PlayerRecord :=
  match ratings with
  | [] => rec
  | (o, d, a) :: rest =>
      recompute_seq rest
        (recompute_ranks (set_avg a (set_defense d (set_offense o rec))))
  end.

(** [m] is an integer nearest to the quotient [n / d]. *)
Definition nearest_integer (m n d : Z) : Prop := 2 * Z.abs (m * d - n) ≤ d.

(** Counters of a record: both non-negative, and no more wins than games. *)
Definition counters_ok (r : PlayerRecord) : Prop :=
  0 ≤ wins r ∧ wins r ≤ played r.

Definition registry_ok (ps : gmap string PlayerRecord) : Prop :=
  ∀ key r, ps !! key = Some r → counters_ok r.

(** A snapshot line with its counters in range: when it is not skipped,
    games played is not negative, and small enough for [float(played)] to
    be exact, and the win percentage lies in 0..100.  [load_data] checks
    none of this. *)
Definition wf_line (line : string) : Prop :=
  ∀ l, parse_line line = Some l →
       0 ≤ l_played l < 2 ^ 53 ∧ 0 ≤ l_win_rate l ≤ 100.

(** The roster of a parsed team: offense names, then defense names. *)
Definition roster (team : list string * list string) : list string :=
  team.1 ++ team.2.

(** A command that returns from every state. *)
Definition returns {A} (m : M A) : Prop :=
  ∀ w, ∃ a w', m w = (Ok a, w').

(** A command that keeps the counters of every record in order, in the
    state it returns or raises in. *)
Definition preserves {A} (m : M A) : Prop :=
  ∀ w, registry_ok (players w) → registry_ok (players (exec m w)).

(** ** Vocabulary of the further properties *)

(** What the loop of [save_data] does to one record. *)
Definition refreshed (r : PlayerRecord) : PlayerRecord :=
  recompute_ranks (recompute_avg r).

(** A command that keeps a property of the registry, in the state it
    returns or raises in. *)
Definition keeps (I : gmap string PlayerRecord → Prop) {A} (m : M A) : Prop :=
  ∀ w, I (players w) → I (players (exec m w)).



(** Every character of a string satisfies [p]. *)
Fixpoint all_chars (p : ascii → bool) (s : string) : bool :=
  match s with
  | EmptyString => true
  | String c s' => p c && all_chars p s'
  end.

(** The number of wins [load_data] derives for a line,
    [round((win_rate / 100) * played) if played > 0 else 0], and the record
    it stores for a line whose key is new. *)
Definition loaded_wins (l : Line) : Z :=
  if 0 <? l_played l
  then round_ratio_times (l_win_rate l) 100 (l_played l) else 0.

Definition loaded_record (l : Line) : PlayerRecord :=
  let avg := default (round_div (l_off l + l_deff l) 2) (l_avg l) in
  let rec :=
    {| display := l_disp l; offense := l_off l; defense := l_deff l;
       played := l_played l; wins := loaded_wins l; avg := avg;
       rank_d := or_else (l_rank_d l) (get_computed_rank (l_deff l));
       rank_o := or_else (l_rank_o l) (get_computed_rank (l_off l));
       rank_a := or_else (l_rank_a l) (get_computed_rank avg) |} in
  if contains "zhong" (canonicalize (l_disp l))
  then set_ranks HIDDEN_RANK HIDDEN_RANK HIDDEN_RANK rec
  else rec.

(** The lines of a snapshot whose parsed fields all satisfy [L]. *)
Definition lines_satisfy (L : Line → Prop) (file : list string) : Prop :=
  Forall (λ line, ∀ l, parse_line line = Some l → L l) file.

(** The ratings of a record are within the bounds. *)
Definition ratings_ok (r : PlayerRecord) : Prop :=
  RATING_MIN ≤ offense r ≤ RATING_MAX ∧ RATING_MIN ≤ defense r ≤ RATING_MAX.

(** All three ranks of a record are the hidden sentinel. *)
Definition hidden (r : PlayerRecord) : Prop :=
  rank_d r = HIDDEN_RANK ∧ rank_o r = HIDDEN_RANK ∧ rank_a r = HIDDEN_RANK.

(** The counters of a record after one more game: [played += 1], and
    [wins += 1] for a winner. *)
Definition counted (winner : bool) (r : PlayerRecord) : PlayerRecord :=
  let r1 := set_played (played r + 1) r in
  if winner then set_wins (wins r1 + 1) r1 else r1.

(** ** The snapshot written by [save_data] *)

(** [str(n)] for an int, as an f-string formats it: the decimal digits,
    most significant first, after a minus sign for a negative number. *)
Definition digit_char (d : Z) : ascii := ascii_of_N (Z.to_N (48 + d)).

Fixpoint digits_of (fuel : nat) (n : Z) (acc : string) : string :=
  match fuel with
  | O => acc
  | S fuel' =>
      let acc' := String (digit_char (n mod 10)) acc in
      if n <? 10 then acc' else digits_of fuel' (n / 10) acc'
  end.

Definition str_nonneg (n : Z) : string :=
  digits_of (S (Z.to_nat (Z.log2 n))) n "".

Definition str_int (n : Z) : string :=
  if n <? 0 then String "-" (str_nonneg (- n)) else str_nonneg n.

(** [round((wins / played) * 100) if played > 0 else 0] *)
Definition saved_win_rate (r : PlayerRecord) : Z :=
  if 0 <? played r then round_ratio_times (wins r) (played r) 100 else 0.

(** The line [save_data] writes for a record. *)
Definition snapshot_line (r : PlayerRecord) : string :=
  display r +:+ ", " +:+ str_int (offense r) +:+ ", " +:+
  str_int (defense r) +:+ ", " +:+ str_int (played r) +:+ ", " +:+
  str_int (saved_win_rate r) +:+ ", " +:+ str_int (avg r) +:+ ", " +:+
  rank_d r +:+ ", " +:+ rank_o r +:+ ", " +:+ rank_a r +:+
  String "." (String "010" "").

(** Characters that keep a display name within one field of one line. *)
Definition field_char (c : ascii) : bool :=
  negb (ascii_eqb c ",") && negb (ascii_eqb c "010") && negb (ascii_eqb c "013").

(** The characters of the rank names of the catalogue. *)
Definition rank_char (c : ascii) : bool := isalnum c || ascii_eqb c "-".

Definition rank_token (s : string) : Prop :=
  s ≠ "" ∧ all_chars rank_char s = true.

(** A record that a snapshot line can hold: the display name has no white
    space at its ends and stays within its field, the ranks are rank
    tokens, the counters are in order with at most 100 games, the average
    is the one [save_data] has just recomputed, and a hidden identity has
    the hidden sentinel as ranks. *)
Definition storable (r : PlayerRecord) : Prop :=
  strip (display r) = display r
  ∧ all_chars field_char (display r) = true
  ∧ rank_token (rank_d r) ∧ rank_token (rank_o r) ∧ rank_token (rank_a r)
  ∧ 0 ≤ wins r ≤ played r ∧ played r ≤ 100
  ∧ avg r = round_div (offense r + defense r) 2
  ∧ (contains "zhong" (canonicalize (display r)) = true → hidden r).

(** [lstrip] and [lstrip_char] both drop the longest prefix of characters
    of a class, and [rstrip] and [rstrip_char] the longest suffix. *)
Fixpoint drop_while (p : ascii → bool) (s : string) : string :=
  match s with
  | EmptyString => EmptyString
  | String c s' => if p c then drop_while p s' else s
  end.

Definition rtrim (p : ascii → bool) (s : string) : string :=
  String.rev (drop_while p (String.rev s)).

(** Trimming the end of [s] leaves something of it. *)
Definition kept (p : ascii → bool) (s : string) : Prop :=
  drop_while p (String.rev s) ≠ "".

Definition is_dot (c : ascii) : bool := ascii_eqb c ".".

(** The number a double stands for. *)
Definition F2R (x : double) : R := (IZR x.1 * powerRZ 2 x.2)%R.

(** * Properties *)

(** ** Rounding *)

Lemma ltb_spec (a b : R) : reflect (a < b)%R (Py.ltb a b).
Proof. unfold Py.ltb. destruct (Rlt_dec a b); constructor; assumption. Qed.

Lemma round_IZR (n : Z) : Py.round (IZR n) = n.
Proof.
  unfold Py.round. rewrite ZfloorZ.
  destruct (ltb_spec (IZR n - IZR n) (1 / 2)) as [_ | H]; [reflexivity |].
  exfalso. apply H. lra.
Qed.

(** [round] never moves a value across an integer. *)
Lemma round_le_IZR (x : R) (n : Z) : (x <= IZR n)%R → Py.round x ≤ n.
Proof.
  intros Hx. unfold Py.round.
  pose proof (Zfloor_bound x) as [Hlo Hhi].
  assert (Hf : Zfloor x ≤ n).
  { apply le_IZR. lra. }
  destruct (ltb_spec (x - IZR (Zfloor x)) (1 / 2)) as [_ | Hge]; [exact Hf |].
  assert (Hlt : Zfloor x < n).
  { apply lt_IZR. lra. }
  destruct (ltb_spec (1 / 2) (x - IZR (Zfloor x))); [lia |].
  destruct (Z.even (Zfloor x)); lia.
Qed.

Lemma round_div_decompose (n d : Z) :
  0 < d →
  n = d * (n / d) + n mod d ∧ 0 ≤ n mod d < d.
Proof.
  intros Hd. split.
  - apply Z.div_mod. lia.
  - apply Z.mod_pos_bound. exact Hd.
Qed.

(** The executable rounding agrees with [round] on the real quotient. *)
Lemma round_div_correct (n d : Z) :
  0 < d → Py.round (IZR n / IZR d) = round_div n d.
Proof.
  intros Hd.
  destruct (round_div_decompose n d Hd) as [Hn [Hr0 Hrd]].
  set (q := n / d) in *. set (r := n mod d) in *.
  assert (HdR : (0 < IZR d)%R) by (apply IZR_lt; exact Hd).
  assert (Hx : (IZR n / IZR d = IZR q + IZR r / IZR d)%R).
  { rewrite Hn at 1. rewrite plus_IZR, mult_IZR. field. lra. }
  assert (Hr0R : (0 <= IZR r)%R) by (apply IZR_le; exact Hr0).
  assert (HrdR : (IZR r < IZR d)%R) by (apply IZR_lt; exact Hrd).
  assert (Hfrac : (0 <= IZR r / IZR d < 1)%R).
  { split.
    - apply Rmult_le_pos; [exact Hr0R |].
      apply Rlt_le, Rinv_0_lt_compat, HdR.
    - apply (Rmult_lt_reg_r (IZR d)); [exact HdR |].
      unfold Rdiv. rewrite Rmult_assoc, Rinv_l by lra. lra. }
  assert (Hfl : Zfloor (IZR n / IZR d) = q).
  { apply Zfloor_eq. lra. }
  unfold Py.round, round_div. fold q r. rewrite Hfl.
  replace (IZR n / IZR d - IZR q)%R with (IZR r / IZR d)%R by lra.
  assert (Hhalf : ∀ a : R, (IZR r / IZR d < a ↔ IZR r < a * IZR d)%R).
  { intros a. split; intros H.
    - apply (Rmult_lt_compat_r (IZR d)) in H; [| exact HdR].
      unfold Rdiv in H. rewrite Rmult_assoc, Rinv_l in H by lra. lra.
    - apply (Rmult_lt_reg_r (IZR d)); [exact HdR |].
      unfold Rdiv. rewrite Rmult_assoc, Rinv_l by lra. lra. }
  assert (Hhalf' : ∀ a : R, (a < IZR r / IZR d ↔ a * IZR d < IZR r)%R).
  { intros a. split; intros H.
    - apply (Rmult_lt_compat_r (IZR d)) in H; [| exact HdR].
      unfold Rdiv in H. rewrite Rmult_assoc, Rinv_l in H by lra. lra.
    - apply (Rmult_lt_reg_r (IZR d)); [exact HdR |].
      unfold Rdiv. rewrite Rmult_assoc, Rinv_l by lra. lra. }
  destruct (ltb_spec (IZR r / IZR d) (1 / 2)) as [Hlt | Hnlt].
  - apply Hhalf in Hlt.
    assert (2 * r < d).
    { apply lt_IZR. rewrite mult_IZR. lra. }
    destruct (Z.ltb_spec (2 * r) d); [reflexivity | lia].
  - assert (d ≤ 2 * r).
    { apply Z.nlt_ge. intros Hc. apply Hnlt, Hhalf.
      apply IZR_lt in Hc. rewrite mult_IZR in Hc. lra. }
    destruct (Z.ltb_spec (2 * r) d); [lia |].
    destruct (ltb_spec (1 / 2) (IZR r / IZR d)) as [Hgt | Hngt].
    + apply Hhalf' in Hgt.
      assert (d < 2 * r).
      { apply lt_IZR. rewrite mult_IZR. lra. }
      destruct (Z.ltb_spec d (2 * r)); [reflexivity | lia].
    + assert (2 * r ≤ d).
      { apply Z.nlt_ge. intros Hc. apply Hngt, Hhalf'.
        apply IZR_lt in Hc. rewrite mult_IZR in Hc. lra. }
      destruct (Z.ltb_spec d (2 * r)); [lia | reflexivity].
Qed.

(** [round_div n d] is an integer nearest to [n / d]. *)
Lemma round_div_nearest (n d : Z) :
  0 < d → 2 * Z.abs (round_div n d * d - n) ≤ d.
Proof.
  intros Hd.
  destruct (round_div_decompose n d Hd) as [Hn [Hr0 Hrd]].
  unfold round_div.
  set (q := n / d) in *. set (r := n mod d) in *.
  destruct (Z.ltb_spec (2 * r) d).
  - replace (q * d - n) with (- r) by lia. lia.
  - destruct (Z.ltb_spec d (2 * r)).
    + replace ((q + 1) * d - n) with (d - r) by lia. lia.
    + destruct (Z.even q).
      * replace (q * d - n) with (- r) by lia. lia.
      * replace ((q + 1) * d - n) with (d - r) by lia. lia.
Qed.

Lemma round_div_between (n d a b : Z) :
  0 < d → a * d ≤ n ≤ b * d → a ≤ round_div n d ≤ b.
Proof.
  intros Hd [Ha Hb].
  pose proof (round_div_nearest n d Hd) as Hnear.
  split.
  - apply Z.nlt_ge. intros Hc.
    assert ((round_div n d + 1) * d ≤ a * d) by (apply Z.mul_le_mono_nonneg_r; lia).
    lia.
  - apply Z.nlt_ge. intros Hc.
    assert ((b + 1) * d ≤ round_div n d * d) by (apply Z.mul_le_mono_nonneg_r; lia).
    lia.
Qed.

(** ** Doubles *)

(** [round] is monotone. *)
Lemma round_mono (x y : R) : (x <= y)%R → Py.round x ≤ Py.round y.
Proof.
  intros Hxy. unfold Py.round.
  pose proof (Zfloor_bound x) as [Hxl Hxh].
  pose proof (Zfloor_bound y) as [Hyl Hyh].
  pose proof (Zfloor_le x y Hxy) as Hf.
  destruct (Z.eq_dec (Zfloor x) (Zfloor y)) as [E | N].
  - rewrite <- E in *.
    destruct (ltb_spec (x - IZR (Zfloor x)) (1 / 2));
      destruct (ltb_spec (y - IZR (Zfloor x)) (1 / 2));
      destruct (ltb_spec (1 / 2) (x - IZR (Zfloor x)));
      destruct (ltb_spec (1 / 2) (y - IZR (Zfloor x)));
      try lia; try lra; destruct (Z.even (Zfloor x)); lia.
  - assert (Zfloor x + 1 ≤ Zfloor y) by lia.
    destruct (ltb_spec (x - IZR (Zfloor x)) (1 / 2));
      destruct (ltb_spec (y - IZR (Zfloor y)) (1 / 2));
      destruct (ltb_spec (1 / 2) (x - IZR (Zfloor x)));
      destruct (ltb_spec (1 / 2) (y - IZR (Zfloor y)));
      destruct (Z.even (Zfloor x)); destruct (Z.even (Zfloor y)); lia.
Qed.

Lemma pow2_pos (e : Z) : (0 < powerRZ 2 e)%R.
Proof. apply powerRZ_lt. lra. Qed.

Lemma pow2_add (a b : Z) :
  powerRZ 2 (a + b) = (powerRZ 2 a * powerRZ 2 b)%R.
Proof. apply powerRZ_add. lra. Qed.

Lemma pow2_IZR (k : Z) : 0 ≤ k → IZR (2 ^ k) = powerRZ 2 k.
Proof.
  intros Hk. rewrite <- (Z2Nat.id k Hk).
  by rewrite <- pow_IZR, <- pow_powerRZ.
Qed.

Lemma pow2_opp (a : Z) : powerRZ 2 (- a) = (/ powerRZ 2 a)%R.
Proof.
  pose proof (pow2_pos a) as Ha.
  pose proof (pow2_add (- a) a) as H.
  replace (- a + a) with 0 in H by lia. cbn [powerRZ] in H.
  apply (Rmult_eq_reg_r (powerRZ 2 a)); [| lra].
  rewrite <- H. field. lra.
Qed.

Lemma pow2_le (a b : Z) : a ≤ b → (powerRZ 2 a <= powerRZ 2 b)%R.
Proof.
  intros Hab. replace b with (a + (b - a)) by lia. rewrite pow2_add.
  pose proof (pow2_pos a) as Ha.
  assert (H1 : (1 <= powerRZ 2 (b - a))%R).
  { rewrite <- pow2_IZR by lia. apply IZR_le.
    pose proof (Z.pow_pos_nonneg 2 (b - a)). lia. }
  nra.
Qed.

Lemma pow2_succ (a : Z) : powerRZ 2 (a + 1) = (2 * powerRZ 2 a)%R.
Proof. rewrite pow2_add. cbn [powerRZ]. simpl. lra. Qed.

Lemma log2_bounds (n : Z) :
  0 < n →
  (powerRZ 2 (Z.log2 n) <= IZR n < 2 * powerRZ 2 (Z.log2 n))%R.
Proof.
  intros Hn. pose proof (Z.log2_spec n Hn) as [Hlo Hhi].
  pose proof (Z.log2_nonneg n) as H0.
  rewrite Z.pow_succ_r in Hhi by exact H0.
  rewrite <- pow2_IZR by exact H0. split.
  - by apply IZR_le.
  - rewrite <- mult_IZR. by apply IZR_lt.
Qed.

Lemma ratio_range (N D A B : R) :
  (0 < A → 0 < B → A <= N < 2 * A → B <= D < 2 * B →
   1 / 2 < N / D * (B / A) < 2)%R.
Proof.
  intros HA HB [HN1 HN2] [HD1 HD2].
  assert (HDA : (0 < D * A)%R) by nra.
  pose proof (Rinv_0_lt_compat _ HDA) as HI.
  assert (E : (/ (D * A) * (D * A) = 1)%R) by (field; nra).
  replace (N / D * (B / A))%R with ((N * B) * / (D * A))%R by (field; nra).
  set (I := (/ (D * A))%R) in *.
  assert (H1 : (0 < (2 * (N * B) - D * A) * I)%R)
    by (apply Rmult_lt_0_compat; nra).
  assert (H2 : (0 < (2 * (D * A) - N * B) * I)%R)
    by (apply Rmult_lt_0_compat; nra).
  split; nra.
Qed.

(** The quotient scaled by [2^-e], as a quotient of two ints. *)
Lemma scaled_quotient (n d e : Z) :
  0 < d →
  let '(n', d') :=
    if 0 <=? e then (n, d * 2 ^ e) else (n * 2 ^ (- e), d) in
  0 < d' ∧ (IZR n' / IZR d' = IZR n / IZR d * powerRZ 2 (- e))%R.
Proof.
  intros Hd. assert (Hd' : (0 < IZR d)%R) by (by apply IZR_lt).
  destruct (Z.leb_spec 0 e) as [He | He].
  - split; [pose proof (Z.pow_pos_nonneg 2 e); nia |].
    rewrite mult_IZR, pow2_IZR by exact He. rewrite pow2_opp.
    pose proof (pow2_pos e). field. lra.
  - split; [exact Hd |].
    rewrite mult_IZR, pow2_IZR by lia. field. lra.
Qed.

(** The double [(m, e)] nearest to a positive quotient: [e] brings the
    quotient into [2^52, 2^53), and [m] is the scaled quotient, rounded. *)
Lemma nearest_pos_spec (n d : Z) :
  0 < n → 0 < d →
  let s := (IZR n / IZR d * powerRZ 2 (- (nearest_pos n d).2))%R in
  (powerRZ 2 52 <= s < powerRZ 2 53)%R ∧ (nearest_pos n d).1 = Py.round s.
Proof.
  intros Hn Hd. unfold nearest_pos.
  set (e := Z.log2 n - Z.log2 d - 53).
  assert (Hs : (powerRZ 2 52 < IZR n / IZR d * powerRZ 2 (- e)
                < powerRZ 2 54)%R).
  { pose proof (log2_bounds n Hn) as Hbn.
    pose proof (log2_bounds d Hd) as Hbd.
    pose proof (ratio_range _ _ _ _ (pow2_pos (Z.log2 n))
                  (pow2_pos (Z.log2 d)) Hbn Hbd) as Hr.
    replace (- e) with (53 + (Z.log2 d + - Z.log2 n)) by (unfold e; lia).
    rewrite !pow2_add, pow2_opp.
    replace (powerRZ 2 54) with (2 * powerRZ 2 53)%R
      by (by rewrite <- pow2_succ).
    replace (powerRZ 2 53) with (2 * powerRZ 2 52)%R
      by (by rewrite <- pow2_succ).
    pose proof (pow2_pos 52).
    set (q := (IZR n / IZR d * (powerRZ 2 (Z.log2 d)
                                / powerRZ 2 (Z.log2 n)))%R) in *.
    replace (IZR n / IZR d
             * (2 * powerRZ 2 52
                * (powerRZ 2 (Z.log2 d) * / powerRZ 2 (Z.log2 n))))%R
      with (2 * powerRZ 2 52 * q)%R by (unfold q; unfold Rdiv; ring).
    nra. }
  pose proof (scaled_quotient n d e Hd) as Hq.
  destruct (if 0 <=? e then (n, d * 2 ^ e) else (n * 2 ^ (- e), d))
    as [n' d'].
  destruct Hq as [Hd' Hq].
  assert (Hd'R : (0 < IZR d')%R) by (by apply IZR_lt).
  assert (H53 : IZR (2 ^ 53) = powerRZ 2 53) by (by apply pow2_IZR).
  destruct (Z.ltb_spec n' (d' * 2 ^ 53)) as [Hlt | Hge]; cbn [fst snd].
  - split.
    + split; [lra |]. rewrite <- Hq.
      apply IZR_lt in Hlt. rewrite mult_IZR, H53 in Hlt.
      apply (Rmult_lt_reg_r (IZR d')); [exact Hd'R |].
      replace (IZR n' / IZR d' * IZR d')%R with (IZR n') by (field; lra).
      lra.
    + rewrite <- Hq. symmetry. by apply round_div_correct.
  - assert (Hge' : (powerRZ 2 53 <= IZR n' / IZR d')%R).
    { apply IZR_le in Hge. rewrite mult_IZR, H53 in Hge.
      apply (Rmult_le_reg_r (IZR d')); [exact Hd'R |].
      replace (IZR n' / IZR d' * IZR d')%R with (IZR n') by (field; lra).
      lra. }
    assert (Eh : (IZR n / IZR d * powerRZ 2 (- (e + 1))
                  = IZR n' / IZR (2 * d'))%R).
    { replace (- (e + 1)) with (- e + - (1)) by lia.
      rewrite pow2_add, <- Rmult_assoc, <- Hq, mult_IZR.
      change (powerRZ 2 (- (1))) with (/ (2 * 1))%R. field. lra. }
    split.
    + rewrite Eh, mult_IZR.
      replace (powerRZ 2 53) with (2 * powerRZ 2 52)%R in *
        by (by rewrite <- pow2_succ).
      replace (powerRZ 2 54) with (2 * (2 * powerRZ 2 52))%R in Hs
        by (by rewrite <- !pow2_succ).
      rewrite <- Hq in Hs.
      replace (IZR n' / (2 * IZR d'))%R with (IZR n' / IZR d' / 2)%R
        by (field; lra).
      lra.
    + rewrite Eh. symmetry. apply round_div_correct. lia.
Qed.

(** The number a double stands for, from its scaled quotient. *)
Lemma scaled_back (x s : R) (e : Z) :
  s = (x * powerRZ 2 (- e))%R → x = (s * powerRZ 2 e)%R.
Proof.
  intros ->. rewrite pow2_opp. pose proof (pow2_pos e). field. lra.
Qed.

(** Rounding to the nearest double is monotone. *)
Lemma nearest_pos_mono (n1 d1 n2 d2 : Z) :
  0 < n1 → 0 < d1 → 0 < n2 → 0 < d2 →
  (IZR n1 / IZR d1 <= IZR n2 / IZR d2)%R →
  (F2R (nearest_pos n1 d1) <= F2R (nearest_pos n2 d2))%R.
Proof.
  intros Hn1 Hd1 Hn2 Hd2 Hle.
  pose proof (nearest_pos_spec n1 d1 Hn1 Hd1) as [[Hl1 Hh1] Hm1].
  pose proof (nearest_pos_spec n2 d2 Hn2 Hd2) as [[Hl2 Hh2] Hm2].
  destruct (nearest_pos n1 d1) as [m1 e1].
  destruct (nearest_pos n2 d2) as [m2 e2].
  unfold F2R. cbn [fst snd] in *.
  set (x1 := (IZR n1 / IZR d1)%R) in *.
  set (x2 := (IZR n2 / IZR d2)%R) in *.
  assert (E52 : powerRZ 2 52 = IZR (2 ^ 52)) by (symmetry; by apply pow2_IZR).
  assert (E53 : powerRZ 2 53 = IZR (2 ^ 53)) by (symmetry; by apply pow2_IZR).
  assert (Hb1 : 2 ^ 52 ≤ m1 ≤ 2 ^ 53).
  { rewrite Hm1. split.
    - rewrite <- (round_IZR (2 ^ 52)) at 1. apply round_mono. lra.
    - apply round_le_IZR. lra. }
  assert (Hb2 : 2 ^ 52 ≤ m2 ≤ 2 ^ 53).
  { rewrite Hm2. split.
    - rewrite <- (round_IZR (2 ^ 52)) at 1. apply round_mono. lra.
    - apply round_le_IZR. lra. }
  pose proof (pow2_pos e1) as P1. pose proof (pow2_pos e2) as P2.
  destruct (Z.lt_trichotomy e1 e2) as [Hlt | [-> | Hgt]].
  - pose proof (pow2_le (e1 + 1) e2 ltac:(lia)) as Hp.
    rewrite pow2_succ in Hp.
    destruct Hb1 as [_ Hb1]. destruct Hb2 as [Hb2 _].
    apply IZR_le in Hb1, Hb2. rewrite <- E53 in Hb1. rewrite <- E52 in Hb2.
    replace (powerRZ 2 53) with (2 * powerRZ 2 52)%R in Hb1
      by (by rewrite <- pow2_succ).
    pose proof (pow2_pos 52).
    apply Rle_trans with (2 * powerRZ 2 52 * powerRZ 2 e1)%R; [nra |].
    apply Rle_trans with (powerRZ 2 52 * powerRZ 2 e2)%R; nra.
  - apply Rmult_le_compat_r; [lra |]. apply IZR_le.
    rewrite Hm1, Hm2. apply round_mono.
    pose proof (pow2_pos (- e2)).
    apply Rmult_le_compat_r; lra.
  - exfalso.
    pose proof (pow2_le (e2 + 1) e1 ltac:(lia)) as Hp.
    rewrite pow2_succ in Hp.
    pose proof (scaled_back x1 _ e1 eq_refl) as X1.
    pose proof (scaled_back x2 _ e2 eq_refl) as X2.
    replace (powerRZ 2 53) with (2 * powerRZ 2 52)%R in *
      by (by rewrite <- pow2_succ).
    pose proof (pow2_pos 52).
    set (s1 := (x1 * powerRZ 2 (- e1))%R) in *.
    set (s2 := (x2 * powerRZ 2 (- e2))%R) in *.
    assert (x2 < 2 * powerRZ 2 52 * powerRZ 2 e2)%R by nra.
    assert (powerRZ 2 52 * (2 * powerRZ 2 e2) <= x1)%R by nra.
    lra.
Qed.

Lemma nearest_pos_nonneg (n d : Z) :
  0 < n → 0 < d → (0 <= F2R (nearest_pos n d))%R.
Proof.
  intros Hn Hd.
  pose proof (nearest_pos_spec n d Hn Hd) as [[Hl _] Hm].
  destruct (nearest_pos n d) as [m e]. unfold F2R. cbn [fst snd] in *.
  assert (0 ≤ m).
  { rewrite Hm, <- (round_IZR 0). apply round_mono.
    pose proof (pow2_pos 52). lra. }
  pose proof (pow2_pos e). apply Rmult_le_pos; [by apply IZR_le | lra].
Qed.

Lemma nearest_mono (n1 d1 n2 d2 : Z) :
  0 ≤ n1 → 0 < d1 → 0 < d2 →
  (IZR n1 / IZR d1 <= IZR n2 / IZR d2)%R →
  (F2R (nearest n1 d1) <= F2R (nearest n2 d2))%R.
Proof.
  intros Hn1 Hd1 Hd2 Hle.
  assert (Hd1R : (0 < IZR d1)%R) by (by apply IZR_lt).
  assert (Hd2R : (0 < IZR d2)%R) by (by apply IZR_lt).
  assert (Hn2 : 0 ≤ n2).
  { apply le_IZR. apply IZR_le in Hn1.
    assert (0 <= IZR n1 / IZR d1)%R
      by (apply Rmult_le_pos; [lra | left; by apply Rinv_0_lt_compat]).
    apply (Rmult_le_reg_r (/ IZR d2)); [by apply Rinv_0_lt_compat |].
    unfold Rdiv in *. lra. }
  unfold nearest.
  destruct (Z.eqb_spec n1 0) as [-> | N1].
  - destruct (Z.eqb_spec n2 0) as [-> | N2].
    + unfold F2R. cbn. lra.
    + destruct (Z.ltb_spec 0 n2); [| lia].
      replace (F2R (0, 0)) with 0%R by (unfold F2R; cbn; lra).
      apply nearest_pos_nonneg; lia.
  - destruct (Z.ltb_spec 0 n1); [| lia].
    destruct (Z.eqb_spec n2 0) as [-> | N2].
    + exfalso. assert (0 < IZR n1)%R by (apply IZR_lt; lia).
      assert (0 < IZR n1 / IZR d1)%R by (by apply Rdiv_lt_0_compat).
      unfold Rdiv in Hle. rewrite Rmult_0_l in Hle. unfold Rdiv in *. lra.
    + destruct (Z.ltb_spec 0 n2); [| lia].
      apply nearest_pos_mono; [lia | done | lia | done | done].
Qed.

(** An int below [2^53] is a double. *)
Lemma float_of_int_exact (k : Z) :
  0 ≤ k < 2 ^ 53 → F2R (float_of_int k) = IZR k.
Proof.
  intros [Hk0 Hk]. unfold float_of_int, nearest.
  destruct (Z.eqb_spec k 0) as [-> | N]; [unfold F2R; cbn; lra |].
  destruct (Z.ltb_spec 0 k); [| lia].
  pose proof (nearest_pos_spec k 1 ltac:(lia) ltac:(lia)) as [[Hl Hh] Hm].
  destruct (nearest_pos k 1) as [m e]. unfold F2R. cbn [fst snd] in *.
  replace (IZR k / 1)%R with (IZR k) in * by field.
  assert (He : 0 ≤ - e).
  { destruct (Z.le_gt_cases 0 (- e)) as [| Hneg]; [done |]. exfalso.
    pose proof (pow2_le (- e) (- (1)) ltac:(lia)) as Hp.
    change (powerRZ 2 (- (1))) with (/ (2 * 1))%R in Hp.
    replace (powerRZ 2 52) with (IZR (2 ^ 52)) in Hl
      by (by apply pow2_IZR).
    assert (IZR k < IZR (2 ^ 53))%R by (by apply IZR_lt).
    assert (0 < IZR k)%R by (apply IZR_lt; lia).
    pose proof (pow2_pos (- e)).
    change (2 ^ 53) with (2 * 2 ^ 52) in *. rewrite mult_IZR in *.
    assert (0 < IZR (2 ^ 52))%R by (apply IZR_lt; lia).
    nra. }
  rewrite <- pow2_IZR, <- mult_IZR, round_IZR in Hm by exact He.
  rewrite Hm, mult_IZR, pow2_IZR by exact He.
  rewrite pow2_opp. pose proof (pow2_pos e). field. lra.
Qed.

(** A product of two doubles is the double nearest to the exact product. *)
Lemma fmul_ratio (x y : double) :
  ∃ N D, fmul x y = nearest N D ∧ 0 < D
         ∧ (IZR N / IZR D = F2R x * F2R y)%R.
Proof.
  unfold fmul, F2R. destruct x as [m1 e1], y as [m2 e2]. cbn [fst snd].
  destruct (Z.leb_spec 0 (e1 + e2)) as [He | He].
  - exists (m1 * m2 * 2 ^ (e1 + e2)), 1. split; [done |]. split; [lia |].
    rewrite !mult_IZR, pow2_IZR, pow2_add by exact He. field.
  - exists (m1 * m2), (2 ^ (- (e1 + e2))). split; [done |].
    split; [apply Z.pow_pos_nonneg; lia |].
    rewrite mult_IZR, pow2_IZR by lia.
    rewrite pow2_opp, pow2_add.
    pose proof (pow2_pos e1). pose proof (pow2_pos e2). field. lra.
Qed.

Lemma fmul_mono (x1 x2 y : double) :
  (0 <= F2R x1 <= F2R x2)%R → (0 <= F2R y)%R →
  (F2R (fmul x1 y) <= F2R (fmul x2 y))%R.
Proof.
  intros [Hx1 H12] Hy.
  destruct (fmul_ratio x1 y) as (N1 & D1 & -> & HD1 & E1).
  destruct (fmul_ratio x2 y) as (N2 & D2 & -> & HD2 & E2).
  apply nearest_mono; [| done | done |].
  - assert (HD1R : (0 < IZR D1)%R) by (by apply IZR_lt).
    apply le_IZR. apply (Rmult_le_reg_r (/ IZR D1)).
    + by apply Rinv_0_lt_compat.
    + rewrite Rmult_0_l. fold (IZR N1 / IZR D1)%R. rewrite E1.
      by apply Rmult_le_pos.
  - rewrite E1, E2. by apply Rmult_le_compat_r.
Qed.

(** [round] of a double is [round] of the number it stands for. *)
Lemma round_double_spec (x : double) : round_double x = Py.round (F2R x).
Proof.
  unfold round_double, F2R. destruct x as [m e]. cbn [fst snd].
  destruct (Z.leb_spec 0 e) as [He | He].
  - by rewrite <- pow2_IZR, <- mult_IZR, round_IZR.
  - rewrite <- round_div_correct by (apply Z.pow_pos_nonneg; lia).
    rewrite pow2_IZR by lia. rewrite pow2_opp. f_equal.
    pose proof (pow2_pos e). field. lra.
Qed.

(** [round((a / b) * c)] is monotone in the quotient [a / b]. *)
Lemma round_ratio_times_mono (a1 b1 a2 b2 c : Z) :
  0 ≤ a1 → 0 < b1 → 0 < b2 → a1 * b2 ≤ a2 * b1 → 0 ≤ c →
  round_ratio_times a1 b1 c ≤ round_ratio_times a2 b2 c.
Proof.
  intros Ha1 Hb1 Hb2 Hle Hc. unfold round_ratio_times, true_div.
  destruct (Z.ltb_spec 0 b1); [| lia]. destruct (Z.ltb_spec 0 b2); [| lia].
  rewrite !round_double_spec. apply round_mono.
  assert (Hb1R : (0 < IZR b1)%R) by (by apply IZR_lt).
  assert (Hb2R : (0 < IZR b2)%R) by (by apply IZR_lt).
  assert (Hz : F2R (nearest 0 1) = 0%R) by (unfold F2R; cbn; lra).
  apply fmul_mono.
  - split.
    + rewrite <- Hz. apply nearest_mono; [lia | lia | done |].
      apply IZR_le in Ha1. unfold Rdiv. rewrite Rmult_0_l.
      apply Rmult_le_pos; [done | left; by apply Rinv_0_lt_compat].
    + apply nearest_mono; [done | done | done |].
      apply IZR_le in Hle. rewrite !mult_IZR in Hle.
      apply (Rmult_le_reg_r (IZR b1 * IZR b2)); [nra |].
      replace (IZR a1 / IZR b1 * (IZR b1 * IZR b2))%R
        with (IZR a1 * IZR b2)%R by (field; lra).
      replace (IZR a2 / IZR b2 * (IZR b1 * IZR b2))%R
        with (IZR a2 * IZR b1)%R by (field; lra).
      exact Hle.
  - rewrite <- Hz. unfold float_of_int.
    apply nearest_mono; [lia | lia | lia |].
    apply IZR_le in Hc. unfold Rdiv. rewrite Rmult_0_l, Rinv_1. lra.
Qed.

Lemma round_ratio_times_zero (b c : Z) : round_ratio_times 0 b c = 0.
Proof.
  unfold round_ratio_times.
  assert (E : true_div 0 b = (0, 0))
    by (unfold true_div; destruct (0 <? b); reflexivity).
  rewrite E. unfold fmul. cbn [fst snd]. rewrite Z.mul_0_l, Z.add_0_l.
  destruct (0 <=? (float_of_int c).2); reflexivity.
Qed.

Lemma round_ratio_times_one (c : Z) :
  0 ≤ c < 2 ^ 53 → round_ratio_times 1 1 c = c.
Proof.
  intros Hc. unfold round_ratio_times.
  rewrite round_double_spec.
  rewrite <- (round_IZR c) at 2. f_equal.
  assert (E1 : F2R (true_div 1 1) = 1%R).
  { change (true_div 1 1) with (float_of_int 1).
    apply (float_of_int_exact 1). lia. }
  pose proof (float_of_int_exact c Hc) as Ec.
  destruct (fmul_ratio (true_div 1 1) (float_of_int c))
    as (N & D & -> & HD & E).
  rewrite E1, Ec, Rmult_1_l in E.
  assert (HDR : (0 < IZR D)%R) by (by apply IZR_lt).
  assert (HN : 0 ≤ N).
  { apply le_IZR. apply (Rmult_le_reg_r (/ IZR D)).
    - by apply Rinv_0_lt_compat.
    - rewrite Rmult_0_l. fold (IZR N / IZR D)%R. rewrite E.
      apply IZR_le. lia. }
  rewrite <- Ec. unfold float_of_int. apply Rle_antisym.
  - apply nearest_mono; [done | done | lia |]. rewrite E. lra.
  - apply nearest_mono; [lia | lia | done |]. rewrite E. lra.
Qed.

(** A fraction of a count below [2^53] is a count between 0 and it. *)
Lemma round_ratio_times_bounds (a b c : Z) :
  0 ≤ a ≤ b → 0 < b → 0 ≤ c < 2 ^ 53 →
  0 ≤ round_ratio_times a b c ≤ c.
Proof.
  intros Ha Hb Hc. split.
  - rewrite <- (round_ratio_times_zero 1 c).
    apply round_ratio_times_mono; lia.
  - rewrite <- (round_ratio_times_one c Hc) at 2.
    apply round_ratio_times_mono; lia.
Qed.

(** At most one in 200 rounds to no percent at all. *)
Lemma round_ratio_times_rare (w p : Z) :
  0 ≤ w → 200 * w ≤ p → 0 < p → round_ratio_times w p 100 = 0.
Proof.
  intros Hw Hp Hp0.
  assert (H1 : round_ratio_times w p 100 ≤ round_ratio_times 1 200 100)
    by (apply round_ratio_times_mono; lia).
  assert (H2 : round_ratio_times 0 1 100 ≤ round_ratio_times w p 100)
    by (apply round_ratio_times_mono; lia).
  rewrite round_ratio_times_zero in H2.
  change (round_ratio_times 1 200 100) with 0 in H1. lia.
Qed.

(** Where the rounding of the doubles shows: 70 percent of 45 games are
    31.499999999999996 games, hence 31 wins, and 23 wins in 40 games are
    57.49999999999999 percent, hence 57. *)
Lemma round_ratio_times_examples :
  round_ratio_times 70 100 45 = 31
  ∧ round_ratio_times 23 40 100 = 57
  ∧ round_div (70 * 45) 100 = 32
  ∧ round_div (23 * 100) 40 = 58.
Proof. by vm_compute. Qed.

(** ** The rating update *)

Lemma clamp_rating_bounds (n : Z) :
  RATING_MIN ≤ clamp_rating n ≤ RATING_MAX.
Proof. unfold clamp_rating, RATING_MIN, RATING_MAX. lia. Qed.


Lemma min_zero_nonpos (a : R) : (Py.min a 0 <= 0)%R.
Proof.
  unfold Py.min. destruct (ltb_spec 0 a) as [H | H]; lra.
Qed.

Lemma min_zero_neg (a : R) : (a < 0)%R → Py.min a 0 = a.
Proof.
  intros Ha. unfold Py.min. destruct (ltb_spec 0 a) as [H | H]; [lra | reflexivity].
Qed.


(** With equal ratings the expected score is one half. *)
Lemma expected_score_even (rating : Z) :
  expected_score rating (IZR rating) = (1 / 2)%R.
Proof.
  unfold expected_score.
  replace ((IZR rating - IZR rating) / 400)%R with 0%R by lra.
  rewrite Rpower_O by lra. lra.
Qed.

(** An opponent rated 400 below is expected to lose ten times in eleven. *)
Lemma expected_score_400_above (rating : Z) :
  expected_score rating (IZR rating - 400) = (10 / 11)%R.
Proof.
  unfold expected_score.
  replace ((IZR rating - 400 - IZR rating) / 400)%R with (- (1))%R by lra.
  rewrite Rpower_Ropp, Rpower_1 by lra. lra.
Qed.

(** C1. For every current rating, score, opponent reference rating and
    multiplier, the rating update returns, and the new rating lies between
    RATING_MIN (100) and RATING_MAX (2999). *)
Theorem update_rating_bounds (curr_rating score : Z)
    (opposition_rating multiplier : R) :
  ∃ new_rating change,
    update_rating curr_rating score (Some opposition_rating) multiplier
      = Ok (new_rating, change)
    ∧ RATING_MIN ≤ new_rating ≤ RATING_MAX
    ∧ RATING_MIN = 100 ∧ RATING_MAX = 2999.
Proof.
  unfold update_rating, adjust_opponent_rating.
  destruct (Py.ltb _ 0 && (curr_rating <=? RATING_MIN)).
  - exists RATING_MIN, 0%R. split; [reflexivity |].
    unfold RATING_MIN, RATING_MAX. lia.
  - eexists _, _. split; [reflexivity |].
    split; [apply clamp_rating_bounds | split; reflexivity].
Qed.

Lemma adjusted_change_even_floor :
  adjusted_change 100 1 100 1 = 50%R.
Proof.
  unfold adjusted_change. simpl. rewrite (expected_score_even 100).
  unfold raw_change, K_FACTOR, protection_adjustment. simpl. lra.
Qed.

Lemma update_rating_even_floor :
  update_rating 100 1 (Some 100%R) 1 = Ok (150, 50%R).
Proof.
  unfold update_rating, adjust_opponent_rating.
  rewrite adjusted_change_even_floor.
  destruct (ltb_spec 50 0) as [H | _]; [lra |]. simpl.
  replace (100 + 50)%R with (IZR 150) by lra.
  rewrite round_IZR. reflexivity.
Qed.

(** C2, as the code has it. With multiplier 1.0 (the multiplier of "win"),
    K 32, current rating 100, opponent reference rating 100 and outcome
    win, the expected score is 0.5, the raw delta is 16, the protection
    adjustment is +34 (the band up to 150), the total delta is 50 and the
    new rating is 150. *)
Theorem update_rating_example :
  WIN_TYPE_MULTIPLIERS !! "win" = Some 1%R
  ∧ K_FACTOR = 32
  ∧ expected_score 100 100 = 0.5%R
  ∧ raw_change 1 1 (expected_score 100 100) = 16%R
  ∧ protection_adjustment 100 = 34
  ∧ adjusted_change 100 1 100 1 = 50%R
  ∧ update_rating 100 1 (Some 100%R) 1 = Ok (150, 50%R).
Proof.
  assert (He : expected_score 100 100 = (1 / 2)%R)
    by apply (expected_score_even 100).
  split; [reflexivity |]. split; [reflexivity |].
  split; [rewrite He; lra |].
  split; [rewrite He; unfold raw_change, K_FACTOR; lra |].
  split; [reflexivity |].
  split; [exact adjusted_change_even_floor | exact update_rating_even_floor].
Qed.

(** C2, as stated, fails on the code: at current rating 100 the protection
    adjustment is not +21, and the update does not return rating 137 with
    delta 37. *)
Lemma update_rating_example_refuted :
  protection_adjustment 100 ≠ 21
  ∧ update_rating 100 1 (Some 100%R) 1 ≠ Ok (137, 37%R).
Proof.
  split; [discriminate |].
  rewrite update_rating_even_floor. intros H. inversion H.
Qed.



(** C5. If the current rating equals RATING_MIN and the protection-adjusted
    delta (raw delta plus the band's adjustment, for a win or a loss) is
    negative, the rating update returns exactly (RATING_MIN, 0). *)
Theorem floor_rule (score : Z) (opposition_rating multiplier : R) :
  score = 0 ∨ score = 1 →
  (raw_change multiplier score (expected_score RATING_MIN opposition_rating)
   + IZR (protection_adjustment RATING_MIN) < 0)%R →
  update_rating RATING_MIN score (Some opposition_rating) multiplier
    = Ok (RATING_MIN, 0%R).
Proof.
  intros Hscore Hneg.
  assert (Hadj : (adjusted_change RATING_MIN score opposition_rating
                    multiplier < 0)%R).
  { unfold adjusted_change.
    destruct Hscore as [-> | ->]; simpl.
    - rewrite min_zero_neg; exact Hneg.
    - exact Hneg. }
  unfold update_rating, adjust_opponent_rating.
  destruct (ltb_spec (adjusted_change RATING_MIN score opposition_rating
                        multiplier) 0) as [_ | H]; [| contradiction].
  reflexivity.
Qed.

Lemma floor_rule_witness :
  update_rating RATING_MIN 0 (Some (-300)%R) 1.5 = Ok (RATING_MIN, 0%R).
Proof.
  apply (floor_rule 0 (-300) 1.5); [left; reflexivity |].
  replace (-300)%R with (IZR RATING_MIN - 400)%R
    by (unfold RATING_MIN; lra).
  rewrite expected_score_400_above.
  unfold raw_change, K_FACTOR, protection_adjustment, RATING_MIN. simpl. lra.
Defined.

(** ** Ranks *)

Lemma computed_rank_cases (score : Z) :
  get_computed_rank score ∈
    ["ultra"; "grand-master"; "super-master"; "master"; "diamond"; "emerald";
     "jade"; "plat"; "gold"; "silver"; "copper"; "bronze"; "steel"; "iron"].
Proof.
  unfold get_computed_rank, RANK_THRESHOLDS, first_rank.
  repeat match goal with
         | |- context [if ?b then _ else _] => destruct b
         end;
    set_solver.
Qed.

(** Every computed rank is a key of [RANK_ORDER], so [RANK_ORDER[new_val]]
    in [update_player_ranks] never raises, and the total lookup returns what
    the dictionary holds. *)
Lemma computed_rank_in_order (score : Z) :
  RANK_ORDER !! get_computed_rank score
    = Some (RANK_ORDER !!! get_computed_rank score).
Proof.
  pose proof (computed_rank_cases score) as H.
  repeat (apply elem_of_cons in H as [-> | H]; [reflexivity |]).
  by apply elem_of_nil in H.
Qed.

Lemma updated_rank_sentinel (current new_val : string) :
  is_sentinel current = true → updated_rank current new_val = current.
Proof. intros H. unfold updated_rank. by rewrite H. Qed.

Lemma updated_rank_monotone (current : string) (score : Z) :
  rank_order_get current 1
    ≤ rank_order_get (updated_rank current (get_computed_rank score)) 1.
Proof.
  unfold updated_rank.
  destruct (is_sentinel current); [lia |].
  destruct (Z.ltb_spec (rank_order_get current 1)
                       (RANK_ORDER !!! get_computed_rank score)) as [Hlt | Hge];
    [| lia].
  unfold rank_order_get at 2. rewrite computed_rank_in_order. simpl. lia.
Qed.

(** C3. For every player record and each of the three rank categories, any
    sequence of rank recomputations (whatever the ratings become in
    between) never decreases the tier in tier order, and a tier that is one
    of the two sentinels is left unchanged. *)
Theorem ranks_never_regress (ratings : list (Z * Z * Z)) (rec : PlayerRecord) :
  let rec' := recompute_seq ratings rec in
  (rank_order_get (rank_o rec) 1 ≤ rank_order_get (rank_o rec') 1
   ∧ rank_order_get (rank_d rec) 1 ≤ rank_order_get (rank_d rec') 1
   ∧ rank_order_get (rank_a rec) 1 ≤ rank_order_get (rank_a rec') 1)
  ∧ (is_sentinel (rank_o rec) = true → rank_o rec' = rank_o rec)
  ∧ (is_sentinel (rank_d rec) = true → rank_d rec' = rank_d rec)
  ∧ (is_sentinel (rank_a rec) = true → rank_a rec' = rank_a rec).
Proof.
  revert rec. induction ratings as [| [[o d] a] rest IH]; intros rec.
  - simpl. repeat split; (lia || reflexivity).
  - simpl.
    set (rec1 := recompute_ranks (set_avg a (set_defense d (set_offense o rec)))).
    destruct (IH rec1) as ((Ho & Hd & Ha) & So & Sd & Sa).
    assert (Eo : rank_o rec1 = updated_rank (rank_o rec) (get_computed_rank o))
      by reflexivity.
    assert (Ed : rank_d rec1 = updated_rank (rank_d rec) (get_computed_rank d))
      by reflexivity.
    assert (Ea : rank_a rec1 = updated_rank (rank_a rec) (get_computed_rank a))
      by reflexivity.
    pose proof (updated_rank_monotone (rank_o rec) o) as Mo.
    pose proof (updated_rank_monotone (rank_d rec) d) as Md.
    pose proof (updated_rank_monotone (rank_a rec) a) as Ma.
    rewrite <- Eo in Mo. rewrite <- Ed in Md. rewrite <- Ea in Ma.
    split; [repeat split; lia |].
    split; [| split]; intros Hs.
    + pose proof (updated_rank_sentinel _ (get_computed_rank o) Hs) as E.
      rewrite <- Eo in E. rewrite So; [exact E | by rewrite E].
    + pose proof (updated_rank_sentinel _ (get_computed_rank d) Hs) as E.
      rewrite <- Ed in E. rewrite Sd; [exact E | by rewrite E].
    + pose proof (updated_rank_sentinel _ (get_computed_rank a) Hs) as E.
      rewrite <- Ea in E. rewrite Sa; [exact E | by rewrite E].
Qed.

Lemma ranks_never_regress_witness :
  rank_o (recompute_seq [(2999, 180, 1590); (100, 100, 100)]
            (mkPlayer "Li Zhong" 100 100 0 0 100 "gold" HIDDEN_RANK "junk"))
    = HIDDEN_RANK
  ∧ rank_order_get "gold" 1
      ≤ rank_order_get
          (rank_d (recompute_seq [(2999, 180, 1590); (100, 100, 100)]
             (mkPlayer "Li Zhong" 100 100 0 0 100 "gold" HIDDEN_RANK "junk"))) 1.
Proof.
  destruct (ranks_never_regress [(2999, 180, 1590); (100, 100, 100)]
              (mkPlayer "Li Zhong" 100 100 0 0 100 "gold" HIDDEN_RANK "junk"))
    as ((_ & Hd & _) & So & _ & _).
  split; [apply So; reflexivity | exact Hd].
Defined.

(** ** Running commands *)

Lemma bind_run {A B} (m : M A) (f : A → M B) (w : world) :
  (m ≫= f) w =
  match m w with
  | (Ok a, w') => f a w'
  | (Raise e, w') => (Raise e, w')
  end.
Proof. reflexivity. Qed.

Lemma bind_ok {A B} (m : M A) (f : A → M B) (w w' : world) (a : A) :
  m w = (Ok a, w') → (m ≫= f) w = f a w'.
Proof. intros H. rewrite bind_run, H. reflexivity. Qed.

Lemma bind_raise {A B} (m : M A) (f : A → M B) (w w' : world) (e : exn) :
  m w = (Raise e, w') → (m ≫= f) w = (Raise e, w').
Proof. intros H. rewrite bind_run, H. reflexivity. Qed.

Lemma lookup_player_run (key : string) (r : PlayerRecord) (w : world) :
  players w !! key = Some r → lookup_player key w = (Ok r, w).
Proof.
  intros H. unfold lookup_player. rewrite bind_run. simpl. rewrite H.
  reflexivity.
Qed.

Lemma lookup_player_missing (key : string) (w : world) :
  players w !! key = None → lookup_player key w = (Raise KeyError, w).
Proof.
  intros H. unfold lookup_player. rewrite bind_run. simpl. rewrite H.
  reflexivity.
Qed.

Lemma modify_player_run (key : string) (f : PlayerRecord → PlayerRecord)
    (r : PlayerRecord) (w : world) :
  players w !! key = Some r →
  modify_player key f w
    = (Ok (), World (<[key := f r]> (players w)) (stdout w)).
Proof.
  intros H. unfold modify_player.
  rewrite (bind_ok _ _ _ _ _ (lookup_player_run key r w H)).
  reflexivity.
Qed.

Lemma modify_player_missing (key : string) (f : PlayerRecord → PlayerRecord)
    (w : world) :
  players w !! key = None → modify_player key f w = (Raise KeyError, w).
Proof.
  intros H. unfold modify_player.
  rewrite (bind_raise _ _ _ _ _ (lookup_player_missing key w H)).
  reflexivity.
Qed.

Lemma delete_player_run (key : string) (r : PlayerRecord) (w : world) :
  players w !! key = Some r →
  delete_player key w = (Ok (), World (delete key (players w)) (stdout w)).
Proof.
  intros H. unfold delete_player.
  rewrite (bind_ok _ _ _ _ _ (lookup_player_run key r w H)).
  reflexivity.
Qed.

Lemma merge_record_run (key new_display : string) (off deff played' wins' : Z)
    (rd ro ra : option string) (old : PlayerRecord) (w : world) :
  players w !! key = Some old →
  merge_record key new_display off deff played' wins' rd ro ra w
    = (Ok (),
       World (<[key := merged_record old off deff played' wins' rd ro ra]>
                (players w))
             (stdout w)).
Proof.
  intros H. unfold merge_record.
  rewrite (bind_ok _ _ _ _ _ (lookup_player_run key old w H)).
  reflexivity.
Qed.

Lemma merge_record_missing (key new_display : string)
    (off deff played' wins' : Z) (rd ro ra : option string) (w : world) :
  players w !! key = None →
  merge_record key new_display off deff played' wins' rd ro ra w
    = (Raise KeyError, w).
Proof.
  intros H. unfold merge_record.
  rewrite (bind_raise _ _ _ _ _ (lookup_player_missing key w H)).
  reflexivity.
Qed.

(** [get_or_create_player] always returns, with the key present. *)
Lemma get_or_create_player_run (name : string) (w : world) :
  get_or_create_player name w =
  (Ok (canonicalize name),
   match players w !! canonicalize name with
   | Some _ => w
   | None =>
       World (<[canonicalize name := new_player name (canonicalize name)]>
                (players w))
             (stdout w)
   end).
Proof.
  unfold get_or_create_player. rewrite bind_run. simpl.
  destruct (players w !! canonicalize name); reflexivity.
Qed.

Lemma get_or_create_player_present (name : string) (w : world) :
  is_Some (players (get_or_create_player name w).2 !! canonicalize name).
Proof.
  rewrite get_or_create_player_run. simpl.
  destruct (players w !! canonicalize name) eqn:E.
  - rewrite E. eauto.
  - simpl. rewrite lookup_insert_eq. eauto.
Qed.

(** ** Merging *)

Lemma merged_record_counters (old : PlayerRecord) (off deff played' wins' : Z)
    (rd ro ra : option string) :
  played (merged_record old off deff played' wins' rd ro ra)
    = played old + played'
  ∧ wins (merged_record old off deff played' wins' rd ro ra)
    = wins old + wins'.
Proof.
  unfold merged_record.
  destruct (0 <? played old + played'); split; reflexivity.
Qed.

Lemma merged_record_ratings (old : PlayerRecord) (off deff played' wins' : Z)
    (rd ro ra : option string) :
  let total := played old + played' in
  let new := merged_record old off deff played' wins' rd ro ra in
  (0 < total →
     offense new
       = round_div (offense old * played old + off * played') total
     ∧ defense new
       = round_div (defense old * played old + deff * played') total)
  ∧ (total ≤ 0 → offense new = off ∧ defense new = deff).
Proof.
  simpl. unfold merged_record.
  destruct (Z.ltb_spec 0 (played old + played')); split; intros; simpl;
    (lia || (split; reflexivity)).
Qed.

(** C6. Merging a source (ratings, games, wins) into the destination record
    stored under a key replaces it by a record whose games played and wins
    are the sums of both sides; whose offense and defense, when the
    combined games count is positive, are [round] of the games-weighted
    average, an integer nearest to it; and, when the combined games count
    is 0, are the source's ratings unchanged.  A snapshot with a line of
    10 games rated 200/200 and a second line for the same key with 5 games
    rated 300/300 loads as 15 games with offense 233. *)
Theorem merge_record_weighted (key new_display : string)
    (off deff played' wins' : Z) (rd ro ra : option string)
    (old : PlayerRecord) (w : world) :
  players w !! key = Some old →
  let total := played old + played' in
  ∃ new,
    merge_record key new_display off deff played' wins' rd ro ra w
      = (Ok (), World (<[key := new]> (players w)) (stdout w))
    ∧ played new = total
    ∧ wins new = wins old + wins'
    ∧ (0 < total →
         offense new
           = Py.round (IZR (offense old * played old + off * played')
                       / IZR total)
         ∧ defense new
           = Py.round (IZR (defense old * played old + deff * played')
                       / IZR total)
         ∧ nearest_integer (offense new)
             (offense old * played old + off * played') total
         ∧ nearest_integer (defense new)
             (defense old * played old + deff * played') total)
    ∧ (total = 0 → offense new = off ∧ defense new = deff)
    ∧ (load_data
         [ "John Smith, 200, 200, 10, 50."; "johnsmith, 300, 300, 5, 0." ]
         (World ∅ [])).2
      = World {[ "johnsmith" :=
                   mkPlayer "John Smith" 233 233 15 5 233
                            "copper" "copper" "copper" ]} []
    ∧ round_div (200 * 10 + 300 * 5) 15 = 233.
Proof.
  intros Hold total.
  exists (merged_record old off deff played' wins' rd ro ra).
  split; [by apply merge_record_run |].
  destruct (merged_record_counters old off deff played' wins' rd ro ra)
    as [Hp Hw].
  destruct (merged_record_ratings old off deff played' wins' rd ro ra)
    as [Hpos Hzero].
  split; [exact Hp |]. split; [exact Hw |].
  split; [| split; [| split]].
  - intros Ht. destruct (Hpos Ht) as [Ho Hd].
    rewrite !round_div_correct by exact Ht.
    split; [exact Ho |]. split; [exact Hd |].
    split; [rewrite Ho | rewrite Hd]; apply round_div_nearest; exact Ht.
  - intros Ht. apply Hzero. fold total. lia.
  - vm_compute. reflexivity.
  - reflexivity.
Qed.

Lemma merge_record_weighted_witness :
  ∃ new,
    merge_record "johnsmith" "johnsmith" 300 300 5 0 None None None
      (World {[ "johnsmith" :=
                  mkPlayer "John Smith" 200 200 10 5 200
                           "copper" "copper" "copper" ]} [])
      = (Ok (),
         World (<[ "johnsmith" := new ]>
                  {[ "johnsmith" :=
                       mkPlayer "John Smith" 200 200 10 5 200
                                "copper" "copper" "copper" ]}) [])
    ∧ played new = 10 + 5
    ∧ wins new = 5 + 0.
Proof.
  destruct (merge_record_weighted "johnsmith" "johnsmith" 300 300 5 0
              None None None
              (mkPlayer "John Smith" 200 200 10 5 200
                        "copper" "copper" "copper")
              (World {[ "johnsmith" :=
                          mkPlayer "John Smith" 200 200 10 5 200
                                   "copper" "copper" "copper" ]} []))
    as (new & Hrun & Hp & Hw & _).
  - reflexivity.
  - exists new. split; [exact Hrun |]. split; [exact Hp | exact Hw].
Defined.

(** ** The match pattern *)

Lemma lazy_star_some {A} (cls : ascii → bool)
    (k : string → string → option A) (acc s : string) (r : A) :
  lazy_star cls k acc s = Some r → ∃ g s', k g s' = Some r.
Proof.
  revert acc. induction s as [| c s IH]; intros acc; simpl.
  - destruct (k (String.rev acc) "") eqn:E; [| discriminate].
    intros [= ->]. eauto.
  - destruct (k (String.rev acc) (String c s)) eqn:E.
    + intros [= ->]. eauto.
    + destruct (cls c); [apply IH | discriminate].
Qed.

Lemma greedy_star_some {A} (cls : ascii → bool) (k : string → option A)
    (s : string) (r : A) :
  greedy_star cls k s = Some r → ∃ s', k s' = Some r.
Proof.
  induction s as [| c s IH]; simpl; [eauto |].
  destruct (cls c); [| eauto].
  destruct (greedy_star cls k s) eqn:E; [| eauto].
  intros [= ->]. by apply IH.
Qed.

Lemma literal_lower (p s m rest : string) :
  literal p s = Some (m, rest) → lower m = lower p.
Proof.
  revert s m rest. induction p as [| a p IH]; intros s m rest; simpl.
  - by intros [= <- _].
  - destruct s as [| b s]; [discriminate |].
    destruct (ascii_eqb (lower_char a) (lower_char b)) eqn:E; [| discriminate].
    destruct (literal p s) as [[m' rest'] |] eqn:El; [| discriminate].
    intros [= <- _]. simpl. apply Ascii.eqb_eq in E.
    by rewrite (IH _ _ _ El), E.
Qed.

Lemma alt_some {A} (ps : list string) (k : string → string → option A)
    (s : string) (r : A) :
  alt ps k s = Some r →
  ∃ p m s', p ∈ ps ∧ lower m = lower p ∧ k m s' = Some r.
Proof.
  induction ps as [| p ps IH]; simpl; [discriminate |].
  unfold lit at 1.
  destruct (literal p s) as [[m rest] |] eqn:El.
  - destruct (k m rest) eqn:Ek.
    + intros [= ->]. exists p, m, rest.
      split; [left |]. split; [by eapply literal_lower | exact Ek].
    + intros H. destruct (IH H) as (p' & m' & s' & Hin & Hl & Hk).
      exists p', m', s'. split; [by right | by split].
  - intros H. destruct (IH H) as (p' & m' & s' & Hin & Hl & Hk).
    exists p', m', s'. split; [by right | by split].
Qed.

(** The win-type group of a matching command is, up to case, one of the
    five alternatives of the pattern. *)
Lemma match_game_win_type (command team1_str win_type team2_str : string) :
  match_game command = Some (team1_str, win_type, team2_str) →
  lower win_type ∈ WIN_TYPES.
Proof.
  unfold match_game. intros H.
  apply lazy_star_some in H as (g1 & s1 & H).
  apply greedy_star_some in H as (s2 & H).
  apply alt_some in H as (p & m & s3 & Hin & Hl & H).
  apply greedy_star_some in H as (s4 & H).
  apply lazy_star_some in H as (g3 & s5 & H).
  destruct (at_end s5); [| discriminate].
  injection H as _ <- _. rewrite Hl.
  unfold WIN_TYPES in *.
  repeat (apply elem_of_cons in Hin as [-> | Hin]; [set_solver |]).
  by apply elem_of_nil in Hin.
Qed.

(** ** Rejected match commands *)


Lemma win_type_known (win_type : string) :
  win_type ∈ WIN_TYPES → is_Some (WIN_TYPE_MULTIPLIERS !! win_type).
Proof.
  intros H. unfold WIN_TYPES in H.
  repeat (apply elem_of_cons in H as [-> | H]; [by eexists |]).
  by apply elem_of_nil in H.
Qed.

(** ** Consolidation *)

(** C9. If the source and destination names of a consolidation command
    canonicalize to the same key and that key is in the registry, the
    record is merged with itself, which doubles its games played and its
    wins, and then the key is deleted: the command returns with the player
    gone from the registry. *)
Theorem combine_with_itself_removes (command g1 g2 key : string)
    (rec : PlayerRecord) (w : world) :
  match_combine command = Some (g1, g2) →
  canonicalize (strip g1) = key →
  canonicalize (strip g2) = key →
  players w !! key = Some rec →
  ∃ merged line,
    merge_record key (display rec) (offense rec) (defense rec) (played rec)
                 (wins rec) None None None w
      = (Ok (), World (<[key := merged]> (players w)) (stdout w))
    ∧ played merged = 2 * played rec
    ∧ wins merged = 2 * wins rec
    ∧ process_combine_command command w
      = (Ok (), World (delete key (players w)) (stdout w ++ [Print line]))
    ∧ delete key (players w) !! key = None.
Proof.
  intros Hm H1 H2 Hrec.
  set (merged := merged_record rec (offense rec) (defense rec) (played rec)
                               (wins rec) None None None).
  exists merged. eexists.
  pose proof (merge_record_run key (display rec) (offense rec) (defense rec)
                (played rec) (wins rec) None None None rec w Hrec) as Hrun.
  fold merged in Hrun.
  destruct (merged_record_counters rec (offense rec) (defense rec)
              (played rec) (wins rec) None None None) as [Hp Hw].
  fold merged in Hp, Hw.
  split; [exact Hrun |].
  split; [lia |]. split; [lia |].
  split; [| apply lookup_delete_eq].
  unfold process_combine_command. rewrite Hm, H1, H2.
  rewrite bind_run. simpl. rewrite Hrec.
  rewrite (bind_ok _ _ _ _ _ Hrun).
  erewrite bind_ok;
    [| apply (delete_player_run key merged); simpl; apply lookup_insert_eq].
  simpl. rewrite delete_insert_eq. reflexivity.
Qed.

Lemma combine_with_itself_removes_witness :
  ∃ line,
    process_combine_command "combine Bob to bob."
      (World {[ "bob" := mkPlayer "Bob" 120 140 7 3 130 "iron" "iron" "iron" ]}
             [])
    = (Ok (), World (delete "bob" {[ "bob" :=
                 mkPlayer "Bob" 120 140 7 3 130 "iron" "iron" "iron" ]})
                    [Print line]).
Proof.
  destruct (combine_with_itself_removes "combine Bob to bob." "Bob" "bob" "bob"
              (mkPlayer "Bob" 120 140 7 3 130 "iron" "iron" "iron")
              (World {[ "bob" :=
                 mkPlayer "Bob" 120 140 7 3 130 "iron" "iron" "iron" ]} []))
    as (merged & line & _ & _ & _ & Hrun & _).
  - vm_compute. reflexivity.
  - vm_compute. reflexivity.
  - vm_compute. reflexivity.
  - reflexivity.
  - exists line. exact Hrun.
Defined.

(** ** Empty rosters *)

Lemma returns_ret {A} (a : A) : returns (mret a).
Proof. intros w. by exists a, w. Qed.

Lemma returns_bind {A B} (m : M A) (f : A → M B) :
  returns m → (∀ a, returns (f a)) → returns (m ≫= f).
Proof.
  intros Hm Hf w. destruct (Hm w) as (a & w1 & E).
  rewrite (bind_ok _ _ _ _ _ E). apply Hf.
Qed.

Lemma returns_print (e : event) : returns (print e).
Proof. intros w. eexists _, _. reflexivity. Qed.

Lemma returns_for_each {A} (xs : list A) (body : A → M unit) :
  (∀ x, returns (body x)) → returns (for_each xs body).
Proof.
  intros Hb. induction xs as [| x rest IH]; simpl.
  - apply returns_ret.
  - apply returns_bind; [apply Hb | intros _; exact IH].
Qed.

Lemma returns_map_M {A B} (xs : list A) (body : A → M B) :
  (∀ x, returns (body x)) → returns (map_M xs body).
Proof.
  intros Hb. induction xs as [| x rest IH]; simpl.
  - apply returns_ret.
  - apply returns_bind; [apply Hb |]. intros y.
    apply returns_bind; [exact IH |]. intros ys. apply returns_ret.
Qed.

Lemma map_M_cons {A B} (x : A) (rest : list A) (body : A → M B) :
  map_M (x :: rest) body
    = (y ← body x; ys ← map_M rest body; mret (y :: ys)).
Proof. reflexivity. Qed.

Lemma for_each_cons {A} (x : A) (rest : list A) (body : A → M unit) :
  for_each (x :: rest) body = (body x;; for_each rest body).
Proof. reflexivity. Qed.

Lemma returns_get_or_create_player (name : string) :
  returns (get_or_create_player name).
Proof. intros w. rewrite get_or_create_player_run. eexists _, _. reflexivity. Qed.

(** Looking a player up by name: the record is created when missing, so
    reading it back never fails. *)
Lemma find_player_run {A} (name : string) (k : string → PlayerRecord → M A)
    (w : world) :
  ∃ r w',
    (key ← get_or_create_player name; player ← lookup_player key; k key player)
      w
    = k (canonicalize name) r w'
    ∧ players w' !! canonicalize name = Some r.
Proof.
  pose proof (get_or_create_player_present name w) as [r Hr].
  destruct (get_or_create_player name w) as [o w'] eqn:E.
  pose proof (get_or_create_player_run name w) as Hrun.
  rewrite E in Hrun. injection Hrun as -> _.
  exists r, w'. simpl in Hr. split; [| exact Hr].
  rewrite (bind_ok _ _ _ _ _ E).
  rewrite (bind_ok _ _ _ _ _ (lookup_player_run _ _ _ Hr)).
  reflexivity.
Qed.

Lemma returns_find_player {A} (name : string)
    (k : string → PlayerRecord → M A) :
  (∀ key r, returns (k key r)) →
  returns (key ← get_or_create_player name;
           player ← lookup_player key; k key player).
Proof.
  intros Hk w. destruct (find_player_run name k w) as (r & w' & -> & _).
  apply Hk.
Qed.

Lemma get_average_rating_returns (names : list string) (ro : role) :
  returns (get_average_rating names ro).
Proof.
  unfold get_average_rating. destruct names as [| n rest].
  - apply returns_ret.
  - apply returns_bind; [| intros; apply returns_ret].
    apply returns_map_M. intros name.
    apply returns_find_player. intros; apply returns_ret.
Qed.

Lemma get_average_rating_nil (ro : role) (w : world) :
  get_average_rating [] ro w = (Ok None, w).
Proof. reflexivity. Qed.

Lemma expected_rates_nil (ro : role) (opp : option R) (w : world) :
  expected_rates [] ro opp w = (Ok [], w).
Proof. reflexivity. Qed.

(** Without an opponent reference rating the first participant's expected
    win rate already raises. *)
Lemma expected_rates_absent (names : list string) (ro : role) (w : world) :
  names ≠ [] →
  ∃ w', expected_rates names ro None w = (Raise TypeError, w').
Proof.
  intros Hne. destruct names as [| name rest]; [done |].
  unfold expected_rates. rewrite map_M_cons, bind_run.
  destruct (find_player_run name
              (λ key player,
                 rate ← lift (calculate_expected_win_rate
                                (role_get ro player) None);
                 print (PrintRate (display player) (role_letter ro) rate);;
                 mret rate) w) as (r & w' & E & _).
  rewrite E. eexists. reflexivity.
Qed.

Lemma create_all_returns (names : list string) :
  returns (for_each names (λ name, get_or_create_player name;; mret ())).
Proof.
  apply returns_for_each. intros name.
  apply returns_bind; [apply returns_get_or_create_player |].
  intros; apply returns_ret.
Qed.

Lemma opponent_reference_returns (first second : list string)
    (ro1 ro2 : role) :
  returns (opponent_reference first ro1 second ro2).
Proof.
  unfold opponent_reference.
  destruct first; apply get_average_rating_returns.
Qed.

Lemma opponent_reference_absent (ro1 ro2 : role) (w : world) :
  opponent_reference [] ro1 [] ro2 w = (Ok None, w).
Proof. reflexivity. Qed.

Ltac run_ok E := erewrite bind_ok by (exact E); cbv beta.
Ltac run_raise E := erewrite bind_raise by (exact E).

(** The part of [process_game] that follows the creation of the players. *)
Lemma rates_raise_without_reference (o1 d1 o2 d2 : list string)
    (k : list R → list R → list R → list R → M unit)
    (opp1 opp2 opp3 opp4 : option R) (w : world) :
  (o1 ++ d1 = [] ∧ o2 ++ d2 ≠ [] ∧ opp3 = None ∧ opp4 = None)
  ∨ (o1 ++ d1 ≠ [] ∧ opp1 = None ∧ opp2 = None) →
  ∃ w',
    (rates1_off ← expected_rates o1 Offense opp1;
     rates1_def ← expected_rates d1 Defense opp2;
     rates2_off ← expected_rates o2 Offense opp3;
     rates2_def ← expected_rates d2 Defense opp4;
     k rates1_off rates1_def rates2_off rates2_def) w
    = (Raise TypeError, w').
Proof.
  intros [(H1 & H2 & -> & ->) | (H1 & -> & ->)].
  - apply app_eq_nil in H1 as [-> ->].
    run_ok (expected_rates_nil Offense opp1 w).
    run_ok (expected_rates_nil Defense opp2 w).
    destruct o2 as [| n2 o2].
    + run_ok (expected_rates_nil Offense None w).
      destruct (expected_rates_absent d2 Defense w) as [w' E]; [exact H2 |].
      run_raise E. by exists w'.
    + destruct (expected_rates_absent (n2 :: o2) Offense w) as [w' E];
        [done |].
      run_raise E. by exists w'.
  - destruct o1 as [| n1 o1].
    + run_ok (expected_rates_nil Offense None w).
      destruct (expected_rates_absent d1 Defense w) as [w' E]; [exact H1 |].
      run_raise E. by exists w'.
    + destruct (expected_rates_absent (n1 :: o1) Offense w) as [w' E];
        [done |].
      run_raise E. by exists w'.
Qed.

(** C10, as the code has it. When exactly one team's roster resolves to no
    players, both opponent reference ratings taken from the empty roster
    are absent, the expected-score and rating-update computations raise on
    an absent reference, and the match command ends in that exception. *)
Theorem one_empty_roster_raises (command team1_str win_type team2_str : string)
    (w : world) :
  match_game command = Some (team1_str, win_type, team2_str) →
  (roster (parse_team team1_str) = [] ∧ roster (parse_team team2_str) ≠ [])
  ∨ (roster (parse_team team1_str) ≠ [] ∧ roster (parse_team team2_str) = []) →
  (∃ w', process_game command w = (Raise TypeError, w'))
  ∧ (∀ ro1 ro2 w0, opponent_reference [] ro1 [] ro2 w0 = (Ok None, w0))
  ∧ (∀ rating, calculate_expected_win_rate rating None = Raise TypeError)
  ∧ (∀ rating score multiplier,
       update_rating rating score None multiplier = Raise TypeError).
Proof.
  intros Hm Hcase.
  destruct (win_type_known _ (match_game_win_type _ _ _ _ Hm))
    as [base_multiplier Hmult].
  split; [| split; [| split]]; [| reflexivity | reflexivity | reflexivity].
  unfold process_game. rewrite Hm. cbv zeta. rewrite Hmult.
  unfold roster in Hcase.
  destruct (parse_team team1_str) as [o1 d1].
  destruct (parse_team team2_str) as [o2 d2].
  simpl in Hcase.
  destruct (create_all_returns (o1 ++ d1 ++ o2 ++ d2) w) as (u & w1 & E1).
  run_ok E1.
  destruct (opponent_reference_returns d2 o2 Defense Offense w1)
    as (opp1 & w2 & E2).
  destruct (opponent_reference_returns o2 d2 Offense Defense w2)
    as (opp2 & w3 & E3).
  destruct (opponent_reference_returns d1 o1 Defense Offense w3)
    as (opp3 & w4 & E4).
  destruct (opponent_reference_returns o1 d1 Offense Defense w4)
    as (opp4 & w5 & E5).
  run_ok E2. run_ok E3. run_ok E4. run_ok E5.
  erewrite bind_ok by reflexivity. cbv beta.
  erewrite bind_ok by reflexivity. cbv beta.
  apply rates_raise_without_reference.
  destruct Hcase as [[H1 H2] | [H1 H2]].
  - left. split; [exact H1 |]. split; [exact H2 |].
    apply app_eq_nil in H1 as [-> ->].
    rewrite opponent_reference_absent in E4.
    injection E4 as <- <-.
    rewrite opponent_reference_absent in E5.
    injection E5 as <- <-. done.
  - right. split; [exact H1 |].
    apply app_eq_nil in H2 as [-> ->].
    rewrite opponent_reference_absent in E2.
    injection E2 as <- <-.
    rewrite opponent_reference_absent in E3.
    injection E3 as <- <-. done.
Qed.

Lemma one_empty_roster_raises_witness :
  ∃ w', process_game "alice win" (World ∅ []) = (Raise TypeError, w').
Proof.
  destruct (one_empty_roster_raises "alice win" "alice" "win" ""
              (World ∅ [])) as [H _].
  - vm_compute. reflexivity.
  - right. split; [vm_compute; discriminate | vm_compute; reflexivity].
  - exact H.
Defined.

(** C10, as stated, fails on the code: the command [win] names no player
    on either side, and match processing returns normally (nothing is
    rated, and the registry stays empty). *)
Lemma both_rosters_empty_returns :
  match_game "win" = Some ("", "win", "")
  ∧ roster (parse_team "") = []
  ∧ ∃ out, process_game "win" (World ∅ []) = (Ok (), World ∅ out).
Proof.
  split; [vm_compute; reflexivity |].
  split; [vm_compute; reflexivity |].
  eexists. unfold process_game.
  replace (match_game "win") with (Some ("", "win", ""))
    by (vm_compute; reflexivity).
  cbv zeta.
  replace (WIN_TYPE_MULTIPLIERS !! lower "win") with (Some 1%R)
    by reflexivity.
  replace (parse_team "") with (@nil string, @nil string)
    by (vm_compute; reflexivity).
  reflexivity.
Qed.

(** ** Games played and wins *)

Lemma registry_ok_insert (key : string) (r : PlayerRecord)
    (ps : gmap string PlayerRecord) :
  registry_ok ps → counters_ok r → registry_ok (<[key := r]> ps).
Proof.
  intros Hps Hr k r' Hk.
  destruct (decide (key = k)) as [-> | Hne].
  - rewrite lookup_insert_eq in Hk. by injection Hk as <-.
  - rewrite lookup_insert_ne in Hk by exact Hne. by eapply Hps.
Qed.

Lemma registry_ok_delete (key : string) (ps : gmap string PlayerRecord) :
  registry_ok ps → registry_ok (delete key ps).
Proof.
  intros Hps k r Hk.
  apply lookup_delete_Some in Hk as [_ Hk]. by eapply Hps.
Qed.

Lemma registry_ok_empty : registry_ok ∅.
Proof. intros k r Hk. by rewrite lookup_empty in Hk. Qed.

Lemma preserves_ret {A} (a : A) : preserves (mret a).
Proof. intros w H. exact H. Qed.

Lemma preserves_lift {A} (o : outcome A) : preserves (lift o).
Proof. intros w H. exact H. Qed.

Lemma preserves_print (e : event) : preserves (print e).
Proof. intros w H. exact H. Qed.

Lemma preserves_bind {A B} (m : M A) (f : A → M B) :
  preserves m → (∀ a, preserves (f a)) → preserves (m ≫= f).
Proof.
  intros Hm Hf w Hw. specialize (Hm w Hw).
  unfold exec in *. rewrite bind_run.
  destruct (m w) as [[a | e] w']; simpl in Hm.
  - by apply Hf.
  - exact Hm.
Qed.

Lemma preserves_for_each {A} (xs : list A) (body : A → M unit) :
  (∀ x, preserves (body x)) → preserves (for_each xs body).
Proof.
  intros Hb. induction xs as [| x rest IH]; simpl.
  - apply preserves_ret.
  - apply preserves_bind; [apply Hb | intros _; exact IH].
Qed.

Lemma preserves_map_M {A B} (xs : list A) (body : A → M B) :
  (∀ x, preserves (body x)) → preserves (map_M xs body).
Proof.
  intros Hb. induction xs as [| x rest IH]; simpl.
  - apply preserves_ret.
  - apply preserves_bind; [apply Hb |]. intros y.
    apply preserves_bind; [exact IH |]. intros ys. apply preserves_ret.
Qed.

Lemma preserves_ext {A} (m m' : M A) :
  (∀ w, m w = m' w) → preserves m' → preserves m.
Proof. intros E H w Hw. unfold exec. rewrite E. by apply H. Qed.

Lemma preserves_lookup_player (key : string) : preserves (lookup_player key).
Proof.
  intros w Hw. unfold exec.
  destruct (players w !! key) as [r |] eqn:E.
  - by rewrite (lookup_player_run key r w E).
  - by rewrite (lookup_player_missing key w E).
Qed.

Lemma preserves_modify_player (key : string)
    (f : PlayerRecord → PlayerRecord) :
  (∀ r, counters_ok r → counters_ok (f r)) → preserves (modify_player key f).
Proof.
  intros Hf w Hw. unfold exec.
  destruct (players w !! key) as [r |] eqn:E.
  - rewrite (modify_player_run key f r w E). simpl.
    apply registry_ok_insert; [exact Hw |]. apply Hf. by eapply Hw.
  - by rewrite (modify_player_missing key f w E).
Qed.

(** Two updates of one record in a row are one update. *)
Lemma modify_player_twice (key : string) (f g : PlayerRecord → PlayerRecord)
    (w : world) :
  (modify_player key f;; modify_player key g) w
    = modify_player key (λ r, g (f r)) w.
Proof.
  destruct (players w !! key) as [r |] eqn:E.
  - rewrite (bind_ok _ _ _ _ _ (modify_player_run key f r w E)).
    rewrite (modify_player_run key (λ r, g (f r)) r w E).
    rewrite (modify_player_run key g (f r)) by (simpl; apply lookup_insert_eq).
    simpl. by rewrite insert_insert_eq.
  - rewrite (bind_raise _ _ _ _ _ (modify_player_missing key f w E)).
    by rewrite (modify_player_missing key _ w E).
Qed.

Lemma preserves_get_or_create_player (name : string) :
  preserves (get_or_create_player name).
Proof.
  intros w Hw. unfold exec. rewrite get_or_create_player_run. simpl.
  destruct (players w !! canonicalize name); [exact Hw |]. simpl.
  apply registry_ok_insert; [exact Hw |].
  unfold new_player, counters_ok.
  destruct (contains "zhong" (canonicalize name)); simpl; lia.
Qed.

Lemma merged_record_ok (old : PlayerRecord) (off deff played' wins' : Z)
    (rd ro ra : option string) :
  counters_ok old → 0 ≤ wins' ≤ played' →
  counters_ok (merged_record old off deff played' wins' rd ro ra).
Proof.
  intros [H0 H1] H'. unfold counters_ok.
  destruct (merged_record_counters old off deff played' wins' rd ro ra)
    as [-> ->].
  lia.
Qed.

Lemma preserves_merge_record (key new_display : string)
    (off deff played' wins' : Z) (rd ro ra : option string) :
  0 ≤ wins' ≤ played' →
  preserves (merge_record key new_display off deff played' wins' rd ro ra).
Proof.
  intros H' w Hw. unfold exec.
  destruct (players w !! key) as [old |] eqn:E.
  - rewrite (merge_record_run key new_display off deff played' wins'
               rd ro ra old w E). simpl.
    apply registry_ok_insert; [exact Hw |].
    apply merged_record_ok; [by eapply Hw | exact H'].
  - by rewrite (merge_record_missing key new_display off deff played' wins'
                  rd ro ra w E).
Qed.

Lemma preserves_get_players : preserves get_players.
Proof. intros w H. exact H. Qed.

Lemma preserves_save_data : preserves save_data.
Proof.
  unfold save_data.
  apply preserves_bind; [apply preserves_get_players |]. intros ps.
  apply preserves_for_each. intros key.
  apply preserves_bind; [| intros _];
    apply preserves_modify_player; intros r H; exact H.
Qed.

(** The number of wins derived from a win percentage in 0..100 lies
    between 0 and the number of games. *)
Lemma loaded_wins_ok (win_rate played : Z) :
  0 ≤ played < 2 ^ 53 → 0 ≤ win_rate ≤ 100 →
  0 ≤ (if 0 <? played then round_ratio_times win_rate 100 played else 0)
    ≤ played.
Proof.
  intros Hp Hr. destruct (Z.ltb_spec 0 played); [| lia].
  apply round_ratio_times_bounds; lia.
Qed.

Lemma preserves_load_line (l : Line) :
  0 ≤ l_played l < 2 ^ 53 ∧ 0 ≤ l_win_rate l ≤ 100 →
  preserves (load_line l).
Proof.
  intros [Hp Hr] w Hw.
  pose proof (loaded_wins_ok (l_win_rate l) (l_played l) Hp Hr) as Hwins.
  unfold exec, load_line. rewrite bind_run. simpl.
  destruct (players w !! canonicalize (l_disp l)) as [old |] eqn:E.
  - by apply preserves_merge_record.
  - simpl. apply registry_ok_insert; [exact Hw |].
    unfold counters_ok.
    destruct (contains "zhong" (canonicalize (l_disp l))); simpl; lia.
Qed.

Lemma preserves_load_data (file : list string) :
  Forall wf_line file → preserves (load_data file).
Proof.
  intros Hwf. unfold load_data.
  induction Hwf as [| line rest Hl _ IH]; simpl.
  - apply preserves_ret.
  - apply preserves_bind; [| intros _; exact IH].
    destruct (parse_line line) as [l |] eqn:E.
    + apply preserves_load_line. by apply Hl.
    + apply preserves_ret.
Qed.

Lemma preserves_find_player {A} (name : string)
    (k : string → PlayerRecord → M A) :
  (∀ key r, preserves (k key r)) →
  preserves (key ← get_or_create_player name;
             player ← lookup_player key; k key player).
Proof.
  intros Hk. apply preserves_bind; [apply preserves_get_or_create_player |].
  intros key. apply preserves_bind; [apply preserves_lookup_player |].
  intros r. apply Hk.
Qed.

Lemma preserves_get_average_rating (names : list string) (ro : role) :
  preserves (get_average_rating names ro).
Proof.
  unfold get_average_rating. destruct names as [| n rest].
  - apply preserves_ret.
  - apply preserves_bind; [| intros; apply preserves_ret].
    apply preserves_map_M. intros name.
    apply preserves_find_player. intros; apply preserves_ret.
Qed.

Lemma preserves_opponent_reference (first second : list string)
    (ro1 ro2 : role) :
  preserves (opponent_reference first ro1 second ro2).
Proof.
  unfold opponent_reference.
  destruct first; apply preserves_get_average_rating.
Qed.

Lemma preserves_expected_rates (names : list string) (ro : role)
    (opp : option R) :
  preserves (expected_rates names ro opp).
Proof.
  unfold expected_rates. apply preserves_map_M. intros name.
  apply preserves_find_player. intros key r.
  apply preserves_bind; [apply preserves_lift |]. intros rate.
  apply preserves_bind; [apply preserves_print |]. intros _.
  apply preserves_ret.
Qed.

Lemma preserves_display_names (names : list string) :
  preserves (display_names names).
Proof.
  unfold display_names.
  apply preserves_bind; [| intros; apply preserves_ret].
  apply preserves_map_M. intros name.
  apply preserves_find_player. intros; apply preserves_ret.
Qed.

Lemma role_set_counters (ro : role) (v : Z) (r : PlayerRecord) :
  counters_ok r → counters_ok (role_set ro v r).
Proof. destruct ro; intros H; exact H. Qed.

Lemma preserves_rate_players (names : list string) (ro : role)
    (winner : bool) (opp : option R) (base_multiplier : R) :
  preserves (rate_players names ro winner opp base_multiplier).
Proof.
  unfold rate_players. apply preserves_for_each. intros name.
  apply preserves_find_player. intros key r.
  apply preserves_bind; [apply preserves_lift |]. intros [new_rating change].
  apply preserves_bind; [apply preserves_print |]. intros _.
  apply preserves_bind.
  { apply preserves_modify_player. apply role_set_counters. }
  intros _. destruct winner.
  - eapply preserves_ext; [apply modify_player_twice |].
    apply preserves_modify_player.
    intros r0 [H0 H1]. unfold counters_ok. simpl. lia.
  - apply preserves_bind; [| intros; apply preserves_ret].
    apply preserves_modify_player.
    intros r0 [H0 H1]. unfold counters_ok. simpl. lia.
Qed.

Lemma preserves_process_game (command : string) :
  preserves (process_game command).
Proof.
  unfold process_game.
  destruct (match_game command) as [[[team1_str win_type] team2_str] |];
    [| apply preserves_print].
  cbv zeta.
  destruct (WIN_TYPE_MULTIPLIERS !! lower win_type) as [base_multiplier |];
    [| apply preserves_print].
  destruct (parse_team team1_str) as [team1_off team1_def].
  destruct (parse_team team2_str) as [team2_off team2_def].
  apply preserves_bind.
  { apply preserves_for_each. intros name.
    apply preserves_bind; [apply preserves_get_or_create_player |].
    intros; apply preserves_ret. }
  intros _.
  repeat (apply preserves_bind; [apply preserves_opponent_reference |];
          intros ?).
  repeat (apply preserves_bind; [apply preserves_print |]; intros _).
  repeat (apply preserves_bind; [apply preserves_expected_rates |];
          intros ?).
  repeat (apply preserves_bind; [apply preserves_display_names |];
          intros ?).
  repeat (apply preserves_bind; [apply preserves_print |]; intros _).
  repeat (apply preserves_bind; [apply preserves_rate_players |]; intros _).
  apply preserves_save_data.
Qed.

Lemma preserves_process_combine_command (command : string) :
  preserves (process_combine_command command).
Proof.
  unfold process_combine_command.
  destruct (match_combine command) as [[g1 g2] |]; [| apply preserves_print].
  cbv zeta. intros w Hw. unfold exec. rewrite bind_run. simpl.
  destruct (players w !! canonicalize (strip g1)) as [src |] eqn:Es;
    [| by apply preserves_print].
  destruct (players w !! canonicalize (strip g2)) as [dest |] eqn:Ed;
    [| by apply preserves_print].
  revert w Hw Es Ed.
  change (∀ w, registry_ok (players w) →
            players w !! canonicalize (strip g1) = Some src →
            players w !! canonicalize (strip g2) = Some dest →
            registry_ok (players (exec
              (merge_record (canonicalize (strip g2)) (display dest)
                 (offense src) (defense src) (played src) (wins src)
                 None None None;;
               delete_player (canonicalize (strip g1));;
               print (Print ("Combined '" +:+ strip g1 +:+ "' into '" +:+
                             strip g2 +:+ "' (main record remains as '" +:+
                             strip g2 +:+ "')."))) w))).
  intros w Hw Es Ed.
  apply preserves_bind; [| | exact Hw].
  - apply preserves_merge_record. exact (Hw _ _ Es).
  - intros _. apply preserves_bind; [| intros _; apply preserves_print].
    intros w1 Hw1. unfold exec, delete_player.
    rewrite bind_run.
    destruct (players w1 !! canonicalize (strip g1)) as [r |] eqn:E.
    + rewrite (lookup_player_run _ _ _ E). simpl.
      by apply registry_ok_delete.
    + by rewrite (lookup_player_missing _ _ E).
Qed.

Lemma preserves_handle (line : string) : preserves (handle line).
Proof.
  unfold handle. cbv zeta.
  repeat match goal with
         | |- preserves (if ?b then _ else _) => destruct b
         end;
    try apply preserves_ret;
    (apply preserves_bind; [| intros; apply preserves_ret]).
  - apply preserves_save_data.
  - apply preserves_process_combine_command.
  - apply preserves_process_game.
Qed.

Lemma preserves_main_loop (inputs : list string) :
  preserves (main_loop inputs).
Proof.
  induction inputs as [| line rest IH]; simpl.
  - apply preserves_ret.
  - apply preserves_bind; [apply preserves_handle |].
    intros [|]; [exact IH | apply preserves_ret].
Qed.

(** C8. In a session that loads a snapshot whose lines hold a games count
    that is not negative (and below 2^53) and a win percentage in 0..100,
    and then handles any commands, every record of the registry has
    non-negative games played and wins, with wins <= games played: after
    loading, after each processed match and after each merge, whether the
    last command returned or raised. *)
Theorem counters_invariant (file inputs : list string) :
  Forall wf_line file →
  ∀ key r,
    players (exec (session file inputs) (World ∅ [])) !! key = Some r →
    0 ≤ played r ∧ 0 ≤ wins r ∧ wins r ≤ played r.
Proof.
  intros Hwf key r Hk.
  assert (Hok : registry_ok
                  (players (exec (session file inputs) (World ∅ [])))).
  { apply preserves_bind; [by apply preserves_load_data | |].
    - intros _. apply preserves_main_loop.
    - apply registry_ok_empty. }
  destruct (Hok key r Hk) as [H0 H1]. lia.
Qed.

Lemma counters_invariant_witness :
  ∃ r,
    players
      (exec (session [ "John Smith, 200, 200, 10, 50.";
                       "johnsmith, 300, 300, 5, 0.";
                       "Bob, 150, 120, 4, 75." ]
                     [ "pp"; "combine bob to John Smith."; "exit" ])
            (World ∅ []))
      !! "johnsmith" = Some r
    ∧ played r = 19 ∧ wins r = 8
    ∧ 0 ≤ played r ∧ 0 ≤ wins r ∧ wins r ≤ played r.
Proof.
  eexists. split; [vm_compute; reflexivity |].
  split; [reflexivity |]. split; [reflexivity |].
  apply (counters_invariant
           [ "John Smith, 200, 200, 10, 50.";
             "johnsmith, 300, 300, 5, 0.";
             "Bob, 150, 120, 4, 75." ]
           [ "pp"; "combine bob to John Smith."; "exit" ]) with "johnsmith".
  - repeat (apply Forall_cons_2;
              [intros l H; vm_compute in H; injection H as <-; simpl; lia |]).
    apply Forall_nil_2.
  - vm_compute. reflexivity.
Defined.

(** C8, for every snapshot, fails on the code: [load_data] takes the games
    count and the win percentage of a line as they are.  A line with a
    percentage of 200 loads as 10 wins in 5 games, and a line with a
    negative games count loads as such. *)
Lemma counters_broken_by_snapshot :
  (∃ r,
     players (exec (load_data [ "X, 100, 100, 5, 200." ]) (World ∅ []))
       !! "x" = Some r
     ∧ played r = 5 ∧ wins r = 10)
  ∧ (∃ r,
       players (exec (load_data [ "Y, 100, 100, -5, 50." ]) (World ∅ []))
         !! "y" = Some r
       ∧ played r = -5 ∧ wins r = 0).
Proof.
  split; eexists; (split; [vm_compute; reflexivity |]);
    split; reflexivity.
Qed.

(** * Further properties *)

(** ** The expected score *)

Lemma Rpower_10_pos (x : R) : (0 < Rpower 10 x)%R.
Proof. unfold Rpower. apply exp_pos. Qed.

Lemma expected_score_range (player_rating : Z) (opponent_rating : R) :
  (0 < expected_score player_rating opponent_rating < 1)%R.
Proof.
  pose proof (Rpower_10_pos ((opponent_rating - IZR player_rating) / 400))
    as Hp.
  unfold expected_score.
  set (t := Rpower 10 ((opponent_rating - IZR player_rating) / 400)) in *.
  split.
  - apply Rdiv_lt_0_compat; lra.
  - apply (Rmult_lt_reg_r (1 + t)); [lra |].
    unfold Rdiv. rewrite Rmult_assoc, Rinv_l by lra. lra.
Qed.

(** X1. For a player and an opponent reference within the rating bounds,
    the expected score lies strictly between 0 and 1, so the expected win
    rate is defined and lies strictly between 0 and 100. *)
Theorem expected_score_bounds (player_rating : Z) (opponent_rating : R) :
  RATING_MIN ≤ player_rating ≤ RATING_MAX →
  (IZR RATING_MIN <= opponent_rating <= IZR RATING_MAX)%R →
  (0 < expected_score player_rating opponent_rating < 1)%R
  ∧ ∃ rate,
      calculate_expected_win_rate player_rating (Some opponent_rating)
        = Ok rate
      ∧ (0 < rate < 100)%R.
Proof.
  intros _ _.
  pose proof (expected_score_range player_rating opponent_rating) as H.
  split; [exact H |].
  eexists. split; [reflexivity |]. lra.
Qed.

Lemma expected_score_bounds_witness :
  (0 < expected_score 1500 1600 < 1)%R.
Proof.
  apply (expected_score_bounds 1500 1600).
  - unfold RATING_MIN, RATING_MAX. lia.
  - unfold RATING_MIN, RATING_MAX. lra.
Defined.

(** X2. The expected scores of two players against each other add up to
    one. *)
Theorem expected_score_complement (a b : Z) :
  (expected_score a (IZR b) + expected_score b (IZR a) = 1)%R.
Proof.
  unfold expected_score.
  replace ((IZR a - IZR b) / 400)%R with (- ((IZR b - IZR a) / 400))%R by lra.
  rewrite Rpower_Ropp.
  pose proof (Rpower_10_pos ((IZR b - IZR a) / 400)) as Hp.
  set (t := Rpower 10 ((IZR b - IZR a) / 400)) in *.
  field. split; lra.
Qed.

Lemma Rpower_10_lt (x y : R) : (x < y)%R → (Rpower 10 x < Rpower 10 y)%R.
Proof. intros H. apply Rpower_lt; lra. Qed.

Lemma inv_one_plus_lt (s t : R) :
  (0 < s)%R → (s < t)%R → (1 / (1 + t) < 1 / (1 + s))%R.
Proof.
  intros Hs Hst. unfold Rdiv. rewrite !Rmult_1_l.
  apply Rinv_lt_contravar; [| lra].
  apply Rmult_lt_0_compat; lra.
Qed.

(** X3. The expected score falls when the opponent is rated higher and
    rises when the player is rated higher. *)
Theorem expected_score_monotone (player player' : Z) (opp opp' : R) :
  ((opp < opp')%R →
     (expected_score player opp' < expected_score player opp)%R)
  ∧ (player < player' →
     (expected_score player opp < expected_score player' opp)%R).
Proof.
  split; intros H; unfold expected_score.
  - apply inv_one_plus_lt; [apply Rpower_10_pos |].
    apply Rpower_10_lt. lra.
  - apply inv_one_plus_lt; [apply Rpower_10_pos |].
    apply Rpower_10_lt. apply IZR_lt in H. lra.
Qed.

Lemma expected_score_monotone_witness :
  (expected_score 1200 1500 < expected_score 1200 1400)%R
  ∧ (expected_score 1200 1500 < expected_score 1300 1500)%R.
Proof.
  destruct (expected_score_monotone 1200 1300 1400 1500) as [H1 _].
  destruct (expected_score_monotone 1200 1300 1500 1500) as [_ H2].
  split; [apply H1; lra | apply H2; lia].
Defined.

(** ** The protection table *)

Ltac band_cases :=
  unfold protection_adjustment, RATING_PROTECTION_THRESHOLDS, first_band,
    le_threshold;
  repeat match goal with
         | |- context [?a <=? ?b] => destruct (Z.leb_spec a b)
         end;
  try lia.

Lemma protection_adjustment_range (rating : Z) :
  -2 ≤ protection_adjustment rating ≤ 34.
Proof. band_cases. Qed.

(** X4. The protection adjustment never grows with the rating, and lies
    between -2 and 34. *)
Theorem protection_adjustment_antitone (rating rating' : Z) :
  (rating ≤ rating' →
     protection_adjustment rating' ≤ protection_adjustment rating)
  ∧ -2 ≤ protection_adjustment rating ≤ 34.
Proof.
  split.
  - intros H. band_cases.
  - band_cases.
Qed.

Lemma protection_adjustment_antitone_witness :
  protection_adjustment 2950 ≤ protection_adjustment 180.
Proof.
  destruct (protection_adjustment_antitone 180 2950) as [H _].
  apply H. lia.
Defined.

(** ** Size and sign of a rating change *)

Lemma round_ge_IZR (x : R) (n : Z) : (IZR n <= x)%R → n ≤ Py.round x.
Proof.
  intros Hx. unfold Py.round.
  pose proof (Zfloor_bound x) as [Hlo Hhi].
  assert (Hf : n ≤ Zfloor x) by (apply Zfloor_lub; exact Hx).
  destruct (Py.ltb _ _); [exact Hf |].
  destruct (Py.ltb _ _); [lia |].
  destruct (Z.even _); lia.
Qed.

Lemma min_zero_pos (a : R) : (0 < a)%R → Py.min a 0 = 0%R.
Proof.
  intros Ha. unfold Py.min. destruct (ltb_spec 0 a); [reflexivity | lra].
Qed.

Lemma min_zero_le (a : R) : (Py.min a 0 <= a)%R ∧ (a <= 0 → Py.min a 0 = a)%R.
Proof.
  unfold Py.min. destruct (ltb_spec 0 a); split; intros; lra.
Qed.

(** X5. One game moves a rating by a bounded amount: for a win or a loss
    with a multiplier that is not negative, the returned delta is at least
    -(32 * multiplier + 2) and at most 32 * multiplier + 34. *)
Theorem rating_change_bounded (curr_rating score : Z)
    (opposition_rating multiplier : R) :
  score = 0 ∨ score = 1 →
  (0 <= multiplier)%R →
  ∃ new_rating change,
    update_rating curr_rating score (Some opposition_rating) multiplier
      = Ok (new_rating, change)
    ∧ (- (32 * multiplier + 2) <= change <= 32 * multiplier + 34)%R.
Proof.
  intros Hscore Hm.
  destruct (expected_score_range curr_rating opposition_rating)
    as [HE0 HE1].
  destruct (protection_adjustment_range curr_rating) as [Ha0 Ha1].
  apply IZR_le in Ha0, Ha1.
  assert (Hc : (- (32 * multiplier + 2)
                <= adjusted_change curr_rating score opposition_rating
                     multiplier
                <= 32 * multiplier + 34)%R).
  { unfold adjusted_change, raw_change, K_FACTOR.
    set (E := expected_score curr_rating opposition_rating) in *.
    set (adj := IZR (protection_adjustment curr_rating)) in *.
    destruct Hscore as [-> | ->]; simpl.
    - pose proof (min_zero_nonpos (multiplier * 32 * (0 - E) + adj)).
      pose proof (min_zero_le (multiplier * 32 * (0 - E) + adj)) as [_ Hle].
      destruct (Rle_dec (multiplier * 32 * (0 - E) + adj) 0) as [Hn | Hp].
      + rewrite (Hle Hn). nra.
      + rewrite min_zero_pos by lra. nra.
    - nra. }
  unfold update_rating, adjust_opponent_rating.
  destruct (Py.ltb _ 0 && (curr_rating <=? RATING_MIN)).
  - exists RATING_MIN, 0%R. split; [reflexivity |]. nra.
  - eexists _, _. split; [reflexivity | exact Hc].
Qed.

Lemma rating_change_bounded_witness :
  ∃ new_rating change,
    update_rating 1500 1 (Some 1400%R) 1.5 = Ok (new_rating, change)
    ∧ (- (32 * 1.5 + 2) <= change <= 32 * 1.5 + 34)%R.
Proof.
  apply (rating_change_bounded 1500 1 1400 1.5); [right; reflexivity | lra].
Defined.

(** X6. A loss costs nothing when the band's protection covers the stake:
    if 32 * multiplier is at most the protection adjustment of the current
    rating, a loss returns delta 0, and a rating within the bounds is
    returned unchanged.  The protection covers the stake for every rating
    of at most 150 and every multiplier up to 1, so that such a loss is
    free. *)
Theorem protected_loss_is_free (curr_rating : Z)
    (opposition_rating multiplier : R) :
  (0 <= multiplier)%R →
  ((32 * multiplier <= IZR (protection_adjustment curr_rating))%R →
   update_rating curr_rating 0 (Some opposition_rating) multiplier
     = Ok (clamp_rating curr_rating, 0%R))
  ∧ (RATING_MIN ≤ curr_rating ≤ RATING_MAX →
     clamp_rating curr_rating = curr_rating)
  ∧ (curr_rating ≤ 150 → (multiplier <= 1)%R →
     (32 * multiplier <= IZR (protection_adjustment curr_rating))%R
     ∧ update_rating curr_rating 0 (Some opposition_rating) multiplier
       = Ok (clamp_rating curr_rating, 0%R)).
Proof.
  intros Hm.
  destruct (expected_score_range curr_rating opposition_rating)
    as [HE0 HE1].
  assert (Hfree :
            (32 * multiplier <= IZR (protection_adjustment curr_rating))%R →
            update_rating curr_rating 0 (Some opposition_rating) multiplier
            = Ok (clamp_rating curr_rating, 0%R)).
  { intros Hcover.
    assert (Hc : adjusted_change curr_rating 0 opposition_rating multiplier
                 = 0%R).
    { unfold adjusted_change, raw_change, K_FACTOR. simpl.
      set (E := expected_score curr_rating opposition_rating) in *.
      destruct (Rle_dec (multiplier * 32 * (0 - E)
                         + IZR (protection_adjustment curr_rating)) 0)
        as [Hn | Hp].
      - rewrite (proj2 (min_zero_le _) Hn). nra.
      - apply min_zero_pos. lra. }
    unfold update_rating, adjust_opponent_rating. rewrite Hc.
    destruct (ltb_spec 0 0) as [H | _]; [lra |]. simpl.
    rewrite Rplus_0_r, round_IZR. reflexivity. }
  split; [exact Hfree | split].
  - unfold clamp_rating, RATING_MIN, RATING_MAX. lia.
  - intros Hlow Hm1.
    assert (Hcover :
              (32 * multiplier <= IZR (protection_adjustment curr_rating))%R).
    { assert (protection_adjustment curr_rating = 34) as -> by band_cases.
      lra. }
    split; [exact Hcover | exact (Hfree Hcover)].
Qed.

Lemma protected_loss_is_free_witness :
  update_rating 120 0 (Some 2000%R) 1 = Ok (120, 0%R)
  ∧ update_rating 100 0 (Some 100%R) 0.5 = Ok (100, 0%R).
Proof.
  split.
  - destruct (protected_loss_is_free 120 2000 1) as (_ & Hclamp & Hlow);
      [lra |].
    destruct Hlow as [_ H]; [lia | lra |].
    rewrite H, Hclamp; [reflexivity |]. unfold RATING_MIN, RATING_MAX. lia.
  - destruct (protected_loss_is_free 100 100 0.5) as (H & Hclamp & _);
      [lra |].
    rewrite H, Hclamp; [reflexivity | |].
    + unfold RATING_MIN, RATING_MAX. lia.
    + unfold protection_adjustment. simpl. lra.
Defined.

(** X7. A win never lowers a rating of at most 2666: with a multiplier that
    is not negative the returned delta is at least 0 and the new rating is
    at least the current one. *)
Theorem win_never_lowers (curr_rating : Z) (opposition_rating multiplier : R) :
  (0 <= multiplier)%R →
  curr_rating ≤ 2666 →
  ∃ new_rating change,
    update_rating curr_rating 1 (Some opposition_rating) multiplier
      = Ok (new_rating, change)
    ∧ (0 <= change)%R
    ∧ curr_rating ≤ new_rating.
Proof.
  intros Hm Hband.
  destruct (expected_score_range curr_rating opposition_rating)
    as [HE0 HE1].
  assert (Hadj : 0 ≤ protection_adjustment curr_rating) by band_cases.
  apply IZR_le in Hadj.
  assert (Hc : (0 <= adjusted_change curr_rating 1 opposition_rating
                       multiplier)%R).
  { unfold adjusted_change, raw_change, K_FACTOR. simpl. nra. }
  unfold update_rating, adjust_opponent_rating.
  destruct (ltb_spec (adjusted_change curr_rating 1 opposition_rating
                        multiplier) 0) as [Hneg | _]; [lra |].
  simpl. eexists _, _. split; [reflexivity |]. split; [exact Hc |].
  assert (curr_rating
          ≤ Py.round (IZR curr_rating
                      + adjusted_change curr_rating 1 opposition_rating
                          multiplier))
    by (apply round_ge_IZR; lra).
  unfold clamp_rating, RATING_MIN, RATING_MAX. lia.
Qed.

Lemma win_never_lowers_witness :
  ∃ new_rating change,
    update_rating 2000 1 (Some 100%R) 0.5 = Ok (new_rating, change)
    ∧ (0 <= change)%R
    ∧ 2000 ≤ new_rating.
Proof.
  apply (win_never_lowers 2000 100 0.5); [lra | lia].
Defined.

Lemma round_just_above (x : R) (n : Z) :
  (IZR n <= x < IZR n + 1 / 2)%R → Py.round x = n.
Proof.
  intros [Hlo Hhi]. unfold Py.round.
  assert (Hf : Zfloor x = n) by (apply Zfloor_eq; lra).
  rewrite Hf.
  destruct (ltb_spec (x - IZR n) (1 / 2)) as [_ | H]; [reflexivity | lra].
Qed.

Lemma Rpower_10_minus_2 : Rpower 10 (-2) = (1 / 100)%R.
Proof.
  replace (-2)%R with (- INR 2)%R by (simpl; lra).
  rewrite Rpower_Ropp, Rpower_pow by lra. simpl. lra.
Qed.

(** X8. In the top band a win can cost points: above 2900, a win against
    an opponent reference at least 800 points lower, with a multiplier
    between 0 and 1.5, returns a negative delta, and a rating of at most
    RATING_MAX drops by exactly 2. *)
Theorem top_band_win_costs (curr_rating : Z)
    (opposition_rating multiplier : R) :
  2900 < curr_rating ≤ RATING_MAX →
  (opposition_rating <= IZR curr_rating - 800)%R →
  (0 <= multiplier <= 1.5)%R →
  ∃ change,
    update_rating curr_rating 1 (Some opposition_rating) multiplier
      = Ok (curr_rating - 2, change)
    ∧ (change < 0)%R.
Proof.
  intros [Hband Hmax] Hopp [Hm0 Hm1].
  assert (Hadj : protection_adjustment curr_rating = -2) by band_cases.
  pose proof (Rpower_10_pos ((opposition_rating - IZR curr_rating) / 400))
    as Hp.
  assert (Ht : (Rpower 10 ((opposition_rating - IZR curr_rating) / 400)
                <= 1 / 100)%R).
  { rewrite <- Rpower_10_minus_2.
    destruct (Req_dec ((opposition_rating - IZR curr_rating) / 400) (-2))
      as [-> | Hne]; [lra |].
    apply Rlt_le, Rpower_10_lt. lra. }
  assert (Hc : (-2 <= adjusted_change curr_rating 1 opposition_rating
                        multiplier < -2 + 1 / 2)%R).
  { unfold adjusted_change, raw_change, K_FACTOR, expected_score. simpl.
    rewrite Hadj.
    set (t := Rpower 10 ((opposition_rating - IZR curr_rating) / 400)) in *.
    assert (Hfrac : (0 <= 1 - 1 / (1 + t) <= 1 / 100)%R).
    { replace (1 - 1 / (1 + t))%R with (t / (1 + t))%R by (field; lra).
      split.
      - apply Rlt_le, Rdiv_lt_0_compat; lra.
      - apply (Rmult_le_reg_r (1 + t)); [lra |].
        unfold Rdiv at 1. rewrite Rmult_assoc, Rinv_l by lra. nra. }
    nra. }
  exists (adjusted_change curr_rating 1 opposition_rating multiplier).
  split; [| lra].
  unfold update_rating, adjust_opponent_rating.
  destruct (Z.leb_spec curr_rating RATING_MIN) as [Hle | _];
    [unfold RATING_MIN in Hle; lia |].
  rewrite andb_false_r.
  rewrite (round_just_above _ (curr_rating - 2))
    by (rewrite minus_IZR; lra).
  f_equal. f_equal. unfold clamp_rating, RATING_MIN, RATING_MAX in *. lia.
Qed.

Lemma top_band_win_costs_witness :
  ∃ change,
    update_rating 2999 1 (Some 1500%R) 1 = Ok (2997, change)
    ∧ (change < 0)%R.
Proof.
  apply (top_band_win_costs 2999 1500 1).
  - unfold RATING_MAX. lia.
  - lra.
  - lra.
Defined.

(** ** The rank catalogue *)

(** The tier order of the computed rank, threshold by threshold. *)
Lemma computed_rank_order (score : Z) :
  RANK_ORDER !!! get_computed_rank score =
  if 2999 <=? score then 13 else if 2900 <=? score then 12
  else if 2666 <=? score then 11 else if 2468 <=? score then 10
  else if 2222 <=? score then 9 else if 1650 <=? score then 8
  else if 1234 <=? score then 7 else if 850 <=? score then 6
  else if 450 <=? score then 5 else if 250 <=? score then 4
  else if 200 <=? score then 3 else if 150 <=? score then 2
  else if 125 <=? score then 1 else 0.
Proof.
  unfold get_computed_rank, RANK_THRESHOLDS, first_rank.
  repeat match goal with
         | |- context [?a <=? ?b] => destruct (a <=? b)
         end;
    reflexivity.
Qed.

Lemma computed_rank_not_sentinel (score : Z) :
  is_sentinel (get_computed_rank score) = false.
Proof.
  pose proof (computed_rank_cases score) as H.
  repeat (apply elem_of_cons in H as [-> | H]; [reflexivity |]).
  by apply elem_of_nil in H.
Qed.

(** X9. The computed rank never falls when the score rises; it is never a
    sentinel; it is "iron" exactly below 125 and "ultra" exactly from 2999
    on. *)
Theorem computed_rank_monotone (score score' : Z) :
  (score ≤ score' →
     RANK_ORDER !!! get_computed_rank score
       ≤ RANK_ORDER !!! get_computed_rank score')
  ∧ is_sentinel (get_computed_rank score) = false
  ∧ (get_computed_rank score = "iron" ↔ score < 125)
  ∧ (get_computed_rank score = "ultra" ↔ 2999 ≤ score).
Proof.
  split; [| split; [apply computed_rank_not_sentinel |]].
  - intros H. rewrite !computed_rank_order.
    repeat match goal with
           | |- context [?a <=? ?b] => destruct (Z.leb_spec a b)
           end;
      lia.
  - unfold get_computed_rank, RANK_THRESHOLDS, first_rank.
    split; split;
      repeat match goal with
             | |- context [?a <=? ?b] => destruct (Z.leb_spec a b)
             end;
      (discriminate || lia || (intros; reflexivity) || (intros; lia)).
Qed.

Lemma computed_rank_monotone_witness :
  RANK_ORDER !!! get_computed_rank 449 ≤ RANK_ORDER !!! get_computed_rank 450.
Proof.
  destruct (computed_rank_monotone 449 450) as [H _]. apply H. lia.
Defined.

(** Every value of [RANK_ORDER] lies in 0..13. *)
Lemma rank_order_range (rank : string) (dflt : Z) :
  0 ≤ dflt ≤ 13 → 0 ≤ rank_order_get rank dflt ≤ 13.
Proof.
  intros Hd. unfold rank_order_get.
  destruct (RANK_ORDER !! rank) as [v |] eqn:E; [| exact Hd].
  unfold RANK_ORDER in E. apply elem_of_list_to_map_2 in E. simpl.
  repeat (apply elem_of_cons in E as [[= _ ->] | E]; [lia |]).
  by apply elem_of_nil in E.
Qed.

Lemma sentinel_order (rank : string) (dflt : Z) :
  is_sentinel rank = true → rank_order_get rank dflt = 13.
Proof.
  unfold is_sentinel. intros H.
  apply orb_true_iff in H as [H | H]; apply String.eqb_eq in H; by subst.
Qed.

Lemma computed_rank_order_get (score : Z) (dflt : Z) :
  rank_order_get (get_computed_rank score) dflt
    = RANK_ORDER !!! get_computed_rank score.
Proof.
  unfold rank_order_get. by rewrite computed_rank_in_order.
Qed.

Lemma updated_rank_order (current : string) (score : Z) :
  rank_order_get (updated_rank current (get_computed_rank score)) 1
    = Z.max (rank_order_get current 1)
            (rank_order_get (get_computed_rank score) 1).
Proof.
  rewrite computed_rank_order_get.
  pose proof (rank_order_range (get_computed_rank score) 1) as Hr.
  rewrite computed_rank_order_get in Hr.
  unfold updated_rank. destruct (is_sentinel current) eqn:Es.
  - rewrite (sentinel_order _ _ Es). lia.
  - destruct (Z.ltb_spec (rank_order_get current 1)
                         (RANK_ORDER !!! get_computed_rank score)).
    + rewrite computed_rank_order_get. lia.
    + lia.
Qed.

Lemma updated_rank_idempotent (current : string) (score : Z) :
  updated_rank (updated_rank current (get_computed_rank score))
               (get_computed_rank score)
    = updated_rank current (get_computed_rank score).
Proof.
  unfold updated_rank at 2 3. destruct (is_sentinel current) eqn:Es.
  - unfold updated_rank. by rewrite Es.
  - destruct (Z.ltb_spec (rank_order_get current 1)
                         (RANK_ORDER !!! get_computed_rank score)).
    + unfold updated_rank. rewrite computed_rank_not_sentinel.
      rewrite computed_rank_order_get, Z.ltb_irrefl. reflexivity.
    + unfold updated_rank. rewrite Es.
      destruct (Z.ltb_spec (rank_order_get current 1)
                           (RANK_ORDER !!! get_computed_rank score));
        [lia | reflexivity].
Qed.

Lemma recompute_ranks_idempotent (rec : PlayerRecord) :
  recompute_ranks (recompute_ranks rec) = recompute_ranks rec.
Proof.
  unfold recompute_ranks, set_ranks. simpl.
  by rewrite !updated_rank_idempotent.
Qed.

(** X10. Recomputing the ranks of a record keeps, in each category, the
    higher of the existing tier and the tier computed from the rating
    (in the order of [RANK_ORDER], unknown tier names counting as 1); it
    touches nothing but the three ranks, and doing it twice is the same as
    doing it once. *)
Theorem recompute_ranks_is_max (rec : PlayerRecord) :
  let rec' := recompute_ranks rec in
  rank_order_get (rank_o rec') 1
    = Z.max (rank_order_get (rank_o rec) 1)
            (rank_order_get (get_computed_rank (offense rec)) 1)
  ∧ rank_order_get (rank_d rec') 1
    = Z.max (rank_order_get (rank_d rec) 1)
            (rank_order_get (get_computed_rank (defense rec)) 1)
  ∧ rank_order_get (rank_a rec') 1
    = Z.max (rank_order_get (rank_a rec) 1)
            (rank_order_get (get_computed_rank (avg rec)) 1)
  ∧ (display rec', offense rec', defense rec', played rec', wins rec',
     avg rec')
    = (display rec, offense rec, defense rec, played rec, wins rec, avg rec)
  ∧ recompute_ranks rec' = rec'.
Proof.
  simpl. repeat split; try apply updated_rank_order.
  apply recompute_ranks_idempotent.
Qed.

Lemma round_div_mean (a b : Z) :
  Z.min a b ≤ round_div (a + b) 2 ≤ Z.max a b.
Proof. apply round_div_between; lia. Qed.

(** X11. The recomputed average lies between the offense and the defense
    rating, so it is within the rating bounds when both are; offense and
    defense are left as they are. *)
Theorem recompute_avg_between (data : PlayerRecord) :
  let data' := recompute_avg data in
  Z.min (offense data) (defense data) ≤ avg data'
    ≤ Z.max (offense data) (defense data)
  ∧ offense data' = offense data
  ∧ defense data' = defense data
  ∧ (RATING_MIN ≤ offense data ≤ RATING_MAX →
     RATING_MIN ≤ defense data ≤ RATING_MAX →
     RATING_MIN ≤ avg data' ≤ RATING_MAX).
Proof.
  simpl. pose proof (round_div_mean (offense data) (defense data)) as H.
  split; [exact H |]. split; [reflexivity |]. split; [reflexivity |].
  unfold recompute_avg. simpl. lia.
Qed.

Lemma recompute_avg_between_witness :
  RATING_MIN ≤ avg (recompute_avg
                      (mkPlayer "Ann" 101 2998 3 1 0 "iron" "iron" "iron"))
    ≤ RATING_MAX.
Proof.
  destruct (recompute_avg_between
              (mkPlayer "Ann" 101 2998 3 1 0 "iron" "iron" "iron"))
    as (_ & _ & _ & H).
  apply H; unfold RATING_MIN, RATING_MAX; simpl; lia.
Defined.

(** ** Saving *)

Lemma refresh_player_run (key : string) (r : PlayerRecord)
    (ps : gmap string PlayerRecord) (out : list event) :
  ps !! key = Some r →
  (update_player_avg key;; update_player_ranks key) (World ps out)
    = (Ok (), World (<[key := refreshed r]> ps) out).
Proof.
  intros H. unfold update_player_avg, update_player_ranks.
  rewrite modify_player_twice.
  by rewrite (modify_player_run key _ r (World ps out) H).
Qed.

Lemma refresh_keys_run (keys : list string) :
  ∀ (ps : gmap string PlayerRecord) (out : list event),
    (∀ key, key ∈ keys → is_Some (ps !! key)) →
    for_each keys (λ key, update_player_avg key;; update_player_ranks key)
             (World ps out)
      = (Ok (), World (foldl (λ m key, alter refreshed key m) ps keys) out).
Proof.
  induction keys as [| key rest IH]; intros ps out Hin; [reflexivity |].
  destruct (Hin key) as [r Hr]; [left |].
  rewrite for_each_cons.
  rewrite (bind_ok _ _ _ _ _ (refresh_player_run key r ps out Hr)).
  rewrite IH.
  - simpl. do 3 f_equal. apply map_eq. intros k.
    destruct (decide (key = k)) as [-> | Hne].
    + by rewrite lookup_insert_eq, lookup_alter_eq, Hr.
    + by rewrite lookup_insert_ne, lookup_alter_ne.
  - intros k Hk. destruct (decide (key = k)) as [-> | Hne].
    + rewrite lookup_insert_eq. eauto.
    + rewrite lookup_insert_ne by exact Hne. apply Hin. by right.
Qed.

Lemma foldl_alter_lookup (f : PlayerRecord → PlayerRecord)
    (keys : list string) :
  NoDup keys →
  ∀ (ps : gmap string PlayerRecord) (k : string),
    foldl (λ m key, alter f key m) ps keys !! k
      = if decide (k ∈ keys) then f <$> ps !! k else ps !! k.
Proof.
  induction 1 as [| key rest Hnot Hnd IH]; intros ps k; simpl.
  - destruct (decide (k ∈ [])) as [Hin | _]; [| reflexivity].
    by apply elem_of_nil in Hin.
  - rewrite IH. destruct (decide (key = k)) as [-> | Hne].
    + destruct (decide (k ∈ rest)) as [Hin | _]; [contradiction |].
      destruct (decide (k ∈ k :: rest)) as [_ | Hout];
        [by rewrite lookup_alter_eq | exfalso; apply Hout; by left].
    + rewrite lookup_alter_ne by exact Hne.
      destruct (decide (k ∈ rest)) as [Hin | Hout];
        destruct (decide (k ∈ key :: rest)) as [Hin' | Hout'];
        try reflexivity.
      * exfalso. apply Hout'. by right.
      * exfalso. apply elem_of_cons in Hin' as [-> | Hin']; contradiction.
Qed.

Lemma save_data_run (w : world) :
  save_data w = (Ok (), World (refreshed <$> players w) (stdout w)).
Proof.
  destruct w as [ps out]. unfold save_data. rewrite bind_run. simpl.
  rewrite refresh_keys_run.
  - do 3 f_equal. apply map_eq. intros k.
    rewrite foldl_alter_lookup by apply NoDup_fst_map_to_list.
    rewrite lookup_fmap.
    destruct (decide (k ∈ (map_to_list ps).*1)) as [Hin | Hnot];
      [reflexivity |].
    destruct (ps !! k) as [r |] eqn:E; [| reflexivity].
    exfalso. apply Hnot. apply list_elem_of_fmap.
    exists (k, r). split; [reflexivity |]. by apply elem_of_map_to_list.
  - intros key Hin. apply list_elem_of_fmap in Hin as ([k r] & -> & Hin).
    apply elem_of_map_to_list in Hin. simpl. eauto.
Qed.

Lemma refreshed_idempotent (r : PlayerRecord) :
  refreshed (refreshed r) = refreshed r.
Proof.
  unfold refreshed.
  assert (Havg : recompute_avg (recompute_ranks (recompute_avg r))
                 = recompute_ranks (recompute_avg r)) by reflexivity.
  rewrite Havg. apply recompute_ranks_idempotent.
Qed.

(** X12. [save_data] always returns; it replaces every record by the record
    with recomputed average and ranks, keeps the set of keys and prints
    nothing; and saving twice is the same as saving once. *)
Theorem save_data_refreshes (w : world) :
  save_data w = (Ok (), World (refreshed <$> players w) (stdout w))
  ∧ dom (refreshed <$> players w) = dom (players w)
  ∧ (save_data;; save_data) w = save_data w.
Proof.
  split; [apply save_data_run |]. split; [apply dom_fmap_L |].
  rewrite (bind_ok _ _ _ _ _ (save_data_run w)), !save_data_run. simpl.
  f_equal. f_equal. rewrite <- map_fmap_compose. apply map_fmap_ext.
  intros k r _. apply refreshed_idempotent.
Qed.

(** ** Canonical keys *)

Lemma lower_char_idempotent (c : ascii) :
  lower_char (lower_char c) = lower_char c.
Proof. destruct c as [[] [] [] [] [] [] [] []]; reflexivity. Qed.

Lemma isalnum_lower_char (c : ascii) : isalnum (lower_char c) = isalnum c.
Proof. destruct c as [[] [] [] [] [] [] [] []]; reflexivity. Qed.

Lemma lower_char_alnum (c : ascii) :
  isalnum c = true →
  islower (lower_char c) || isdigit (lower_char c) = true.
Proof. destruct c as [[] [] [] [] [] [] [] []]; (reflexivity || discriminate). Qed.

Lemma string_app_cons (c : ascii) (s1 s2 : string) :
  String c s1 +:+ s2 = String c (s1 +:+ s2).
Proof. reflexivity. Qed.

Lemma string_app_nil (s : string) : "" +:+ s = s.
Proof. reflexivity. Qed.

Lemma lower_app (s1 s2 : string) : lower (s1 +:+ s2) = lower s1 +:+ lower s2.
Proof.
  induction s1 as [| c s1 IH]; [reflexivity |].
  rewrite string_app_cons. simpl. by rewrite IH.
Qed.

Lemma filter_app (p : ascii → bool) (s1 s2 : string) :
  Py.filter p (s1 +:+ s2) = Py.filter p s1 +:+ Py.filter p s2.
Proof.
  induction s1 as [| c s1 IH]; [reflexivity |].
  rewrite string_app_cons. simpl. destruct (p c); by rewrite IH.
Qed.

Lemma lower_idempotent (s : string) : lower (lower s) = lower s.
Proof.
  induction s as [| c s IH]; [reflexivity |].
  simpl. by rewrite lower_char_idempotent, IH.
Qed.

Lemma canonicalize_cons (c : ascii) (s : string) :
  canonicalize (String c s)
    = if isalnum c then String (lower_char c) (canonicalize s)
      else canonicalize s.
Proof. unfold canonicalize. simpl. by rewrite isalnum_lower_char. Qed.

(** X13. The canonical key of a name consists of lower-case letters and
    digits only; taking it twice changes nothing; the case of the letters
    does not matter; and a character that is not alphanumeric can be
    dropped anywhere in the name. *)
Theorem canonicalize_normal_form (s s1 s2 : string) (c : ascii) :
  all_chars (λ c, islower c || isdigit c) (canonicalize s) = true
  ∧ canonicalize (canonicalize s) = canonicalize s
  ∧ canonicalize (lower s) = canonicalize s
  ∧ (isalnum c = false →
     canonicalize (s1 +:+ String c s2) = canonicalize (s1 +:+ s2)).
Proof.
  split; [| split; [| split]].
  - induction s as [| a s IH]; [reflexivity |].
    rewrite canonicalize_cons. destruct (isalnum a) eqn:E; [| exact IH].
    simpl. by rewrite (lower_char_alnum a E), IH.
  - induction s as [| a s IH]; [reflexivity |].
    rewrite canonicalize_cons. destruct (isalnum a) eqn:E; [| exact IH].
    rewrite canonicalize_cons, isalnum_lower_char, E.
    by rewrite lower_char_idempotent, IH.
  - unfold canonicalize. by rewrite lower_idempotent.
  - intros Hc. unfold canonicalize.
    rewrite !lower_app, !filter_app. simpl.
    by rewrite isalnum_lower_char, Hc.
Qed.

Lemma canonicalize_normal_form_witness :
  canonicalize ("John" +:+ String " " "Smith") = canonicalize ("John" +:+ "Smith").
Proof.
  destruct (canonicalize_normal_form "" "John" "Smith" " ") as (_ & _ & _ & H).
  apply H. reflexivity.
Defined.

(** ** Creation *)

(** X14. [get_or_create_player] returns the canonical key of the name.  A
    record already stored under that key is left as it is; otherwise a
    record with both ratings and the average at RATING_MIN and no games is
    stored.  No other key is touched, and a second call with any name of
    the same canonical key changes nothing. *)
Theorem get_or_create_player_spec (name name' : string) (w : world) :
  canonicalize name = canonicalize name' →
  ∃ w1,
    get_or_create_player name w = (Ok (canonicalize name), w1)
    ∧ stdout w1 = stdout w
    ∧ (∀ r, players w !! canonicalize name = Some r → w1 = w)
    ∧ (players w !! canonicalize name = None →
       ∃ r, players w1 !! canonicalize name = Some r
            ∧ display r = name
            ∧ (offense r, defense r, avg r)
              = (RATING_MIN, RATING_MIN, RATING_MIN)
            ∧ (played r, wins r) = (0, 0))
    ∧ (∀ key, key ≠ canonicalize name →
       players w1 !! key = players w !! key)
    ∧ get_or_create_player name' w1 = (Ok (canonicalize name), w1).
Proof.
  intros Hsame. eexists. split; [apply get_or_create_player_run |].
  destruct (players w !! canonicalize name) as [r0 |] eqn:E.
  - split; [reflexivity |]. split; [reflexivity |].
    split; [discriminate |]. split; [reflexivity |].
    rewrite get_or_create_player_run, <- Hsame, E. reflexivity.
  - split; [reflexivity |]. split; [discriminate |]. split.
    + intros _. eexists. simpl. split; [apply lookup_insert_eq |].
      unfold new_player.
      destruct (contains "zhong" (canonicalize name)); done.
    + split.
      * intros key Hne. simpl. by rewrite lookup_insert_ne.
      * rewrite get_or_create_player_run, <- Hsame. simpl.
        by rewrite lookup_insert_eq.
Qed.

Lemma get_or_create_player_spec_witness :
  ∃ w1,
    get_or_create_player "John Smith" (World ∅ []) = (Ok "johnsmith", w1)
    ∧ get_or_create_player "john-smith" w1 = (Ok "johnsmith", w1).
Proof.
  destruct (get_or_create_player_spec "John Smith" "john-smith" (World ∅ []))
    as (w1 & H1 & _ & _ & _ & _ & H2).
  - vm_compute. reflexivity.
  - exists w1. split; [exact H1 | exact H2].
Defined.

(** ** More on merging *)

Lemma round_div_exact (m d : Z) : 0 < d → round_div (m * d) d = m.
Proof.
  intros Hd. pose proof (round_div_between (m * d) d m m Hd). lia.
Qed.

Lemma choose_rank_order (old_rank new_rank : string) :
  rank_order_get (choose_rank old_rank new_rank) 0
    = Z.max (rank_order_get old_rank 0) (rank_order_get new_rank 0).
Proof.
  unfold choose_rank.
  destruct (Z.ltb_spec (rank_order_get old_rank 0)
                       (rank_order_get new_rank 0)); lia.
Qed.

Lemma choose_rank_sentinel (old_rank new_rank : string) :
  is_sentinel old_rank = true → choose_rank old_rank new_rank = old_rank.
Proof.
  intros Hs. unfold choose_rank. rewrite (sentinel_order _ _ Hs).
  pose proof (rank_order_range new_rank 0).
  destruct (Z.ltb_spec 13 (rank_order_get new_rank 0)); [lia | reflexivity].
Qed.

Lemma merged_record_display (old : PlayerRecord) (off deff played' wins' : Z)
    (rd ro ra : option string) :
  display (merged_record old off deff played' wins' rd ro ra) = display old.
Proof. unfold merged_record. by destruct (0 <? played old + played'). Qed.

Lemma loaded_record_display (l : Line) :
  display (loaded_record l) = l_disp l.
Proof.
  unfold loaded_record. by destruct (contains "zhong" (canonicalize (l_disp l))).
Qed.

(** X15. A merge never lowers a tier (in the order of [RANK_ORDER], unknown
    names counting as 0) and never replaces a sentinel tier; it keeps the
    destination's display name, and stores the average recomputed from the
    merged ratings. *)
Theorem merged_record_ranks (old : PlayerRecord) (off deff played' wins' : Z)
    (rd ro ra : option string) :
  let new := merged_record old off deff played' wins' rd ro ra in
  (rank_order_get (rank_d old) 0 ≤ rank_order_get (rank_d new) 0
   ∧ rank_order_get (rank_o old) 0 ≤ rank_order_get (rank_o new) 0
   ∧ rank_order_get (rank_a old) 0 ≤ rank_order_get (rank_a new) 0)
  ∧ (is_sentinel (rank_d old) = true → rank_d new = rank_d old)
  ∧ (is_sentinel (rank_o old) = true → rank_o new = rank_o old)
  ∧ (is_sentinel (rank_a old) = true → rank_a new = rank_a old)
  ∧ display new = display old
  ∧ avg new = round_div (offense new + defense new) 2.
Proof.
  simpl. unfold merged_record.
  destruct (0 <? played old + played'); simpl;
    rewrite !choose_rank_order;
    (split; [lia |]);
    repeat split; try (intros Hs; by apply choose_rank_sentinel).
Qed.

Lemma merged_record_ranks_witness :
  rank_d (merged_record
            (mkPlayer "Li Zhong" 100 100 1 1 100 HIDDEN_RANK "gold" "iron")
            2999 2999 50 50 (Some "ultra") None None)
    = HIDDEN_RANK.
Proof.
  destruct (merged_record_ranks
              (mkPlayer "Li Zhong" 100 100 1 1 100 HIDDEN_RANK "gold" "iron")
              2999 2999 50 50 (Some "ultra") None None)
    as (_ & Hd & _).
  apply Hd. reflexivity.
Defined.

Lemma weighted_between (a b p q lo hi : Z) :
  0 ≤ p → 0 ≤ q → 0 < p + q → lo ≤ a ≤ hi → lo ≤ b ≤ hi →
  lo ≤ round_div (a * p + b * q) (p + q) ≤ hi.
Proof.
  intros Hp Hq Ht Ha Hb. apply round_div_between; [exact Ht | nia].
Qed.

(** X16. When neither side has a negative games count and together they
    have played, each merged rating lies between the destination's and the
    source's rating; a source without games leaves the destination's
    ratings and games played as they are. *)
Theorem merged_record_between (old : PlayerRecord)
    (off deff played' wins' : Z) (rd ro ra : option string) :
  0 ≤ played old → 0 ≤ played' → 0 < played old + played' →
  let new := merged_record old off deff played' wins' rd ro ra in
  Z.min (offense old) off ≤ offense new ≤ Z.max (offense old) off
  ∧ Z.min (defense old) deff ≤ defense new ≤ Z.max (defense old) deff
  ∧ (played' = 0 →
     offense new = offense old ∧ defense new = defense old
     ∧ played new = played old).
Proof.
  intros Hp Hq Ht. simpl.
  destruct (merged_record_ratings old off deff played' wins' rd ro ra)
    as [Hpos _].
  destruct (Hpos Ht) as [-> ->].
  split; [apply weighted_between; lia |].
  split; [apply weighted_between; lia |].
  intros ->.
  destruct (merged_record_counters old off deff 0 wins' rd ro ra) as [-> _].
  rewrite !Z.mul_0_r, !Z.add_0_r.
  rewrite !round_div_exact by lia. done.
Qed.

Lemma merged_record_between_witness :
  offense (merged_record (mkPlayer "Bobby" 240 180 12 7 210 "copper" "bronze"
                                   "copper")
                         100 100 0 0 None None None) = 240
  ∧ played (merged_record (mkPlayer "Bobby" 240 180 12 7 210 "copper" "bronze"
                                    "copper")
                          100 100 0 0 None None None) = 12.
Proof.
  destruct (merged_record_between
              (mkPlayer "Bobby" 240 180 12 7 210 "copper" "bronze" "copper")
              100 100 0 0 None None None) as (_ & _ & H).
  - simpl. lia.
  - lia.
  - simpl. lia.
  - destruct (H eq_refl) as (Ho & _ & Hp). split; [exact Ho | exact Hp].
Defined.

(** X17. When the two sides together have played, merging is symmetric in
    what it computes from the numbers: merging B's values into A and A's
    values into B give the same ratings, average, games played and wins. *)
Theorem merged_record_symmetric (a b : PlayerRecord)
    (rd ro ra rd' ro' ra' : option string) :
  0 < played a + played b →
  let ab := merged_record a (offense b) (defense b) (played b) (wins b)
                          rd ro ra in
  let ba := merged_record b (offense a) (defense a) (played a) (wins a)
                          rd' ro' ra' in
  (offense ab, defense ab, avg ab, played ab, wins ab)
    = (offense ba, defense ba, avg ba, played ba, wins ba).
Proof.
  intros Ht. simpl. unfold merged_record.
  replace (played b + played a) with (played a + played b) by lia.
  destruct (Z.ltb_spec 0 (played a + played b)) as [_ | Hle]; [| lia].
  simpl.
  replace (offense b * played b + offense a * played a)
    with (offense a * played a + offense b * played b) by lia.
  replace (defense b * played b + defense a * played a)
    with (defense a * played a + defense b * played b) by lia.
  replace (wins b + wins a) with (wins a + wins b) by lia.
  reflexivity.
Qed.

Lemma merged_record_symmetric_witness :
  offense (merged_record (mkPlayer "A" 200 200 10 5 200 "copper" "copper"
                                   "copper")
                         300 300 5 0 None None None)
    = offense (merged_record (mkPlayer "B" 300 300 5 0 300 "silver" "silver"
                                       "silver")
                             200 200 10 5 None None None).
Proof.
  pose proof (merged_record_symmetric
                (mkPlayer "A" 200 200 10 5 200 "copper" "copper" "copper")
                (mkPlayer "B" 300 300 5 0 300 "silver" "silver" "silver")
                None None None None None None ltac:(simpl; lia)) as H.
  cbv zeta in H. exact (f_equal (λ t, t.1.1.1.1) H).
Defined.

(** ** More on consolidation *)

Lemma combine_rejected_run (command : string) (w : world) :
  (match_combine command = None
   ∨ ∃ g1 g2, match_combine command = Some (g1, g2)
              ∧ (players w !! canonicalize (strip g1) = None
                 ∨ players w !! canonicalize (strip g2) = None)) →
  ∃ line,
    process_combine_command command w
      = (Ok (), World (players w) (stdout w ++ [Print line])).
Proof.
  unfold process_combine_command.
  intros [-> | (g1 & g2 & -> & Hmiss)]; [eexists; reflexivity |].
  cbv zeta. rewrite bind_run. simpl.
  destruct (players w !! canonicalize (strip g1)) as [src |] eqn:Es;
    [| eexists; reflexivity].
  destruct Hmiss as [Hmiss | ->]; [discriminate |].
  eexists. reflexivity.
Qed.

(** X18. A consolidation command that does not have the form
    [combine a to b], or that names a source or a destination that is not
    in the registry, prints one line and leaves the registry as it was. *)
Theorem combine_rejected (command : string) (w : world) :
  (match_combine command = None
   ∨ ∃ g1 g2, match_combine command = Some (g1, g2)
              ∧ (players w !! canonicalize (strip g1) = None
                 ∨ players w !! canonicalize (strip g2) = None)) →
  ∃ line,
    process_combine_command command w
      = (Ok (), World (players w) (stdout w ++ [Print line])).
Proof. apply combine_rejected_run. Qed.

Lemma combine_rejected_witness :
  ∃ line,
    process_combine_command "combine bob to bobby"
      (World {[ "bobby" := mkPlayer "Bobby" 240 180 12 7 210 "copper"
                                    "bronze" "copper" ]} [])
    = (Ok (),
       World {[ "bobby" := mkPlayer "Bobby" 240 180 12 7 210 "copper"
                                    "bronze" "copper" ]} [Print line]).
Proof.
  destruct (combine_rejected "combine bob to bobby"
              (World {[ "bobby" := mkPlayer "Bobby" 240 180 12 7 210 "copper"
                                            "bronze" "copper" ]} []))
    as [line H].
  - right. exists "bob", "bobby".
    split; [vm_compute; reflexivity |]. left. vm_compute. reflexivity.
  - exists line. exact H.
Defined.

(** X19. A consolidation of two different known players returns with the
    source key removed and the destination replaced by the merged record:
    the destination keeps its display name, games played and wins are the
    sums, every other record is untouched and the registry has one record
    fewer.  Repeating the command is then rejected, with the registry
    unchanged. *)
Theorem combine_distinct (command g1 g2 : string) (src dest : PlayerRecord)
    (w : world) :
  match_combine command = Some (g1, g2) →
  canonicalize (strip g1) ≠ canonicalize (strip g2) →
  players w !! canonicalize (strip g1) = Some src →
  players w !! canonicalize (strip g2) = Some dest →
  ∃ merged line ps',
    process_combine_command command w
      = (Ok (), World ps' (stdout w ++ [Print line]))
    ∧ ps' !! canonicalize (strip g1) = None
    ∧ ps' !! canonicalize (strip g2) = Some merged
    ∧ display merged = display dest
    ∧ played merged = played dest + played src
    ∧ wins merged = wins dest + wins src
    ∧ (∀ key, key ≠ canonicalize (strip g1) →
              key ≠ canonicalize (strip g2) →
              ps' !! key = players w !! key)
    ∧ S (size ps') = size (players w)
    ∧ ∃ line',
        process_combine_command command
          (World ps' (stdout w ++ [Print line]))
        = (Ok (), World ps' ((stdout w ++ [Print line]) ++ [Print line'])).
Proof.
  intros Hm Hne Hs Hd.
  set (ks := canonicalize (strip g1)) in *.
  set (kd := canonicalize (strip g2)) in *.
  set (merged := merged_record dest (offense src) (defense src) (played src)
                               (wins src) None None None).
  exists merged. eexists. exists (delete ks (<[kd := merged]> (players w))).
  assert (Hgone : delete ks (<[kd := merged]> (players w)) !! ks = None)
    by apply lookup_delete_eq.
  split.
  { unfold process_combine_command. rewrite Hm. cbv zeta. fold ks kd.
    rewrite bind_run. simpl. rewrite Hs, Hd.
    rewrite (bind_ok _ _ _ _ _
               (merge_record_run kd (display dest) (offense src) (defense src)
                  (played src) (wins src) None None None dest w Hd)).
    fold merged.
    erewrite bind_ok;
      [| apply (delete_player_run ks src); simpl;
         by rewrite lookup_insert_ne].
    reflexivity. }
  split; [exact Hgone |].
  split; [by rewrite lookup_delete_ne, lookup_insert_eq |].
  destruct (merged_record_counters dest (offense src) (defense src)
              (played src) (wins src) None None None) as [Hp Hw].
  split; [apply merged_record_display |].
  split; [exact Hp |]. split; [exact Hw |].
  split; [| split].
  - intros key H1 H2. by rewrite lookup_delete_ne, lookup_insert_ne.
  - rewrite map_size_delete, lookup_insert_ne, Hs by (by apply not_eq_sym).
    rewrite map_size_insert_Some by eauto.
    destruct (size (players w)) as [| n] eqn:Esize; [| reflexivity].
    apply map_size_empty_inv in Esize. rewrite Esize in Hs.
    by rewrite lookup_empty in Hs.
  - apply combine_rejected_run. right. exists g1, g2.
    split; [exact Hm |]. left. exact Hgone.
Qed.

Lemma combine_distinct_witness :
  ∃ merged line ps',
    process_combine_command "combine bob to Bobby."
      (World {[ "bob" := mkPlayer "bob" 100 100 0 0 100 "iron" "iron" "iron";
                "bobby" := mkPlayer "Bobby" 240 180 12 7 210 "copper"
                                    "bronze" "copper" ]} [])
    = (Ok (), World ps' [Print line])
    ∧ ps' !! "bob" = None
    ∧ ps' !! "bobby" = Some merged
    ∧ display merged = "Bobby"
    ∧ played merged = 12 + 0.
Proof.
  destruct (combine_distinct "combine bob to Bobby." "bob" "Bobby"
              (mkPlayer "bob" 100 100 0 0 100 "iron" "iron" "iron")
              (mkPlayer "Bobby" 240 180 12 7 210 "copper" "bronze" "copper")
              (World {[ "bob" := mkPlayer "bob" 100 100 0 0 100 "iron" "iron"
                                          "iron";
                        "bobby" := mkPlayer "Bobby" 240 180 12 7 210 "copper"
                                            "bronze" "copper" ]} []))
    as (merged & line & ps' & Hrun & H1 & H2 & H3 & H4 & _).
  - vm_compute. reflexivity.
  - vm_compute. discriminate.
  - vm_compute. reflexivity.
  - vm_compute. reflexivity.
  - exists merged, line, ps'. repeat split; assumption.
Defined.

(** ** Invariants of a session *)

Lemma load_line_run (l : Line) (w : world) :
  load_line l w =
  match players w !! canonicalize (l_disp l) with
  | Some _ =>
      merge_record (canonicalize (l_disp l)) (l_disp l) (l_off l) (l_deff l)
                   (l_played l) (loaded_wins l)
                   (l_rank_d l) (l_rank_o l) (l_rank_a l) w
  | None =>
      (Ok (),
       World (<[canonicalize (l_disp l) := loaded_record l]> (players w))
             (stdout w))
  end.
Proof.
  unfold load_line. rewrite bind_run. simpl.
  destruct (players w !! canonicalize (l_disp l)); reflexivity.
Qed.

Lemma update_rating_in_bounds (curr_rating score : Z) (opp : option R)
    (multiplier : R) (new_rating : Z) (change : R) :
  update_rating curr_rating score opp multiplier = Ok (new_rating, change) →
  RATING_MIN ≤ new_rating ≤ RATING_MAX.
Proof.
  unfold update_rating, adjust_opponent_rating.
  destruct opp as [o |]; [| discriminate].
  destruct (Py.ltb _ 0 && (curr_rating <=? RATING_MIN)); intros [= <- _].
  - unfold RATING_MIN, RATING_MAX. lia.
  - apply clamp_rating_bounds.
Qed.

Section Keeps.
Context (I : gmap string PlayerRecord → Prop).

Lemma keeps_ret {A} (a : A) : keeps I (mret a).
Proof. intros w H. exact H. Qed.

Lemma keeps_print (e : event) : keeps I (print e).
Proof. intros w H. exact H. Qed.

Lemma keeps_get_players : keeps I get_players.
Proof. intros w H. exact H. Qed.

Lemma keeps_bind {A B} (m : M A) (f : A → M B) :
  keeps I m → (∀ a, keeps I (f a)) → keeps I (m ≫= f).
Proof.
  intros Hm Hf w Hw. specialize (Hm w Hw).
  unfold exec in *. rewrite bind_run.
  destruct (m w) as [[a | e] w']; simpl in Hm; [by apply Hf | exact Hm].
Qed.

Lemma keeps_lift_bind {A B} (o : outcome A) (f : A → M B) :
  (∀ a, o = Ok a → keeps I (f a)) → keeps I (lift o ≫= f).
Proof.
  intros Hf w Hw. unfold exec. rewrite bind_run. unfold lift.
  destruct o as [a | e]; [by apply Hf | exact Hw].
Qed.

Lemma keeps_for_each {A} (xs : list A) (body : A → M unit) :
  (∀ x, keeps I (body x)) → keeps I (for_each xs body).
Proof.
  intros Hb. induction xs as [| x rest IH]; simpl.
  - apply keeps_ret.
  - apply keeps_bind; [apply Hb | intros _; exact IH].
Qed.

Lemma keeps_map_M {A B} (xs : list A) (body : A → M B) :
  (∀ x, keeps I (body x)) → keeps I (map_M xs body).
Proof.
  intros Hb. induction xs as [| x rest IH]; simpl.
  - apply keeps_ret.
  - apply keeps_bind; [apply Hb |]. intros y.
    apply keeps_bind; [exact IH |]. intros ys. apply keeps_ret.
Qed.

Lemma keeps_ext {A} (m m' : M A) :
  (∀ w, m w = m' w) → keeps I m' → keeps I m.
Proof. intros E H w Hw. unfold exec. rewrite E. by apply H. Qed.

Lemma keeps_lookup_player (key : string) : keeps I (lookup_player key).
Proof.
  intros w Hw. unfold exec.
  destruct (players w !! key) as [r |] eqn:E.
  - by rewrite (lookup_player_run key r w E).
  - by rewrite (lookup_player_missing key w E).
Qed.
End Keeps.

Section RecordInvariant.
(** A property [P key record] of the records, and a property [L] of the
    snapshot lines, with what the operations need to keep [P]. *)
Context (P : string → PlayerRecord → Prop) (L : Line → Prop).

Hypothesis P_new :
  ∀ name, P (canonicalize name) (new_player name (canonicalize name)).
Hypothesis P_rating :
  ∀ key r ro v,
    P key r → RATING_MIN ≤ v ≤ RATING_MAX → P key (role_set ro v r).
Hypothesis P_lost :
  ∀ key r, P key r → P key (set_played (played r + 1) r).
Hypothesis P_won :
  ∀ key r,
    P key r →
    P key (set_wins (wins (set_played (played r + 1) r) + 1)
                    (set_played (played r + 1) r)).
Hypothesis P_avg : ∀ key r, P key r → P key (recompute_avg r).
Hypothesis P_ranks : ∀ key r, P key r → P key (recompute_ranks r).
Hypothesis P_combine :
  ∀ kd ks dest src,
    P kd dest → P ks src →
    P kd (merged_record dest (offense src) (defense src) (played src)
                        (wins src) None None None).
Hypothesis P_loaded :
  ∀ l, L l → P (canonicalize (l_disp l)) (loaded_record l).
Hypothesis P_load_merged :
  ∀ l old,
    L l → P (canonicalize (l_disp l)) old →
    P (canonicalize (l_disp l))
      (merged_record old (l_off l) (l_deff l) (l_played l) (loaded_wins l)
                     (l_rank_d l) (l_rank_o l) (l_rank_a l)).

Local Abbreviation inv := (map_Forall P).

Lemma keeps_modify_player (key : string) (f : PlayerRecord → PlayerRecord) :
  (∀ r, P key r → P key (f r)) → keeps inv (modify_player key f).
Proof.
  intros Hf w Hw. unfold exec.
  destruct (players w !! key) as [r |] eqn:E.
  - rewrite (modify_player_run key f r w E). simpl.
    apply map_Forall_insert_2; [| exact Hw]. apply Hf. by eapply Hw.
  - by rewrite (modify_player_missing key f w E).
Qed.

Lemma keeps_get_or_create_player (name : string) :
  keeps inv (get_or_create_player name).
Proof.
  intros w Hw. unfold exec. rewrite get_or_create_player_run. simpl.
  destruct (players w !! canonicalize name); [exact Hw |]. simpl.
  apply map_Forall_insert_2; [apply P_new | exact Hw].
Qed.

Lemma keeps_find_player {A} (name : string)
    (k : string → PlayerRecord → M A) :
  (∀ key r, keeps inv (k key r)) →
  keeps inv (key ← get_or_create_player name;
             player ← lookup_player key; k key player).
Proof.
  intros Hk. apply keeps_bind; [apply keeps_get_or_create_player |].
  intros key. apply keeps_bind; [apply keeps_lookup_player |].
  intros r. apply Hk.
Qed.

Lemma keeps_save_data : keeps inv save_data.
Proof.
  unfold save_data.
  apply keeps_bind; [apply keeps_get_players |]. intros ps.
  apply keeps_for_each. intros key.
  apply keeps_bind; [| intros _]; apply keeps_modify_player.
  - apply P_avg.
  - apply P_ranks.
Qed.

Lemma keeps_opponent_reference (first second : list string)
    (ro1 ro2 : role) :
  keeps inv (opponent_reference first ro1 second ro2).
Proof.
  assert (H : ∀ names ro, keeps inv (get_average_rating names ro)).
  { intros names ro. unfold get_average_rating.
    destruct names as [| n rest]; [apply keeps_ret |].
    apply keeps_bind; [| intros; apply keeps_ret].
    apply keeps_map_M. intros name.
    apply keeps_find_player. intros; apply keeps_ret. }
  unfold opponent_reference. destruct first; apply H.
Qed.

Lemma keeps_expected_rates (names : list string) (ro : role)
    (opp : option R) :
  keeps inv (expected_rates names ro opp).
Proof.
  unfold expected_rates. apply keeps_map_M. intros name.
  apply keeps_find_player. intros key r.
  apply keeps_lift_bind. intros rate _.
  apply keeps_bind; [apply keeps_print |]. intros _. apply keeps_ret.
Qed.

Lemma keeps_display_names (names : list string) :
  keeps inv (display_names names).
Proof.
  unfold display_names.
  apply keeps_bind; [| intros; apply keeps_ret].
  apply keeps_map_M. intros name.
  apply keeps_find_player. intros; apply keeps_ret.
Qed.

Lemma keeps_rate_players (names : list string) (ro : role) (winner : bool)
    (opp : option R) (base_multiplier : R) :
  keeps inv (rate_players names ro winner opp base_multiplier).
Proof.
  unfold rate_players. apply keeps_for_each. intros name.
  apply keeps_find_player. intros key r.
  apply keeps_lift_bind. intros [new_rating change] Hup.
  apply update_rating_in_bounds in Hup.
  apply keeps_bind; [apply keeps_print |]. intros _.
  apply keeps_bind.
  { apply keeps_modify_player. intros r0 H0. by apply P_rating. }
  intros _. destruct winner.
  - eapply keeps_ext; [apply modify_player_twice |].
    apply keeps_modify_player. intros r0 H0. by apply P_won.
  - apply keeps_bind; [| intros; apply keeps_ret].
    apply keeps_modify_player. intros r0 H0. by apply P_lost.
Qed.

Lemma keeps_process_game (command : string) :
  keeps inv (process_game command).
Proof.
  unfold process_game.
  destruct (match_game command) as [[[team1_str win_type] team2_str] |];
    [| apply keeps_print].
  cbv zeta.
  destruct (WIN_TYPE_MULTIPLIERS !! lower win_type) as [base_multiplier |];
    [| apply keeps_print].
  destruct (parse_team team1_str) as [team1_off team1_def].
  destruct (parse_team team2_str) as [team2_off team2_def].
  apply keeps_bind.
  { apply keeps_for_each. intros name.
    apply keeps_bind; [apply keeps_get_or_create_player |].
    intros; apply keeps_ret. }
  intros _.
  repeat (apply keeps_bind; [apply keeps_opponent_reference |]; intros ?).
  repeat (apply keeps_bind; [apply keeps_print |]; intros _).
  repeat (apply keeps_bind; [apply keeps_expected_rates |]; intros ?).
  repeat (apply keeps_bind; [apply keeps_display_names |]; intros ?).
  repeat (apply keeps_bind; [apply keeps_print |]; intros _).
  repeat (apply keeps_bind; [apply keeps_rate_players |]; intros _).
  apply keeps_save_data.
Qed.

Lemma keeps_process_combine_command (command : string) :
  keeps inv (process_combine_command command).
Proof.
  intros w Hw. unfold exec.
  destruct (match_combine command) as [[g1 g2] |] eqn:Hm.
  2: { destruct (combine_rejected_run command w) as [line ->]; [by left |].
       exact Hw. }
  destruct (players w !! canonicalize (strip g1)) as [src |] eqn:Es.
  2: { destruct (combine_rejected_run command w) as [line ->]; [| exact Hw].
       right. exists g1, g2. split; [exact Hm | by left]. }
  destruct (players w !! canonicalize (strip g2)) as [dest |] eqn:Ed.
  2: { destruct (combine_rejected_run command w) as [line ->]; [| exact Hw].
       right. exists g1, g2. split; [exact Hm | by right]. }
  unfold process_combine_command. rewrite Hm. cbv zeta.
  rewrite bind_run. simpl. rewrite Es, Ed.
  rewrite (bind_ok _ _ _ _ _
             (merge_record_run _ (display dest) (offense src) (defense src)
                (played src) (wins src) None None None dest w Ed)).
  set (ps1 := <[canonicalize (strip g2) :=
                  merged_record dest (offense src) (defense src)
                    (played src) (wins src) None None None]> (players w)).
  assert (H1 : inv ps1).
  { apply map_Forall_insert_2; [| exact Hw].
    eapply P_combine; [exact (Hw _ _ Ed) | exact (Hw _ _ Es)]. }
  rewrite bind_run.
  destruct (ps1 !! canonicalize (strip g1)) as [r |] eqn:E1.
  - erewrite delete_player_run by (simpl; exact E1). simpl.
    apply map_Forall_delete. exact H1.
  - unfold delete_player.
    erewrite bind_raise by (apply lookup_player_missing; simpl; exact E1).
    exact H1.
Qed.

Lemma keeps_load_data (file : list string) :
  lines_satisfy L file → keeps inv (load_data file).
Proof.
  intros Hwf. unfold load_data.
  induction Hwf as [| line rest Hl _ IH]; simpl; [apply keeps_ret |].
  apply keeps_bind; [| intros _; exact IH].
  destruct (parse_line line) as [l |] eqn:E; [| apply keeps_ret].
  specialize (Hl l eq_refl).
  intros w Hw. unfold exec. rewrite load_line_run.
  destruct (players w !! canonicalize (l_disp l)) as [old |] eqn:Eo.
  - rewrite (merge_record_run _ _ _ _ _ _ _ _ _ old w Eo). simpl.
    apply map_Forall_insert_2; [| exact Hw].
    apply P_load_merged; [exact Hl | exact (Hw _ _ Eo)].
  - simpl. apply map_Forall_insert_2; [by apply P_loaded | exact Hw].
Qed.

Lemma keeps_main_loop (inputs : list string) : keeps inv (main_loop inputs).
Proof.
  induction inputs as [| line rest IH]; simpl; [apply keeps_ret |].
  apply keeps_bind; [| intros [|]; [exact IH | apply keeps_ret]].
  unfold handle. cbv zeta.
  repeat match goal with
         | |- keeps _ (if ?b then _ else _) => destruct b
         end;
    try apply keeps_ret;
    (apply keeps_bind; [| intros; apply keeps_ret]).
  - apply keeps_save_data.
  - apply keeps_process_combine_command.
  - apply keeps_process_game.
Qed.

(** Every record of every state of a session satisfies [P]. *)
Lemma session_invariant (file inputs : list string) (key : string)
    (r : PlayerRecord) :
  lines_satisfy L file →
  players (exec (session file inputs) (World ∅ [])) !! key = Some r →
  P key r.
Proof.
  intros Hwf Hk.
  assert (H : inv (players (exec (session file inputs) (World ∅ [])))).
  { apply (keeps_bind (map_Forall P) (load_data file)
                      (λ _, main_loop inputs)).
    - by apply keeps_load_data.
    - intros _. apply keeps_main_loop.
    - apply map_Forall_empty. }
  exact (H key r Hk).
Qed.
End RecordInvariant.

(** X20. In every state of a session, every record is stored under the
    canonical key of its own display name; so no two records of the
    registry have the same display name. *)
Theorem keys_are_canonical (file inputs : list string) :
  let ps := players (exec (session file inputs) (World ∅ [])) in
  (∀ key r, ps !! key = Some r → key = canonicalize (display r))
  ∧ (∀ key1 key2 r1 r2,
       ps !! key1 = Some r1 → ps !! key2 = Some r2 →
       display r1 = display r2 → key1 = key2).
Proof.
  simpl.
  assert (H : ∀ key r,
            players (exec (session file inputs) (World ∅ [])) !! key = Some r →
            key = canonicalize (display r)).
  { intros key r.
    apply (session_invariant (λ key r, key = canonicalize (display r))
                             (λ _, True)).
    - intros name. unfold new_player.
      by destruct (contains "zhong" (canonicalize name)).
    - intros k r0 ro v -> _. by destruct ro.
    - by intros k r0 ->.
    - by intros k r0 ->.
    - by intros k r0 ->.
    - by intros k r0 ->.
    - intros kd ks dest src -> _. by rewrite merged_record_display.
    - intros l _. by rewrite loaded_record_display.
    - intros l old _ Hold. rewrite merged_record_display. exact Hold.
    - unfold lines_satisfy. apply Forall_forall. done. }
  split; [exact H |].
  intros key1 key2 r1 r2 H1 H2 Hd.
  rewrite (H _ _ H1), (H _ _ H2). by rewrite Hd.
Qed.

Lemma keys_are_canonical_witness :
  ∃ r,
    players
      (exec (session [ "John Smith, 200, 200, 10, 50.";
                       "johnsmith, 300, 300, 5, 0.";
                       "Bob, 150, 120, 4, 75." ]
                     [ "combine bob to John Smith."; "exit" ])
            (World ∅ []))
      !! "johnsmith" = Some r
    ∧ display r = "John Smith"
    ∧ "johnsmith" = canonicalize (display r).
Proof.
  eexists. split; [vm_compute; reflexivity |]. split; [reflexivity |].
  destruct (keys_are_canonical
              [ "John Smith, 200, 200, 10, 50.";
                "johnsmith, 300, 300, 5, 0.";
                "Bob, 150, 120, 4, 75." ]
              [ "combine bob to John Smith."; "exit" ]) as [H _].
  apply H. vm_compute. reflexivity.
Defined.

Lemma updated_rank_hidden (new_val : string) :
  updated_rank HIDDEN_RANK new_val = HIDDEN_RANK.
Proof. reflexivity. Qed.

Lemma choose_rank_hidden (new_rank : string) :
  choose_rank HIDDEN_RANK new_rank = HIDDEN_RANK.
Proof. by apply choose_rank_sentinel. Qed.

Lemma merged_record_hidden (old : PlayerRecord) (off deff played' wins' : Z)
    (rd ro ra : option string) :
  hidden old → hidden (merged_record old off deff played' wins' rd ro ra).
Proof.
  intros (Hd & Ho & Ha). unfold hidden, merged_record.
  destruct (0 <? played old + played'); simpl;
    rewrite Hd, Ho, Ha, !choose_rank_hidden; done.
Qed.

(** X21. In every state of a session, a record whose key contains "zhong"
    has the hidden sentinel as all three ranks: neither a match, nor a
    rank recomputation, nor a merge, nor the rank tokens of the snapshot
    ever give it another rank. *)
Theorem hidden_identity_stays_hidden (file inputs : list string)
    (key : string) (r : PlayerRecord) :
  players (exec (session file inputs) (World ∅ [])) !! key = Some r →
  contains "zhong" key = true →
  rank_d r = HIDDEN_RANK ∧ rank_o r = HIDDEN_RANK ∧ rank_a r = HIDDEN_RANK.
Proof.
  intros Hk.
  apply (session_invariant
           (λ key r, contains "zhong" key = true → hidden r) (λ _, True)
           ) with file inputs; [..| exact Hk].
  - intros name Hz. unfold new_player. by rewrite Hz.
  - intros k r0 ro v H _ Hz. specialize (H Hz). by destruct ro.
  - intros k r0 H Hz. exact (H Hz).
  - intros k r0 H Hz. exact (H Hz).
  - intros k r0 H Hz. exact (H Hz).
  - intros k r0 H Hz. destruct (H Hz) as (Hd & Ho & Ha).
    unfold hidden, recompute_ranks. simpl.
    by rewrite Hd, Ho, Ha, !updated_rank_hidden.
  - intros kd ks dest src H _ Hz. apply merged_record_hidden. exact (H Hz).
  - intros l _ Hz. unfold loaded_record. by rewrite Hz.
  - intros l old _ H Hz. apply merged_record_hidden. exact (H Hz).
  - unfold lines_satisfy. apply Forall_forall. done.
Qed.

Lemma hidden_identity_stays_hidden_witness :
  ∃ r,
    players
      (exec (session [ "Li Zhong, 2999, 2999, 40, 90, 2999, ultra, ultra, ultra." ]
                     [ "combine nobody to Li Zhong"; "exit" ])
            (World ∅ []))
      !! "lizhong" = Some r
    ∧ rank_d r = HIDDEN_RANK ∧ rank_o r = HIDDEN_RANK ∧ rank_a r = HIDDEN_RANK.
Proof.
  eexists. split; [vm_compute; reflexivity |].
  apply (hidden_identity_stays_hidden
           [ "Li Zhong, 2999, 2999, 40, 90, 2999, ultra, ultra, ultra." ]
           [ "combine nobody to Li Zhong"; "exit" ] "lizhong").
  - vm_compute. reflexivity.
  - vm_compute. reflexivity.
Defined.

Lemma merged_record_ratings_ok (old : PlayerRecord)
    (off deff played' wins' : Z) (rd ro ra : option string) :
  0 ≤ played old → 0 ≤ played' →
  ratings_ok old →
  RATING_MIN ≤ off ≤ RATING_MAX → RATING_MIN ≤ deff ≤ RATING_MAX →
  ratings_ok (merged_record old off deff played' wins' rd ro ra).
Proof.
  intros Hp Hp' [Ho Hd] Hoff Hdeff. unfold ratings_ok.
  destruct (merged_record_ratings old off deff played' wins' rd ro ra)
    as [Hpos Hzero].
  destruct (Z.lt_ge_cases 0 (played old + played')) as [Ht | Ht].
  - destruct (Hpos Ht) as [-> ->].
    split; apply weighted_between; lia.
  - destruct (Hzero Ht) as [-> ->]. done.
Qed.

Lemma merged_record_played (old : PlayerRecord)
    (off deff played' wins' : Z) (rd ro ra : option string) :
  played (merged_record old off deff played' wins' rd ro ra)
  = played old + played'.
Proof.
  unfold merged_record. cbv zeta.
  by destruct (0 <? played old + played').
Qed.

(** X22. In a session that loads a snapshot whose lines have ratings within
    100..2999, a games count that is not negative and a win percentage in
    0..100, the offense and defense ratings of every record stay within
    RATING_MIN..RATING_MAX in every state. *)
Theorem ratings_stay_in_bounds (file inputs : list string) (key : string)
    (r : PlayerRecord) :
  lines_satisfy
    (λ l, 0 ≤ l_played l ∧ 0 ≤ l_win_rate l ≤ 100
          ∧ RATING_MIN ≤ l_off l ≤ RATING_MAX
          ∧ RATING_MIN ≤ l_deff l ≤ RATING_MAX) file →
  players (exec (session file inputs) (World ∅ [])) !! key = Some r →
  RATING_MIN ≤ offense r ≤ RATING_MAX ∧ RATING_MIN ≤ defense r ≤ RATING_MAX.
Proof.
  intros Hfile Hk.
  cut (0 ≤ played r ∧ ratings_ok r); [intros [_ H]; exact H |].
  apply (session_invariant
           (λ _ r, 0 ≤ played r ∧ ratings_ok r)
           (λ l, 0 ≤ l_played l ∧ 0 ≤ l_win_rate l ≤ 100
                 ∧ RATING_MIN ≤ l_off l ≤ RATING_MAX
                 ∧ RATING_MIN ≤ l_deff l ≤ RATING_MAX)
           ) with file inputs key; [..| exact Hfile | exact Hk].
  - intros name. unfold new_player, ratings_ok.
    destruct (contains "zhong" (canonicalize name)); simpl;
      unfold RATING_MIN, RATING_MAX; lia.
  - intros k r0 ro v [Hc Hr] Hv. split; [by destruct ro |].
    destruct Hr as [Ho Hd]. destruct ro; split; simpl; assumption.
  - intros k r0 [H0 Hr]. split; [| exact Hr]. simpl. lia.
  - intros k r0 [H0 Hr]. split; [| exact Hr]. simpl. lia.
  - intros k r0 H. exact H.
  - intros k r0 H. exact H.
  - intros kd ks dest src [Hpd Hrd] [Hps [Hso Hsd]]. split.
    + rewrite merged_record_played. lia.
    + apply merged_record_ratings_ok; (assumption || lia).
  - intros l (Hp & Hw & Ho & Hd).
    unfold loaded_record, ratings_ok.
    destruct (contains "zhong" (canonicalize (l_disp l))); simpl; lia.
  - intros l old (Hp & Hw & Ho & Hd) [Hc Hr].
    split.
    + rewrite merged_record_played. lia.
    + apply merged_record_ratings_ok; assumption.
Qed.

Lemma ratings_stay_in_bounds_witness :
  ∃ r,
    players
      (exec (session [ "John Smith, 200, 200, 10, 50.";
                       "johnsmith, 2999, 300, 5, 0.";
                       "Bob, 150, 120, 4, 75." ]
                     [ "combine bob to John Smith."; "exit" ])
            (World ∅ []))
      !! "johnsmith" = Some r
    ∧ RATING_MIN ≤ offense r ≤ RATING_MAX.
Proof.
  eexists. split; [vm_compute; reflexivity |].
  apply (ratings_stay_in_bounds
           [ "John Smith, 200, 200, 10, 50.";
             "johnsmith, 2999, 300, 5, 0.";
             "Bob, 150, 120, 4, 75." ]
           [ "combine bob to John Smith."; "exit" ] "johnsmith").
  - repeat (apply Forall_cons_2;
              [intros l H; vm_compute in H; injection H as <-;
               unfold RATING_MIN, RATING_MAX; simpl; lia |]).
    apply Forall_nil_2.
  - vm_compute. reflexivity.
Defined.

(** ** What a match command does to the registry *)




























(** ** Matches that run to the end *)

Lemma update_rating_some (curr_rating score : Z) (opp multiplier : R) :
  ∃ new_rating change,
    update_rating curr_rating score (Some opp) multiplier
      = Ok (new_rating, change).
Proof.
  unfold update_rating, adjust_opponent_rating.
  destruct (Py.ltb _ 0 && (curr_rating <=? RATING_MIN)); eauto.
Qed.

(** One turn of a rating loop, from the state in which the player has been
    looked up or created. *)
Lemma rate_player_run (name : string) (ro : role) (winner : bool)
    (opp multiplier : R) (w : world) :
  ∃ r new_rating change,
    players (exec (get_or_create_player name) w) !! canonicalize name = Some r
    ∧ update_rating (role_get ro r) (if winner then 1 else 0) (Some opp)
                    multiplier = Ok (new_rating, change)
    ∧ rate_players [name] ro winner (Some opp) multiplier w
      = (Ok (),
         World (<[canonicalize name :=
                    counted winner (role_set ro new_rating r)]>
                  (players (exec (get_or_create_player name) w)))
               (stdout w
                ++ [PrintChange (display r) (role_name ro) (role_get ro r)
                                new_rating change])).
Proof.
  destruct (get_or_create_player_present name w) as [r Hr].
  destruct (update_rating_some (role_get ro r) (if winner then 1 else 0)
              opp multiplier) as (n & c & Hu).
  exists r, n, c. split; [exact Hr |]. split; [exact Hu |].
  unfold rate_players. rewrite for_each_cons.
  set (w1 := (get_or_create_player name w).2) in *.
  assert (E1 : get_or_create_player name w = (Ok (canonicalize name), w1)).
  { subst w1. by rewrite get_or_create_player_run. }
  assert (Hout : stdout w1 = stdout w).
  { subst w1. rewrite get_or_create_player_run. simpl.
    by destruct (players w !! canonicalize name). }
  unfold exec. fold w1.
  rewrite bind_run. rewrite (bind_ok _ _ _ _ _ E1).
  rewrite (bind_ok _ _ _ _ _ (lookup_player_run _ _ _ Hr)).
  rewrite bind_run. unfold lift. rewrite Hu.
  rewrite bind_run. unfold print at 1.
  erewrite bind_ok by (apply (modify_player_run _ _ r); exact Hr).
  erewrite bind_ok
    by (apply (modify_player_run _ _ (role_set ro n r)); simpl;
        apply lookup_insert_eq).
  simpl. rewrite Hout.
  destruct winner.
  - erewrite modify_player_run by (simpl; apply lookup_insert_eq).
    simpl. by rewrite !insert_insert_eq.
  - simpl. by rewrite !insert_insert_eq.
Qed.

Lemma rate_players_returns (names : list string) (ro : role) (winner : bool)
    (opp multiplier : R) :
  returns (rate_players names ro winner (Some opp) multiplier).
Proof.
  induction names as [| name rest IH]; intros w; [by eexists _, _ |].
  destruct (rate_player_run name ro winner opp multiplier w)
    as (r & n & c & _ & _ & E).
  unfold rate_players in *. rewrite for_each_cons.
  rewrite for_each_cons in E.
  match type of E with
  | (?body ≫= _) w = (Ok (), ?w1) =>
      assert (Eb : ∃ w2, body w = (Ok (), w2))
  end.
  { rewrite bind_run in E.
    match type of E with
    | context [match ?x with _ => _ end] => destruct x as [[[] | e] w2]
    end; [eauto | discriminate]. }
  destruct Eb as [w2 Eb]. rewrite (bind_ok _ _ _ _ _ Eb). apply IH.
Qed.

Lemma returns_lift_ok {A B} (a : A) (f : A → M B) :
  returns (f a) → returns (lift (Ok a) ≫= f).
Proof. intros H w. rewrite bind_run. apply H. Qed.

Lemma expected_rates_returns (names : list string) (ro : role) (opp : R) :
  returns (expected_rates names ro (Some opp)).
Proof.
  unfold expected_rates. apply returns_map_M. intros name.
  apply returns_find_player. intros key r.
  apply returns_lift_ok.
  apply returns_bind; [apply returns_print | intros; apply returns_ret].
Qed.

Lemma display_names_returns (names : list string) :
  returns (display_names names).
Proof.
  unfold display_names.
  apply returns_bind; [| intros; apply returns_ret].
  apply returns_map_M. intros name.
  apply returns_find_player. intros; apply returns_ret.
Qed.

Lemma save_data_returns : returns save_data.
Proof. intros w. rewrite save_data_run. by eexists _, _. Qed.

Lemma get_average_rating_some (names : list string) (ro : role) (w : world) :
  names ≠ [] →
  ∃ x w', get_average_rating names ro w = (Ok (Some x), w').
Proof.
  intros Hne. destruct names as [| n rest]; [done |].
  unfold get_average_rating.
  match goal with
  | |- context [map_M ?l ?body] =>
      destruct (returns_map_M l body) with (w := w) as (vals & w' & E)
  end.
  { intros name. apply returns_find_player. intros; apply returns_ret. }
  rewrite (bind_ok _ _ _ _ _ E). by eexists _, _.
Qed.

Lemma opponent_reference_some (first second : list string) (ro1 ro2 : role)
    (w : world) :
  first ++ second ≠ [] →
  ∃ x w', opponent_reference first ro1 second ro2 w = (Ok (Some x), w').
Proof.
  intros Hne. unfold opponent_reference.
  destruct first as [| n rest]; apply get_average_rating_some; [| done].
  by rewrite app_nil_l in Hne.
Qed.

(** X24. On a registry whose ratings are within the bounds, a match command
    in which both teams name at least one player runs to the end: it
    returns, and nothing is raised on the way. *)
Theorem match_with_two_teams_returns (command team1_str win_type team2_str
                                      : string) (w : world) :
  map_Forall (λ _ r, ratings_ok r) (players w) →
  match_game command = Some (team1_str, win_type, team2_str) →
  roster (parse_team team1_str) ≠ [] →
  roster (parse_team team2_str) ≠ [] →
  ∃ w', process_game command w = (Ok (), w').
Proof.
  intros _ Hm H1 H2.
  destruct (win_type_known _ (match_game_win_type _ _ _ _ Hm))
    as [base_multiplier Hmult].
  unfold process_game. rewrite Hm. cbv zeta. rewrite Hmult.
  unfold roster in H1, H2.
  destruct (parse_team team1_str) as [o1 d1].
  destruct (parse_team team2_str) as [o2 d2].
  simpl in H1, H2.
  assert (H1' : d1 ++ o1 ≠ []).
  { intros E. apply app_eq_nil in E as [-> ->]. done. }
  assert (H2' : d2 ++ o2 ≠ []).
  { intros E. apply app_eq_nil in E as [-> ->]. done. }
  destruct (create_all_returns (o1 ++ d1 ++ o2 ++ d2) w) as (u & w1 & E1).
  run_ok E1.
  destruct (opponent_reference_some d2 o2 Defense Offense w1 H2')
    as (x1 & w2 & E2).
  run_ok E2.
  destruct (opponent_reference_some o2 d2 Offense Defense w2 H2)
    as (x2 & w3 & E3).
  run_ok E3.
  destruct (opponent_reference_some d1 o1 Defense Offense w3 H1')
    as (x3 & w4 & E4).
  run_ok E4.
  destruct (opponent_reference_some o1 d1 Offense Defense w4 H1)
    as (x4 & w5 & E5).
  run_ok E5.
  match goal with
  | |- ∃ w', ?m w5 = (Ok (), w') =>
      assert (Hr : returns m)
  end.
  { repeat (apply returns_bind; [apply returns_print |]; intros _).
    repeat (apply returns_bind; [apply expected_rates_returns |]; intros ?).
    repeat (apply returns_bind; [apply display_names_returns |]; intros ?).
    repeat (apply returns_bind; [apply returns_print |]; intros _).
    repeat (apply returns_bind; [apply rate_players_returns |]; intros _).
    apply save_data_returns. }
  destruct (Hr w5) as ([] & w' & E). by exists w'.
Qed.

Lemma match_with_two_teams_returns_witness :
  ∃ w', process_game "alice, bob ; carl bigwin dave"
          (World ∅ []) = (Ok (), w').
Proof.
  apply (match_with_two_teams_returns "alice, bob ; carl bigwin dave"
           "alice, bob ; carl" "bigwin" "dave").
  - apply map_Forall_empty.
  - vm_compute. reflexivity.
  - vm_compute. discriminate.
  - vm_compute. discriminate.
Defined.

(** ** A match of one player against one *)

Lemma find_player_present {A} (name : string)
    (k : string → PlayerRecord → M A) (r : PlayerRecord) (w : world) :
  players w !! canonicalize name = Some r →
  (key ← get_or_create_player name; player ← lookup_player key; k key player) w
    = k (canonicalize name) r w.
Proof.
  intros H.
  assert (E : get_or_create_player name w = (Ok (canonicalize name), w)).
  { rewrite get_or_create_player_run. by rewrite H. }
  rewrite (bind_ok _ _ _ _ _ E).
  by rewrite (bind_ok _ _ _ _ _ (lookup_player_run _ _ _ H)).
Qed.

Lemma create_present (name : string) (r : PlayerRecord) (w : world) :
  players w !! canonicalize name = Some r →
  (get_or_create_player name;; mret ()) w = (Ok (), w).
Proof.
  intros H. rewrite bind_run, get_or_create_player_run. by rewrite H.
Qed.

Lemma average_single (name : string) (ro : role) (r : PlayerRecord)
    (w : world) :
  players w !! canonicalize name = Some r →
  get_average_rating [name] ro w = (Ok (Some (IZR (role_get ro r))), w).
Proof.
  intros H. unfold get_average_rating. rewrite map_M_cons.
  rewrite bind_run, bind_run. rewrite (find_player_present _ _ _ _ H).
  simpl.
  replace (IZR (sum_Z [role_get ro r]) / IZR (Z.of_nat 1))%R
    with (IZR (role_get ro r)); [reflexivity |].
  unfold sum_Z. cbn [fold_left]. rewrite Z.add_0_l.
  change (IZR (Z.of_nat 1)) with 1%R. lra.
Qed.

Lemma expected_rates_single (name : string) (ro : role) (opp : R)
    (r : PlayerRecord) (w : world) :
  players w !! canonicalize name = Some r →
  expected_rates [name] ro (Some opp) w
    = (Ok [(expected_score (role_get ro r) opp * 100)%R],
       World (players w)
             (stdout w ++ [PrintRate (display r) (role_letter ro)
                             (expected_score (role_get ro r) opp * 100)%R])).
Proof.
  intros H. unfold expected_rates. rewrite map_M_cons.
  rewrite bind_run. rewrite (find_player_present _ _ _ _ H). reflexivity.
Qed.

Lemma display_names_single (name : string) (r : PlayerRecord) (w : world) :
  players w !! canonicalize name = Some r →
  display_names [name] w = (Ok (join " + " [display r]), w).
Proof.
  intros H. unfold display_names. rewrite map_M_cons.
  rewrite bind_run, bind_run. rewrite (find_player_present _ _ _ _ H).
  reflexivity.
Qed.

Lemma rate_player_present (name : string) (ro : role) (winner : bool)
    (opp multiplier : R) (r : PlayerRecord) (new_rating : Z) (change : R)
    (w : world) :
  players w !! canonicalize name = Some r →
  update_rating (role_get ro r) (if winner then 1 else 0) (Some opp)
                multiplier = Ok (new_rating, change) →
  rate_players [name] ro winner (Some opp) multiplier w
    = (Ok (),
       World (<[canonicalize name :=
                  counted winner (role_set ro new_rating r)]> (players w))
             (stdout w
              ++ [PrintChange (display r) (role_name ro) (role_get ro r)
                              new_rating change])).
Proof.
  intros H Hu.
  destruct (rate_player_run name ro winner opp multiplier w)
    as (r' & n & c & Hr' & Hu' & E).
  assert (Ew : exec (get_or_create_player name) w = w).
  { unfold exec. rewrite get_or_create_player_run. by rewrite H. }
  rewrite Ew in Hr', E. rewrite H in Hr'. injection Hr' as <-.
  rewrite Hu in Hu'. injection Hu' as <- <-. exact E.
Qed.

Lemma rate_players_nil (ro : role) (winner : bool) (opp : option R)
    (multiplier : R) (w : world) :
  rate_players [] ro winner opp multiplier w = (Ok (), w).
Proof. reflexivity. Qed.

(** X25. A match of one existing player against another, both with ratings
    within the bounds: both rating changes are computed from the ratings
    before the match (the loser's change from the winner's old offense
    rating), only the offense ratings move, both records count the game and
    the winner's counts the win, the averages and ranks of the whole
    registry are recomputed, and no other record is touched otherwise. *)
Theorem single_match (command team1_str win_type team2_str : string)
    (winner loser : string) (rw rl : PlayerRecord) (multiplier : R)
    (w : world) :
  match_game command = Some (team1_str, win_type, team2_str) →
  WIN_TYPE_MULTIPLIERS !! lower win_type = Some multiplier →
  parse_team team1_str = ([winner], []) →
  parse_team team2_str = ([loser], []) →
  players w !! canonicalize winner = Some rw →
  players w !! canonicalize loser = Some rl →
  canonicalize winner ≠ canonicalize loser →
  ratings_ok rw → ratings_ok rl →
  ∃ new_w change_w new_l change_l w',
    update_rating (offense rw) 1 (Some (IZR (offense rl))) multiplier
      = Ok (new_w, change_w)
    ∧ update_rating (offense rl) 0 (Some (IZR (offense rw))) multiplier
      = Ok (new_l, change_l)
    ∧ process_game command w = (Ok (), w')
    ∧ players w'
      = refreshed <$>
          <[canonicalize loser := counted false (set_offense new_l rl)]>
            (<[canonicalize winner := counted true (set_offense new_w rw)]>
               (players w)).
Proof.
  intros Hm Hmult Hp1 Hp2 Hw Hl Hne _ _.
  destruct (update_rating_some (offense rw) 1 (IZR (offense rl)) multiplier)
    as (new_w & change_w & Uw).
  destruct (update_rating_some (offense rl) 0 (IZR (offense rw)) multiplier)
    as (new_l & change_l & Ul).
  exists new_w, change_w, new_l, change_l.
  unfold process_game. rewrite Hm. cbv zeta. rewrite Hmult, Hp1, Hp2.
  cbv beta iota.
  change ([winner] ++ [] ++ [loser] ++ []) with [winner; loser].
  change ([winner] ++ []) with [winner].
  change ([loser] ++ []) with [loser].
  destruct w as [ps out]. simpl in Hw, Hl.
  assert (E0 : for_each [winner; loser]
                 (λ name, get_or_create_player name;; mret ()) (World ps out)
               = (Ok (), World ps out)).
  { rewrite for_each_cons.
    rewrite (bind_ok _ _ _ _ _ (create_present winner rw (World ps out) Hw)).
    rewrite for_each_cons.
    rewrite (bind_ok _ _ _ _ _ (create_present loser rl (World ps out) Hl)).
    reflexivity. }
  run_ok E0.
  assert (El : ∀ out0, get_average_rating [loser] Offense (World ps out0)
                       = (Ok (Some (IZR (offense rl))), World ps out0)).
  { intros out0. apply (average_single loser Offense rl). exact Hl. }
  assert (Ew : ∀ out0, get_average_rating [winner] Offense (World ps out0)
                       = (Ok (Some (IZR (offense rw))), World ps out0)).
  { intros out0. apply (average_single winner Offense rw). exact Hw. }
  unfold opponent_reference.
  run_ok (El out). run_ok (El out). run_ok (Ew out). run_ok (Ew out).
  rewrite bind_run. unfold print at 1. cbv beta iota.
  rewrite bind_run. unfold print at 1. cbv beta iota.
  erewrite bind_ok
    by (apply (expected_rates_single winner Offense _ rw); exact Hw).
  rewrite (bind_ok _ _ _ _ _ (expected_rates_nil _ _ _)).
  erewrite bind_ok
    by (apply (expected_rates_single loser Offense _ rl); exact Hl).
  rewrite (bind_ok _ _ _ _ _ (expected_rates_nil _ _ _)).
  erewrite bind_ok by (apply (display_names_single winner rw); exact Hw).
  erewrite bind_ok by (apply (display_names_single loser rl); exact Hl).
  rewrite bind_run. unfold print at 1. cbv beta iota.
  rewrite bind_run. unfold print at 1. cbv beta iota.
  erewrite bind_ok
    by (apply (rate_player_present winner Offense true _ _ rw);
        [exact Hw | exact Uw]).
  rewrite (bind_ok _ _ _ _ _ (rate_players_nil _ _ _ _ _)).
  erewrite bind_ok
    by (apply (rate_player_present loser Offense false _ _ rl);
        [simpl; rewrite lookup_insert_ne by exact Hne; exact Hl | exact Ul]).
  rewrite (bind_ok _ _ _ _ _ (rate_players_nil _ _ _ _ _)).
  rewrite save_data_run.
  eexists. split; [exact Uw |]. split; [exact Ul |].
  split; reflexivity.
Qed.

Lemma single_match_witness :
  ∃ new_w new_l w',
    process_game "Alice win Bob"
      (World {[ "alice" := new_player "Alice" "alice";
                "bob" := new_player "Bob" "bob" ]} []) = (Ok (), w')
    ∧ players w'
      = refreshed <$>
          <[ "bob" := counted false
                        (set_offense new_l (new_player "Bob" "bob")) ]>
            (<[ "alice" := counted true
                             (set_offense new_w (new_player "Alice" "alice")) ]>
               {[ "alice" := new_player "Alice" "alice";
                  "bob" := new_player "Bob" "bob" ]}).
Proof.
  destruct (single_match "Alice win Bob" "Alice" "win" "Bob" "Alice" "Bob"
              (new_player "Alice" "alice") (new_player "Bob" "bob") 1%R
              (World {[ "alice" := new_player "Alice" "alice";
                        "bob" := new_player "Bob" "bob" ]} []))
    as (new_w & _ & new_l & _ & w' & _ & _ & E & Hps).
  - vm_compute. reflexivity.
  - vm_compute. reflexivity.
  - vm_compute. reflexivity.
  - vm_compute. reflexivity.
  - vm_compute. reflexivity.
  - vm_compute. reflexivity.
  - vm_compute. discriminate.
  - repeat split; apply Z.leb_le; reflexivity.
  - repeat split; apply Z.leb_le; reflexivity.
  - exists new_w, new_l, w'. split; [exact E | exact Hps].
Defined.

(** ** The end of a session *)

Lemma handle_exit (line : string) (w : world) :
  lower (strip line) = "exit" →
  handle line w = (Ok false, World (refreshed <$> players w) (stdout w)).
Proof.
  intros H. unfold handle. cbv zeta. rewrite H.
  change (("exit" =? "exit")%string) with true. cbv iota.
  by rewrite (bind_ok _ _ _ _ _ (save_data_run w)).
Qed.

(** X26. The command [exit], in any case and with white space around it,
    recomputes the average and the ranks of every record and ends the
    loop: no line typed after it is processed. *)
Theorem exit_ends_session (before after : list string) (line : string)
    (w : world) :
  lower (strip line) = "exit" →
  main_loop (line :: after) w
    = (Ok (), World (refreshed <$> players w) (stdout w))
  ∧ main_loop (before ++ line :: after) w = main_loop (before ++ [line]) w.
Proof.
  intros H.
  assert (Hone : ∀ rest w0,
            main_loop (line :: rest) w0
            = (Ok (), World (refreshed <$> players w0) (stdout w0))).
  { intros rest w0. cbn [main_loop].
    by rewrite (bind_ok _ _ _ _ _ (handle_exit line w0 H)). }
  split; [apply Hone |].
  revert w. induction before as [| first before IH]; intros w.
  - cbn [app]. by rewrite !Hone.
  - cbn [app main_loop]. rewrite !bind_run.
    destruct (handle first w) as [[[] | e] w1]; [apply IH | done | done].
Qed.

Lemma exit_ends_session_witness :
  main_loop ["a win b"; " EXIT "; "b win a"] (World ∅ [])
    = main_loop ["a win b"; " EXIT "] (World ∅ []).
Proof.
  apply (exit_ends_session ["a win b"] ["b win a"] " EXIT " (World ∅ [])).
  vm_compute. reflexivity.
Defined.

(** ** Lines that are not match commands *)

Lemma startswith_app (sub post : string) :
  startswith sub (sub +:+ post) = true.
Proof.
  induction sub as [| c sub IH]; [reflexivity |].
  simpl. rewrite IH. by rewrite Ascii.eqb_refl.
Qed.

Lemma contains_app (sub pre post : string) :
  contains sub (pre +:+ sub +:+ post) = true.
Proof.
  induction pre as [| c pre IH].
  - change ("" +:+ sub +:+ post) with (sub +:+ post).
    destruct (sub +:+ post) eqn:E; simpl; rewrite <- E;
      by rewrite startswith_app.
  - change (String c pre +:+ sub +:+ post)
      with (String c (pre +:+ sub +:+ post)).
    cbn [contains]. rewrite IH. apply orb_true_r.
Qed.

Lemma string_app_assoc (a b c : string) : (a +:+ b) +:+ c = a +:+ b +:+ c.
Proof.
  induction a as [| x a IH]; [reflexivity |].
  rewrite !string_app_cons. f_equal. exact IH.
Qed.

Lemma literal_split (p s m rest : string) :
  literal p s = Some (m, rest) → s = m +:+ rest.
Proof.
  revert s m rest. induction p as [| a p IH]; intros s m rest; simpl.
  - by intros [= <- <-].
  - destruct s as [| b s]; [discriminate |].
    destruct (ascii_eqb (lower_char a) (lower_char b)); [| discriminate].
    destruct (literal p s) as [[m' rest'] |] eqn:El; [| discriminate].
    intros [= <- <-]. simpl. by rewrite (IH _ _ _ El).
Qed.

(** What the continuation of a star is run on is a suffix of the text. *)
Lemma lazy_star_suffix {A} (cls : ascii → bool)
    (k : string → string → option A) (acc s : string) (r : A) :
  lazy_star cls k acc s = Some r →
  ∃ g pre s', s = pre +:+ s' ∧ k g s' = Some r.
Proof.
  revert acc. induction s as [| c s IH]; intros acc; simpl.
  - destruct (k (String.rev acc) "") eqn:E; [| discriminate].
    intros [= ->]. by exists (String.rev acc), "", "".
  - destruct (k (String.rev acc) (String c s)) eqn:E.
    + intros [= ->]. by exists (String.rev acc), "", (String c s).
    + destruct (cls c); [| discriminate].
      intros H. destruct (IH _ H) as (g & pre & s' & -> & Hk).
      by exists g, (String c pre), s'.
Qed.

Lemma greedy_star_suffix {A} (cls : ascii → bool) (k : string → option A)
    (s : string) (r : A) :
  greedy_star cls k s = Some r → ∃ pre s', s = pre +:+ s' ∧ k s' = Some r.
Proof.
  induction s as [| c s IH]; simpl.
  - intros H. by exists "", "".
  - assert (Hhere : k (String c s) = Some r →
                    ∃ pre s', String c s = pre +:+ s' ∧ k s' = Some r).
    { intros H. by exists "", (String c s). }
    destruct (cls c); [| exact Hhere].
    destruct (greedy_star cls k s) eqn:E; [| exact Hhere].
    intros [= ->]. destruct (IH eq_refl) as (pre & s' & -> & Hk).
    by exists (String c pre), s'.
Qed.

Lemma alt_literal {A} (ps : list string) (k : string → string → option A)
    (s : string) (r : A) :
  alt ps k s = Some r →
  ∃ p m s', p ∈ ps ∧ literal p s = Some (m, s') ∧ k m s' = Some r.
Proof.
  induction ps as [| p ps IH]; simpl; [discriminate |].
  unfold lit at 1.
  destruct (literal p s) as [[m rest] |] eqn:El.
  - destruct (k m rest) eqn:Ek.
    + intros [= ->]. exists p, m, rest. split; [left | by split].
    + intros H. destruct (IH H) as (p' & m' & s' & Hin & Hl & Hk).
      exists p', m', s'. split; [by right | by split].
  - intros H. destruct (IH H) as (p' & m' & s' & Hin & Hl & Hk).
    exists p', m', s'. split; [by right | by split].
Qed.

Lemma win_type_ends_in_win (p : string) :
  p ∈ WIN_TYPES → ∃ pre, p = pre +:+ "win".
Proof.
  unfold WIN_TYPES. intros Hin.
  repeat (apply elem_of_cons in Hin as [-> | Hin];
          [first [ by exists "" | by exists "small" | by exists "close"
                 | by exists "big" | by exists "perfect" ] |]).
  by apply elem_of_nil in Hin.
Qed.

Lemma match_game_contains_win (command team1_str win_type team2_str : string) :
  match_game command = Some (team1_str, win_type, team2_str) →
  contains "win" (lower command) = true.
Proof.
  unfold match_game. intros H.
  apply lazy_star_suffix in H as (g1 & pre1 & s1 & -> & H).
  apply greedy_star_suffix in H as (pre2 & s2 & -> & H).
  apply alt_literal in H as (p & m & s3 & Hin & Hl & _).
  pose proof (literal_lower _ _ _ _ Hl) as Hlow.
  apply literal_split in Hl as ->.
  destruct (win_type_ends_in_win p Hin) as [pre3 ->].
  rewrite !lower_app, Hlow, lower_app.
  change (lower "win") with "win".
  rewrite <- !string_app_assoc.
  rewrite (string_app_assoc _ "win" _).
  apply contains_app.
Qed.

(** X27. A line in which the letters "win" do not occur, in any case, is not
    a match command: [process_game] prints that the format is not
    recognized and leaves the registry as it is, creating no player. *)
Theorem line_without_win_is_rejected (command : string) (w : world) :
  contains "win" (lower command) = false →
  process_game command w
    = (Ok (), World (players w)
                    (stdout w ++ [Print "Command format not recognized."])).
Proof.
  intros H. unfold process_game.
  destruct (match_game command) as [[[t1 wt] t2] |] eqn:E; [| reflexivity].
  apply match_game_contains_win in E. congruence.
Qed.

Lemma line_without_win_is_rejected_witness :
  process_game "alice beats bob" (World ∅ [])
    = (Ok (), World ∅ [Print "Command format not recognized."]).
Proof.
  apply (line_without_win_is_rejected "alice beats bob" (World ∅ [])).
  vm_compute. reflexivity.
Defined.

(** ** The snapshot: what [save_data] writes, [load_data] reads back *)

(** *** Strings *)

Lemma string_app_nil_r (s : string) : s +:+ "" = s.
Proof.
  induction s as [| a s IH]; [reflexivity |].
  rewrite string_app_cons. by f_equal.
Qed.

Lemma rev_app_spec (s1 s2 : string) :
  String.rev_app s1 s2 = String.rev s1 +:+ s2.
Proof.
  revert s2. induction s1 as [| a s1 IH]; intros s2; [reflexivity |].
  change (String.rev_app s1 (String a s2)
          = String.rev_app s1 (String a "") +:+ s2).
  rewrite (IH (String a s2)), (IH (String a "")).
  by rewrite string_app_assoc.
Qed.

Lemma rev_cons (a : ascii) (s : string) :
  String.rev (String a s) = String.rev s +:+ String a "".
Proof. apply (rev_app_spec s (String a "")). Qed.

Lemma rev_app_distr (s1 s2 : string) :
  String.rev (s1 +:+ s2) = String.rev s2 +:+ String.rev s1.
Proof.
  induction s1 as [| a s1 IH].
  - change (String.rev s2 = String.rev s2 +:+ "").
    by rewrite string_app_nil_r.
  - rewrite string_app_cons, !rev_cons, IH. by rewrite string_app_assoc.
Qed.

Lemma rev_involutive (s : string) : String.rev (String.rev s) = s.
Proof.
  induction s as [| a s IH]; [reflexivity |].
  rewrite rev_cons, rev_app_distr, IH. reflexivity.
Qed.

Lemma rev_nonempty (s : string) : s ≠ "" → String.rev s ≠ "".
Proof.
  intros Hs E. apply Hs. rewrite <- (rev_involutive s), E. reflexivity.
Qed.

Lemma all_chars_app (p : ascii → bool) (s1 s2 : string) :
  all_chars p (s1 +:+ s2) = all_chars p s1 && all_chars p s2.
Proof.
  induction s1 as [| a s1 IH]; [reflexivity |].
  rewrite string_app_cons. cbn [all_chars]. rewrite IH.
  by rewrite andb_assoc.
Qed.

Lemma all_chars_rev (p : ascii → bool) (s : string) :
  all_chars p (String.rev s) = all_chars p s.
Proof.
  induction s as [| a s IH]; [reflexivity |].
  rewrite rev_cons, all_chars_app, IH. cbn [all_chars].
  rewrite andb_true_r. apply andb_comm.
Qed.

Lemma all_chars_impl (p q : ascii → bool) (s : string) :
  (∀ c, p c = true → q c = true) →
  all_chars p s = true → all_chars q s = true.
Proof.
  intros Hpq. induction s as [| a s IH]; [done |].
  cbn [all_chars]. intros [Ha Hs]%andb_true_iff.
  by rewrite (Hpq _ Ha), (IH Hs).
Qed.

(** *** Trimming *)

Lemma lstrip_drop (s : string) : lstrip s = drop_while isspace s.
Proof.
  induction s as [| a s IH]; [reflexivity |].
  cbn [lstrip drop_while]. by rewrite IH.
Qed.

Lemma lstrip_char_drop (ch : ascii) (s : string) :
  lstrip_char ch s = drop_while (λ c, ascii_eqb c ch) s.
Proof.
  induction s as [| a s IH]; [reflexivity |].
  cbn [lstrip_char drop_while]. by rewrite IH.
Qed.

Lemma rstrip_rtrim (s : string) : rstrip s = rtrim isspace s.
Proof. unfold rstrip, rtrim. by rewrite lstrip_drop. Qed.

Lemma rstrip_char_rtrim (s : string) : rstrip_char "." s = rtrim is_dot s.
Proof. unfold rstrip_char, rtrim. by rewrite lstrip_char_drop. Qed.

Lemma string_length_app (s1 s2 : string) :
  String.length (s1 +:+ s2) = (String.length s1 + String.length s2)%nat.
Proof.
  induction s1 as [| a s1 IH]; [reflexivity |].
  rewrite string_app_cons. cbn [String.length]. by rewrite IH.
Qed.

Lemma string_length_rev (s : string) :
  String.length (String.rev s) = String.length s.
Proof.
  induction s as [| a s IH]; [reflexivity |].
  rewrite rev_cons, string_length_app, IH. cbn [String.length]. lia.
Qed.

Lemma drop_while_length (p : ascii → bool) (s : string) :
  (String.length (drop_while p s) ≤ String.length s)%nat.
Proof.
  induction s as [| a s IH]; [done |].
  cbn [drop_while]. destruct (p a); cbn [String.length]; lia.
Qed.

Lemma drop_while_same_length (p : ascii → bool) (s : string) :
  String.length (drop_while p s) = String.length s → drop_while p s = s.
Proof.
  destruct s as [| a s]; [done |].
  cbn [drop_while]. destruct (p a); [| done].
  pose proof (drop_while_length p s). cbn [String.length]. lia.
Qed.

Lemma drop_while_app (p : ascii → bool) (s1 s2 : string) :
  drop_while p s1 ≠ "" → drop_while p (s1 +:+ s2) = drop_while p s1 +:+ s2.
Proof.
  induction s1 as [| a s1 IH]; [done |].
  rewrite string_app_cons. cbn [drop_while].
  destruct (p a); [exact IH | by rewrite string_app_cons].
Qed.

Lemma app_nonempty_l (s1 s2 : string) : s1 ≠ "" → s1 +:+ s2 ≠ "".
Proof. destruct s1; [done |]. by rewrite string_app_cons. Qed.

Lemma kept_app (p : ascii → bool) (s1 s2 : string) :
  kept p s2 → kept p (s1 +:+ s2).
Proof.
  unfold kept. intros H.
  rewrite rev_app_distr, drop_while_app by exact H.
  by apply app_nonempty_l.
Qed.

Lemma kept_cons (p : ascii → bool) (c : ascii) (s : string) :
  kept p s → kept p (String c s).
Proof. apply (kept_app p (String c "") s). Qed.

Lemma rtrim_app (p : ascii → bool) (s1 s2 : string) :
  kept p s2 → rtrim p (s1 +:+ s2) = s1 +:+ rtrim p s2.
Proof.
  unfold kept, rtrim. intros H.
  rewrite rev_app_distr, drop_while_app by exact H.
  by rewrite rev_app_distr, rev_involutive.
Qed.

Lemma rtrim_cons (p : ascii → bool) (c : ascii) (s : string) :
  kept p s → rtrim p (String c s) = String c (rtrim p s).
Proof. apply (rtrim_app p (String c "") s). Qed.

(** A string that [strip] leaves alone starts and ends with a character
    that is not white space. *)
Lemma strip_fixed (s : string) :
  strip s = s →
  lstrip s = s ∧ drop_while isspace (String.rev s) = String.rev s.
Proof.
  unfold strip. rewrite rstrip_rtrim, lstrip_drop. unfold rtrim. intros H.
  assert (Hl : drop_while isspace s = s).
  { apply drop_while_same_length.
    pose proof (f_equal String.length H) as Hlen.
    rewrite string_length_rev in Hlen.
    pose proof (drop_while_length isspace
                  (String.rev (drop_while isspace s))) as H1.
    rewrite string_length_rev in H1.
    pose proof (drop_while_length isspace s). lia. }
  split; [exact Hl |].
  rewrite Hl in H. rewrite <- H at 2. by rewrite rev_involutive.
Qed.

Lemma drop_while_plain (p : ascii → bool) (s : string) :
  all_chars (λ c, negb (p c)) s = true → drop_while p s = s.
Proof.
  destruct s as [| a s]; [done |].
  cbn [all_chars drop_while]. intros [Ha _]%andb_true_iff.
  by apply negb_true_iff in Ha as ->.
Qed.

Lemma strip_plain (s : string) :
  all_chars (λ c, negb (isspace c)) s = true → strip s = s.
Proof.
  intros H. unfold strip. rewrite rstrip_rtrim, lstrip_drop. unfold rtrim.
  rewrite (drop_while_plain _ _ H).
  rewrite drop_while_plain by (by rewrite all_chars_rev).
  apply rev_involutive.
Qed.

(** *** Characters *)

Lemma rank_char_plain (c : ascii) :
  rank_char c = true →
  isspace c = false ∧ ascii_eqb c "," = false ∧ is_dot c = false.
Proof.
  destruct c as [[] [] [] [] [] [] [] []]; intros H;
    first [ by vm_compute in H | by vm_compute ].
Qed.

Lemma isdigit_rank_char (c : ascii) : isdigit c = true → rank_char c = true.
Proof.
  destruct c as [[] [] [] [] [] [] [] []]; intros H;
    first [ by vm_compute in H | by vm_compute ].
Qed.

Lemma field_char_no_comma (c : ascii) :
  field_char c = true → ascii_eqb c "," = false.
Proof.
  unfold field_char. intros [[H _]%andb_true_iff _]%andb_true_iff.
  by apply negb_true_iff.
Qed.

Lemma rank_token_no_space (s : string) :
  all_chars rank_char s = true →
  all_chars (λ c, negb (isspace c)) s = true.
Proof.
  apply all_chars_impl. intros c Hc.
  destruct (rank_char_plain c Hc) as (-> & _). reflexivity.
Qed.

Lemma rank_token_no_comma (s : string) :
  all_chars rank_char s = true →
  all_chars (λ c, negb (ascii_eqb c ",")) s = true.
Proof.
  apply all_chars_impl. intros c Hc.
  destruct (rank_char_plain c Hc) as (_ & -> & _). reflexivity.
Qed.

(** *** Fields *)

Lemma split_field (a b : string) :
  all_chars (λ c, negb (ascii_eqb c ",")) a = true →
  split "," (a +:+ String "," b) = a :: split "," b.
Proof.
  induction a as [| c a IH]; [reflexivity |].
  cbn [all_chars]. intros [Hc Ha]%andb_true_iff.
  rewrite string_app_cons. cbn [split].
  apply negb_true_iff in Hc as ->. by rewrite (IH Ha).
Qed.

Lemma split_last (a : string) :
  all_chars (λ c, negb (ascii_eqb c ",")) a = true → split "," a = [a].
Proof.
  induction a as [| c a IH]; [reflexivity |].
  cbn [all_chars]. intros [Hc Ha]%andb_true_iff.
  cbn [split]. apply negb_true_iff in Hc as ->. by rewrite (IH Ha).
Qed.

Lemma strip_after_space (s : string) :
  all_chars rank_char s = true → strip (String " " s) = s.
Proof.
  intros H. change (strip (String " " s)) with (strip s).
  by apply strip_plain, rank_token_no_space.
Qed.

(** *** Numbers *)

Lemma digit_char_spec (d : Z) :
  0 ≤ d < 10 →
  isdigit (digit_char d) = true ∧ Z.of_N (code (digit_char d) - 48) = d.
Proof.
  intros Hd.
  assert (H : d = 0 ∨ d = 1 ∨ d = 2 ∨ d = 3 ∨ d = 4 ∨ d = 5 ∨ d = 6
              ∨ d = 7 ∨ d = 8 ∨ d = 9) by lia.
  repeat (destruct H as [-> | H]; [by vm_compute |]).
  subst d. by vm_compute.
Qed.

Lemma digits_of_shape (fuel : nat) (n : Z) (acc : string) :
  ∃ pre, digits_of fuel n acc = pre +:+ acc
         ∧ all_chars isdigit pre = true
         ∧ (fuel ≠ O → pre ≠ "").
Proof.
  revert n acc. induction fuel as [| fuel IH]; intros n acc.
  - by exists "".
  - cbn [digits_of].
    assert (Hd : isdigit (digit_char (n mod 10)) = true).
    { apply digit_char_spec, Z.mod_pos_bound. lia. }
    destruct (n <? 10).
    + exists (String (digit_char (n mod 10)) "").
      cbn [all_chars]. by rewrite Hd.
    + destruct (IH (n / 10) (String (digit_char (n mod 10)) acc))
        as (pre & -> & Hpre & _).
      exists (pre +:+ String (digit_char (n mod 10)) "").
      split; [by rewrite string_app_assoc |].
      split.
      * rewrite all_chars_app, Hpre. cbn [all_chars]. by rewrite Hd.
      * intros _. by destruct pre.
Qed.

Lemma digits_of_value (fuel : nat) (n : Z) (acc : string) (b : bool) :
  fuel ≠ O → 0 ≤ n < 2 ^ Z.of_nat fuel →
  int_digits (digits_of fuel n acc) 0 b = int_digits acc n true.
Proof.
  revert n acc. induction fuel as [| fuel IH]; intros n acc Hf Hn; [done |].
  cbn [digits_of].
  destruct (digit_char_spec (n mod 10)) as [Hd Hv];
    [apply Z.mod_pos_bound; lia |].
  assert (Hstep : ∀ a after,
            int_digits (String (digit_char (n mod 10)) acc) a after
            = int_digits acc (10 * a + n mod 10) true).
  { intros a after. cbn [int_digits]. by rewrite Hd, Hv. }
  destruct (Z.ltb_spec n 10) as [Hlt | Hge].
  - rewrite Hstep. f_equal. rewrite Z.mod_small by lia. lia.
  - assert (Hq : 1 ≤ n / 10) by (apply Z.div_le_lower_bound; lia).
    assert (Hq' : n / 10 < 2 ^ Z.of_nat fuel).
    { apply Z.div_lt_upper_bound; [lia |].
      rewrite Nat2Z.inj_succ, Z.pow_succ_r in Hn by lia. lia. }
    rewrite IH.
    + rewrite Hstep. f_equal. pose proof (Z.div_mod n 10). lia.
    + intros ->. simpl in Hq'. lia.
    + lia.
Qed.

Lemma str_nonneg_shape (n : Z) :
  ∃ c rest, str_nonneg n = String c rest
            ∧ isdigit c = true ∧ all_chars isdigit rest = true.
Proof.
  unfold str_nonneg.
  destruct (digits_of_shape (S (Z.to_nat (Z.log2 n))) n "")
    as (pre & -> & Hpre & Hne).
  rewrite string_app_nil_r.
  destruct pre as [| c rest]; [by destruct Hne |].
  cbn [all_chars] in Hpre. apply andb_true_iff in Hpre as [Hc Hrest].
  by exists c, rest.
Qed.

Lemma str_nonneg_value (n : Z) (b : bool) :
  0 ≤ n → int_digits (str_nonneg n) 0 b = Some n.
Proof.
  intros Hn. unfold str_nonneg. rewrite digits_of_value; [done | done |].
  rewrite Nat2Z.inj_succ, Z2Nat.id by apply Z.log2_nonneg.
  destruct (Z.eq_dec n 0) as [-> | Hne]; [by vm_compute |].
  pose proof (Z.log2_spec n). lia.
Qed.

Lemma str_int_chars (n : Z) : all_chars rank_char (str_int n) = true.
Proof.
  unfold str_int.
  assert (H : ∀ m, all_chars rank_char (str_nonneg m) = true).
  { intros m. destruct (str_nonneg_shape m) as (c & rest & -> & Hc & Hrest).
    cbn [all_chars]. rewrite (isdigit_rank_char c Hc).
    apply (all_chars_impl isdigit); [apply isdigit_rank_char | exact Hrest]. }
  destruct (n <? 0); [| apply H].
  cbn [all_chars]. rewrite H. reflexivity.
Qed.

Lemma int_of_digit_string (c : ascii) (rest : string) :
  isdigit c = true → strip (String c rest) = String c rest →
  Py.int (String c rest) = int_digits (String c rest) 0 false.
Proof.
  intros Hc Hs. unfold Py.int. rewrite Hs.
  destruct c as [[] [] [] [] [] [] [] []];
    first [ reflexivity | by vm_compute in Hc ].
Qed.

(** [int] reads back what the f-string writes for an int. *)
Lemma int_str_int (n : Z) : Py.int (str_int n) = Some n.
Proof.
  pose proof (strip_plain _ (rank_token_no_space _ (str_int_chars n))) as Hs.
  unfold str_int in *. destruct (Z.ltb_spec n 0) as [Hneg | Hpos].
  - unfold Py.int. rewrite Hs.
    rewrite (str_nonneg_value (- n) false) by lia.
    cbn. f_equal. lia.
  - destruct (str_nonneg_shape n) as (c & rest & E & Hc & _).
    rewrite E in Hs |- *.
    rewrite (int_of_digit_string c rest Hc Hs), <- E.
    by apply str_nonneg_value.
Qed.

Lemma all_digits_chars (s : string) : all_digits s = all_chars isdigit s.
Proof.
  induction s as [| c s IH]; [reflexivity |].
  cbn [all_digits all_chars]. by rewrite IH.
Qed.

Lemma str_isdigit_str_int (n : Z) : str_isdigit (str_int n) = (0 <=? n).
Proof.
  unfold str_int. destruct (Z.ltb_spec n 0) as [Hneg | Hpos].
  - rewrite (proj2 (Z.leb_gt 0 n)) by lia. reflexivity.
  - rewrite (proj2 (Z.leb_le 0 n)) by lia.
    destruct (str_nonneg_shape n) as (c & rest & -> & Hc & Hrest).
    unfold str_isdigit. cbn [all_digits].
    by rewrite Hc, all_digits_chars, Hrest.
Qed.

(** The win count survives the percentage that is written for it, up to
    100 games: on doubles, for each number of games and of wins. *)
Lemma wins_round_trip_checked :
  forallb (λ p,
    forallb (λ w,
      round_ratio_times (round_ratio_times w p 100) 100 p =? w)
      (seqZ 0 (p + 1)))
    (seqZ 1 100) = true.
Proof. vm_compute. reflexivity. Qed.

Lemma wins_round_trip (w p : Z) :
  0 < p ≤ 100 → 0 ≤ w ≤ p →
  round_ratio_times (round_ratio_times w p 100) 100 p = w.
Proof.
  intros Hp Hw. pose proof wins_round_trip_checked as H.
  rewrite forallb_forall in H.
  specialize (H p ltac:(apply list_elem_of_In, elem_of_seqZ; lia)).
  rewrite forallb_forall in H.
  specialize (H w ltac:(apply list_elem_of_In, elem_of_seqZ; lia)).
  by apply Z.eqb_eq.
Qed.

(** *** The line *)

Ltac solve_kept base :=
  first [ base | apply kept_app; solve_kept base
        | apply kept_cons; solve_kept base ].

Lemma kept_line_end : kept isspace (String "." (String "010" "")).
Proof. by vm_compute. Qed.

Lemma kept_last_rank (s : string) :
  rank_token s → kept is_dot (s +:+ ".") ∧ rtrim is_dot (s +:+ ".") = s.
Proof.
  intros [Hne Hs]. unfold kept, rtrim.
  rewrite rev_app_distr.
  change (String.rev ".") with ".". rewrite string_app_cons, string_app_nil.
  cbn [drop_while]. change (is_dot ".") with true. cbv iota.
  rewrite drop_while_plain.
  - split; [by apply rev_nonempty | apply rev_involutive].
  - rewrite all_chars_rev. revert Hs. apply all_chars_impl.
    intros c Hc. destruct (rank_char_plain c Hc) as (_ & _ & ->). reflexivity.
Qed.

(** What is left of a snapshot line once its end is trimmed. *)
Lemma snapshot_line_trimmed (r : PlayerRecord) :
  strip (display r) = display r → rank_token (rank_a r) →
  rstrip_char "." (strip (snapshot_line r))
  = display r +:+ String ","
      (String " " (str_int (offense r) +:+ String ","
      (String " " (str_int (defense r) +:+ String ","
      (String " " (str_int (played r) +:+ String ","
      (String " " (str_int (saved_win_rate r) +:+ String ","
      (String " " (str_int (avg r) +:+ String ","
      (String " " (rank_d r +:+ String ","
      (String " " (rank_o r +:+ String ","
      (String " " (rank_a r)))))))))))))))).
Proof.
  intros Hd Ha. destruct (strip_fixed _ Hd) as [Hl _].
  destruct (kept_last_rank _ Ha) as [Hk Hlast].
  unfold snapshot_line. rewrite !string_app_cons, !string_app_nil.
  unfold strip.
  assert (El : ∀ rest, lstrip (display r +:+ String "," rest)
                       = display r +:+ String "," rest).
  { intros rest. destruct (display r) as [| c d]; [reflexivity |].
    rewrite string_app_cons. cbn [lstrip] in Hl |- *.
    destruct (isspace c); [| reflexivity].
    exfalso. pose proof (f_equal String.length Hl) as Hlen.
    rewrite lstrip_drop in Hlen.
    pose proof (drop_while_length isspace d). cbn [String.length] in Hlen.
    lia. }
  rewrite El, rstrip_rtrim.
  repeat first [ rewrite rtrim_app by solve_kept ltac:(exact kept_line_end)
               | rewrite rtrim_cons by solve_kept ltac:(exact kept_line_end) ].
  change (rtrim isspace (String "." (String "010" ""))) with ".".
  rewrite rstrip_char_rtrim.
  repeat first [ rewrite rtrim_app by solve_kept ltac:(exact Hk)
               | rewrite rtrim_cons by solve_kept ltac:(exact Hk) ].
  by rewrite Hlast.
Qed.

(** The fields [load_data] reads from the line written for a record. *)
Lemma parse_snapshot_line (r : PlayerRecord) :
  strip (display r) = display r →
  all_chars field_char (display r) = true →
  rank_token (rank_d r) → rank_token (rank_o r) → rank_token (rank_a r) →
  parse_line (snapshot_line r)
  = Some (mkLine (display r) (offense r) (defense r) (played r)
                 (saved_win_rate r)
                 (if 0 <=? avg r then Some (avg r) else None)
                 (Some (rank_d r)) (Some (rank_o r)) (Some (rank_a r))).
Proof.
  intros Hd Hf [Hnd Hrd] [Hno Hro] [Hna Hra].
  unfold parse_line. cbv zeta.
  rewrite (snapshot_line_trimmed r Hd (conj Hna Hra)).
  assert (Hne : ∀ rest, (display r +:+ String "," rest =? "")%string = false).
  { intros rest. by destruct (display r). }
  rewrite Hne.
  rewrite split_field
    by (revert Hf; apply all_chars_impl; intros c Hc;
        by rewrite (field_char_no_comma c Hc)).
  assert (Hsp : ∀ f rest,
            all_chars rank_char f = true →
            split "," (String " " (f +:+ String "," rest))
            = String " " f :: split "," rest).
  { intros f rest Hfc.
    change (String " " (f +:+ String "," rest))
      with (String " " f +:+ String "," rest).
    apply split_field. cbn [all_chars].
    by rewrite (rank_token_no_comma f Hfc). }
  rewrite !Hsp by (first [ apply str_int_chars | assumption ]).
  rewrite split_last
    by (cbn [all_chars]; by rewrite (rank_token_no_comma _ Hra)).
  cbn [fmap list_fmap].
  rewrite Hd.
  rewrite !strip_after_space by (first [ apply str_int_chars | assumption ]).
  repeat (rewrite int_str_int; cbn [mbind option_bind]).
  rewrite str_isdigit_str_int.
  reflexivity.
Qed.

Lemma or_else_token (s dflt : string) : s ≠ "" → or_else (Some s) dflt = s.
Proof. by destruct s. Qed.

(** The record [load_data] stores for the line written for a storable
    record is that record. *)
Lemma loaded_snapshot_line (r : PlayerRecord) :
  storable r →
  ∃ l, parse_line (snapshot_line r) = Some l
       ∧ l_disp l = display r ∧ loaded_record l = r.
Proof.
  intros (Hd & Hf & Hrd & Hro & Hra & Hw & Hp & Havg & Hz).
  eexists. split; [by apply parse_snapshot_line |].
  split; [reflexivity |].
  unfold loaded_record, loaded_wins. cbn [l_disp l_off l_deff l_played
    l_win_rate l_avg l_rank_d l_rank_o l_rank_a].
  rewrite !or_else_token by (first [ apply Hrd | apply Hro | apply Hra ]).
  assert (Eavg : default (round_div (offense r + defense r) 2)
                   (if 0 <=? avg r then Some (avg r) else None) = avg r).
  { destruct (0 <=? avg r); [reflexivity | by rewrite Havg]. }
  rewrite Eavg.
  assert (Ewins : (if 0 <? played r
                   then round_ratio_times (saved_win_rate r) 100 (played r)
                   else 0)
                  = wins r).
  { unfold saved_win_rate. destruct (Z.ltb_spec 0 (played r)) as [Hpos | Hz0].
    - apply wins_round_trip; lia.
    - lia. }
  rewrite Ewins.
  destruct (contains "zhong" (canonicalize (display r))).
  - destruct (Hz eq_refl) as (E1 & E2 & E3).
    destruct r as [d o df p w a rd ro ra].
    cbn [rank_d rank_o rank_a] in E1, E2, E3. subst rd ro ra. reflexivity.
  - by destruct r.
Qed.

Lemma load_data_cons (line : string) (rest : list string) (w : world) :
  load_data (line :: rest) w
  = ((match parse_line line with
      | Some l => load_line l
      | None => mret ()
      end);; load_data rest) w.
Proof. reflexivity. Qed.

Lemma load_snapshot_lines (entries : list (string * PlayerRecord)) :
  ∀ (ps : gmap string PlayerRecord) (out : list event),
    NoDup entries.*1 →
    (∀ key, key ∈ entries.*1 → ps !! key = None) →
    Forall (λ e, e.1 = canonicalize (display e.2) ∧ storable e.2) entries →
    load_data (snapshot_line <$> entries.*2) (World ps out)
    = (Ok (), World (list_to_map entries ∪ ps) out).
Proof.
  induction entries as [| [key r] entries IH]; intros ps out Hnd Hnew Hall.
  - cbn. by rewrite (left_id_L ∅ (∪)).
  - cbn [fmap list_fmap] in *. cbn [fst snd] in *.
    apply NoDup_cons in Hnd as [Hkey Hnd].
    apply Forall_cons in Hall as [[Hk Hst] Hall]. cbn [fst snd] in Hk, Hst.
    destruct (loaded_snapshot_line r Hst) as (l & Hl & Hdisp & Hrec).
    rewrite load_data_cons, Hl.
    assert (E : load_line l (World ps out)
                = (Ok (), World (<[key := r]> ps) out)).
    { rewrite load_line_run. cbn [players stdout]. rewrite Hdisp, <- Hk.
      rewrite (Hnew key) by left. by rewrite Hrec. }
    rewrite (bind_ok _ _ _ _ _ E).
    rewrite IH; [| exact Hnd | | exact Hall].
    + do 2 f_equal. cbn [list_to_map foldr]. cbn [fst snd].
      rewrite <- insert_union_l, <- insert_union_r; [reflexivity |].
      by apply not_elem_of_list_to_map_1.
    + intros k Hin. rewrite lookup_insert_ne; [apply Hnew; by right |].
      intros ->. contradiction.
Qed.

(** X28. A registry whose records a snapshot line can hold survives being
    saved and loaded: reading the lines that [save_data] writes for its
    records, in whatever order they are written, into an empty registry
    gives the same registry back, and nothing is printed or raised. *)
Theorem snapshot_round_trip (ps : gmap string PlayerRecord)
    (entries : list (string * PlayerRecord)) (out : list event) :
  map_Forall (λ key r, key = canonicalize (display r) ∧ storable r) ps →
  entries ≡ₚ map_to_list ps →
  load_data (snapshot_line <$> entries.*2) (World ∅ out)
  = (Ok (), World ps out).
Proof.
  intros Hps Hperm.
  assert (Hnd : NoDup entries.*1).
  { rewrite Hperm. apply NoDup_fst_map_to_list. }
  rewrite load_snapshot_lines.
  - rewrite (right_id_L ∅ (∪)).
    rewrite (list_to_map_proper _ _ Hnd Hperm).
    by rewrite list_to_map_to_list.
  - exact Hnd.
  - intros key _. apply lookup_empty.
  - apply Forall_forall. intros [key r] Hin.
    rewrite Hperm in Hin. apply elem_of_map_to_list in Hin.
    exact (Hps key r Hin).
Qed.

Lemma snapshot_round_trip_witness :
  let john := mkPlayer "John Smith" 250 180 10 7 215
                       "copper" "silver" "copper" in
  let li := mkPlayer "Li Zhong" 2999 2999 40 36 2999 "lz" "lz" "lz" in
  load_data [snapshot_line john; snapshot_line li] (World ∅ [])
  = (Ok (), World (<["johnsmith" := john]> {["lizhong" := li]}) []).
Proof.
  intros john li.
  apply (snapshot_round_trip (<["johnsmith" := john]> {["lizhong" := li]})
           [("johnsmith", john); ("lizhong", li)] []).
  - apply map_Forall_insert_2; [| apply map_Forall_singleton];
      (split; [reflexivity |]);
      (split; [reflexivity |]); (split; [reflexivity |]);
      (split; [by split |]); (split; [by split |]); (split; [by split |]);
      (split; [simpl; lia |]); (split; [simpl; lia |]);
      (split; [reflexivity |]).
    + intros H. vm_compute in H. discriminate H.
    + intros _. by repeat split.
  - rewrite map_to_list_insert by reflexivity.
    by rewrite map_to_list_singleton.
Defined.

Lemma saved_win_rate_zero (r : PlayerRecord) :
  0 ≤ wins r → 200 * wins r ≤ played r → saved_win_rate r = 0.
Proof.
  intros Hw Hp. unfold saved_win_rate.
  destruct (Z.ltb_spec 0 (played r)) as [Hpos | Hz]; [| reflexivity].
  by apply round_ratio_times_rare.
Qed.

(** X29. Beyond 100 games the win count does not survive the snapshot: a
    record with wins, but at most one win in 200 games, is written with a
    win percentage of 0 and read back with no win at all. *)
Theorem rare_wins_are_lost (r : PlayerRecord) :
  strip (display r) = display r →
  all_chars field_char (display r) = true →
  rank_token (rank_d r) → rank_token (rank_o r) → rank_token (rank_a r) →
  0 < wins r → 200 * wins r ≤ played r →
  ∃ l, parse_line (snapshot_line r) = Some l
       ∧ l_played l = played r ∧ loaded_wins l = 0.
Proof.
  intros Hd Hf Hrd Hro Hra Hw Hp.
  eexists. split; [by apply parse_snapshot_line |].
  split; [reflexivity |].
  unfold loaded_wins. cbn [l_played l_win_rate].
  rewrite saved_win_rate_zero by lia. rewrite round_ratio_times_zero.
  by destruct (0 <? played r).
Qed.

Lemma rare_wins_are_lost_witness :
  ∃ l, parse_line (snapshot_line
                     (mkPlayer "Bob" 120 130 200 1 125 "steel" "steel" "steel"))
       = Some l
       ∧ l_played l = 200 ∧ loaded_wins l = 0.
Proof.
  apply (rare_wins_are_lost
           (mkPlayer "Bob" 120 130 200 1 125 "steel" "steel" "steel"));
    first [ reflexivity | by split | (simpl; lia) ].
Defined.

(** ** The names of a team *)

Lemma drop_while_split (p : ascii → bool) (s : string) :
  ∃ pre, s = pre +:+ drop_while p s.
Proof.
  induction s as [| c s [pre IH]]; [by exists "" |].
  cbn [drop_while]. destruct (p c); [| by exists ""].
  exists (String c pre). rewrite string_app_cons. by f_equal.
Qed.

Lemma drop_while_head (p : ascii → bool) (c : ascii) (s : string) :
  drop_while p (String c s) = String c s → p c = false.
Proof.
  cbn [drop_while]. destruct (p c); [| done]. intros H.
  pose proof (f_equal String.length H) as Hlen.
  pose proof (drop_while_length p s). cbn [String.length] in Hlen. lia.
Qed.

Lemma drop_while_idempotent (p : ascii → bool) (s : string) :
  drop_while p (drop_while p s) = drop_while p s.
Proof.
  induction s as [| c s IH]; [reflexivity |].
  cbn [drop_while]. destruct (p c) eqn:E; [exact IH |].
  cbn [drop_while]. by rewrite E.
Qed.

Lemma drop_while_prefix (p : ascii → bool) (t x y : string) :
  drop_while p t = t → t = x +:+ y → drop_while p x = x.
Proof.
  intros Ht ->. destruct x as [| c x]; [reflexivity |].
  rewrite string_app_cons in Ht. apply drop_while_head in Ht.
  cbn [drop_while]. by rewrite Ht.
Qed.

Lemma strip_idempotent (s : string) : strip (strip s) = strip s.
Proof.
  unfold strip. rewrite !rstrip_rtrim, !lstrip_drop. unfold rtrim.
  set (t := drop_while isspace s).
  set (v := drop_while isspace (String.rev t)).
  assert (Hv : drop_while isspace (String.rev v) = String.rev v).
  { destruct (drop_while_split isspace (String.rev t)) as [pre Hpre].
    fold v in Hpre.
    apply (drop_while_prefix isspace t _ (String.rev pre)).
    - apply drop_while_idempotent.
    - by rewrite <- rev_app_distr, <- Hpre, rev_involutive. }
  rewrite Hv, rev_involutive. unfold v at 1.
  by rewrite drop_while_idempotent.
Qed.

Lemma all_chars_drop_while (p q : ascii → bool) (s : string) :
  all_chars p s = true → all_chars p (drop_while q s) = true.
Proof.
  induction s as [| c s IH]; [done |].
  cbn [all_chars drop_while]. intros H.
  destruct (q c); [| exact H].
  apply andb_true_iff in H as [_ H]. by apply IH.
Qed.

Lemma all_chars_strip (p : ascii → bool) (s : string) :
  all_chars p s = true → all_chars p (strip s) = true.
Proof.
  intros H. unfold strip. rewrite rstrip_rtrim, lstrip_drop. unfold rtrim.
  rewrite all_chars_rev. apply all_chars_drop_while.
  rewrite all_chars_rev. by apply all_chars_drop_while.
Qed.

Lemma split_pieces (s : string) :
  Forall (λ q, all_chars (λ c, negb (ascii_eqb c ",")) q = true)
         (split "," s).
Proof.
  induction s as [| c s IH]; [by repeat constructor |].
  cbn [split]. destruct (ascii_eqb c ",") eqn:E.
  - by constructor.
  - destruct (split "," s) as [| h t].
    + repeat constructor. cbn [all_chars]. by rewrite E.
    + apply Forall_cons in IH as [Hh Ht].
      constructor; [| exact Ht]. cbn [all_chars]. by rewrite E, Hh.
Qed.

Lemma names_of_spec (part name : string) :
  name ∈ names_of part →
  name ≠ "" ∧ strip name = name
  ∧ all_chars (λ c, negb (ascii_eqb c ",")) name = true.
Proof.
  unfold names_of. intros H.
  apply list_elem_of_In, filter_In in H as [H Hne].
  apply list_elem_of_In, list_elem_of_fmap in H as (q & -> & Hq).
  split; [| split].
  - intros E. rewrite E in Hne. discriminate Hne.
  - apply strip_idempotent.
  - apply all_chars_strip.
    pose proof (split_pieces part) as Hall.
    rewrite Forall_forall in Hall. by apply Hall.
Qed.

(** X30. Every name of a parsed team is fit to be a display name: it is not
    empty, has no white space at either end, and contains no comma,
    whatever the text of the team. *)
Theorem parse_team_names (team_str name : string) :
  name ∈ roster (parse_team team_str) →
  name ≠ "" ∧ strip name = name
  ∧ all_chars (λ c, negb (ascii_eqb c ",")) name = true.
Proof.
  unfold roster, parse_team.
  destruct (split_once ";" team_str) as [[offense_part defense_part] |];
    cbn [fst snd]; intros [H | H]%elem_of_app;
    first [ by apply (names_of_spec _ _ H) | by apply elem_of_nil in H ].
Qed.

Lemma parse_team_names_witness :
  "Bob B" ≠ "" ∧ strip "Bob B" = "Bob B"
  ∧ all_chars (λ c, negb (ascii_eqb c ",")) "Bob B" = true.
Proof.
  apply (parse_team_names " alice ,, Bob B ; carl,").
  apply list_elem_of_In. vm_compute. auto.
Defined.

(** ** The win-type token *)








